(** * Cuckoo Cycle miner: edge function, degree bitmap, delta decoding,
      cycle finder, recovery and the job-queue API.

    A shallow embedding of the CUDA matrix miner (the edge function
    [dipnode], [twice_set], the delta decoders of [genVnodes1] and
    [genVnodes2], [solver_ctx::path], [solver_ctx::findcycles],
    [solver_ctx::solution], [cuckoo_call]), of the matrix miner's
    [cuckoo_call], of the simple miner's [path] and [worker], and of
    the queue functions of the plugin header.

    Machine integers are [Z] with the wrap-around written out; C arrays are
    lists updated by index, the cuckoo table is a finite map with the
    [memset] value as default. *)

From Stdlib Require Import ZArith List Lia Bool String Sorting.Sorted Sorting.Permutation.
From stdpp Require Import base numbers list gmap.
Local Open Scope Z_scope.

(** ** Build-time parameters *)

(** [EDGEBITS] comes from the build (cuckoo.h), [XBITS] is
    [#define XBITS 7] unless the build overrides it. *)
Class BuildParams := { EDGEBITS : Z; XBITS : Z; CUDA_ARCH : Z }.

(** The default build: [EDGEBITS = 29], [XBITS = 7]; built for a device
    with the funnel shifter. *)
Definition default_params : BuildParams :=
  {| EDGEBITS := 29; XBITS := 7; CUDA_ARCH := 350 |}.

(** The default build on the scalar path (host pass or an older device). *)
Definition scalar_params : BuildParams :=
  {| EDGEBITS := 29; XBITS := 7; CUDA_ARCH := 300 |}.

(** A toy build for evaluation: 512 edges, 8 x 8 buckets. *)
Definition toy_params : BuildParams :=
  {| EDGEBITS := 9; XBITS := 3; CUDA_ARCH := 350 |}.

(** The smallest build used in examples of the cycle finder. *)
Definition tiny_params : BuildParams :=
  {| EDGEBITS := 3; XBITS := 1; CUDA_ARCH := 350 |}.

(** ** Machine words *)

Definition u32 (x : Z) : Z := x mod 2 ^ 32.
Definition u64 (x : Z) : Z := x mod 2 ^ 64.

(** [(int)x] for a [u32] value [x]: the two's complement reading. *)
Definition to_int (x : Z) : Z := if x <? 2 ^ 31 then x else x - 2 ^ 32.

Definition PROOFSIZE : Z := 42.

Section Constants.
Context {P : BuildParams}.

(** Modelled from the spec: cuckoo.h is missing; [NEDGES] is the number of
    edges [2^E] and [EDGEMASK] the mask of the low [E] bits. *)
Definition NEDGES : Z := Z.shiftl 1 EDGEBITS.
Definition EDGEMASK : Z := NEDGES - 1.

Definition YBITS : Z := XBITS.
Definition BIGSIZE : Z := 5.
Definition NX : Z := Z.shiftl 1 XBITS.
Definition XMASK : Z := NX - 1.
Definition NY : Z := Z.shiftl 1 YBITS.
Definition YMASK : Z := NY - 1.
Definition XYBITS : Z := XBITS + YBITS.
Definition NXY : Z := Z.shiftl 1 XYBITS.
Definition ZBITS : Z := EDGEBITS - XYBITS.
Definition NZ : Z := Z.shiftl 1 ZBITS.
Definition ZMASK : Z := NZ - 1.
Definition YZBITS : Z := YBITS + ZBITS.
Definition NYZ : Z := Z.shiftl 1 YZBITS.
Definition YZMASK : Z := NYZ - 1.
Definition YZ1BITS : Z := 15.
Definition NYZ1 : Z := Z.shiftl 1 YZ1BITS.
Definition YZ1MASK : Z := NYZ1 - 1.
Definition Z1BITS : Z := YZ1BITS - YBITS.
Definition NZ1 : Z := Z.shiftl 1 Z1BITS.
Definition Z1MASK : Z := NZ1 - 1.
Definition YZ2BITS : Z := 9.
Definition NYZ2 : Z := Z.shiftl 1 YZ2BITS.
Definition YZ2MASK : Z := NYZ2 - 1.
Definition Z2BITS : Z := YZ2BITS - YBITS.
Definition NZ2 : Z := Z.shiftl 1 Z2BITS.
Definition Z2MASK : Z := NZ2 - 1.
Definition YZZBITS : Z := YZBITS + ZBITS.
Definition YZZ1BITS : Z := YZ1BITS + ZBITS.
Definition BIGSLOTBITS : Z := BIGSIZE * 8.
Definition NONYZBITS : Z := BIGSLOTBITS - YZBITS.
Definition Z2BUCKETSIZE : Z := Z.shiftr NYZ2 3.

Definition NODEBITS : Z := EDGEBITS + 1.
Definition MAXPATHLEN : Z := Z.shiftl 8 ((NODEBITS + 2) / 3).
Definition CUCKOO_SIZE : Z := 2 * NX * NYZ2.
Definition CUCKOO_NIL : Z := 2 ^ 32 - 1.
End Constants.

(** ** SipHash-2-4 and the edge function *)

Record siphash_keys := { k0 : Z; k1 : Z; k2 : Z; k3 : Z }.

(** The words [SIPROUND] computes on: [u64] on the scalar path, [uint2] on
    the path compiled for [__CUDA_ARCH__ >= 320]; the macro is written once
    and the operators [+=], [^=] and [ROTL] are resolved by the type. *)
Class SipWord (W : Type) := {
  wadd : W -> W -> W;
  wxor : W -> W -> W;
  wrotl : W -> Z -> W
}.

(** Modelled from the spec: cuckoo.h is missing; [ROTL] is the 64-bit left
    rotation of SipHash. *)
Definition ROTL (x b : Z) : Z :=
  u64 (Z.lor (Z.shiftl x b) (Z.shiftr x (64 - b))).

#[export] Instance SipWord_u64 : SipWord Z := {
  wadd a b := u64 (a + b);
  wxor a b := Z.lxor a b;
  wrotl := ROTL
}.

(** [uint2]: a 64-bit word as two 32-bit halves, [x] the low one. *)
Record uint2 := make_uint2 { x_ : Z; y_ : Z }.

(** [operator^] and [operator^=] on [uint2]. *)
Definition uint2_xor (a b : uint2) : uint2 :=
  make_uint2 (Z.lxor (x_ a) (x_ b)) (Z.lxor (y_ a) (y_ b)).

(** [operator+=] on [uint2]: [add.cc.u32] on the low halves, [addc.u32] on
    the high ones. *)
Definition uint2_add (a b : uint2) : uint2 :=
  let lo := x_ a + x_ b in
  let carry := lo / 2 ^ 32 in
  make_uint2 (u32 lo) (u32 (y_ a + y_ b + carry)).

(** [shf.l.wrap.b32 d, a, b, c]: the high word of [(b:a) << (c & 31)]. *)
Definition shf_l_wrap (a b c : Z) : Z :=
  let n := Z.land c 31 in
  u32 (Z.lor (Z.shiftl b n) (Z.shiftr a (32 - n))).

(** [ROTL] as redefined with the funnel shifter. *)
Definition ROTL2 (a : uint2) (offset : Z) : uint2 :=
  if 32 <=? offset
  then make_uint2 (shf_l_wrap (x_ a) (y_ a) offset) (shf_l_wrap (y_ a) (x_ a) offset)
  else make_uint2 (shf_l_wrap (y_ a) (x_ a) offset) (shf_l_wrap (x_ a) (y_ a) offset).

Definition vectorize (x : Z) : uint2 :=
  make_uint2 (u32 x) (u32 (Z.shiftr x 32)).

Definition devectorize (a : uint2) : Z :=
  Z.lor (x_ a) (Z.shiftl (y_ a) 32).

#[export] Instance SipWord_uint2 : SipWord uint2 := {
  wadd := uint2_add;
  wxor := uint2_xor;
  wrotl := ROTL2
}.

Record sipstate (W : Type) := SipState { v0 : W; v1 : W; v2 : W; v3 : W }.
Arguments SipState {W} _ _ _ _.
Arguments v0 {W} _.
Arguments v1 {W} _.
Arguments v2 {W} _.
Arguments v3 {W} _.

(** Modelled from the spec: cuckoo.h is missing; [SIPROUND] is the round of
    SipHash on the four variables [v0..v3]. *)
Definition SIPROUND {W} `{SipWord W} (s : sipstate W) : sipstate W :=
  let '(SipState v0 v1 v2 v3) := s in
  let v0 := wadd v0 v1 in let v2 := wadd v2 v3 in let v1 := wrotl v1 13 in
  let v3 := wrotl v3 16 in let v1 := wxor v1 v0 in let v3 := wxor v3 v2 in
  let v0 := wrotl v0 32 in let v2 := wadd v2 v1 in let v0 := wadd v0 v3 in
  let v1 := wrotl v1 17 in let v3 := wrotl v3 21 in
  let v1 := wxor v1 v2 in let v3 := wxor v3 v0 in let v2 := wrotl v2 32 in
  SipState v0 v1 v2 v3.

(** [a] holds two 32-bit halves. *)
Definition uint2_wf (a : uint2) : Prop :=
  0 <= x_ a < 2 ^ 32 /\ 0 <= y_ a < 2 ^ 32.

(** [a] is the 64-bit word [z]. *)
Definition rep (a : uint2) (z : Z) : Prop := uint2_wf a /\ devectorize a = z.

(** The four variables of the two paths hold the same words. *)
Definition rep4 (s : sipstate uint2) (t : sipstate Z) : Prop :=
  rep (v0 s) (v0 t) /\ rep (v1 s) (v1 t) /\ rep (v2 s) (v2 t) /\ rep (v3 s) (v3 t).

Section EdgeFunction.
Context {P : BuildParams}.

(** [dipnode] as compiled for [__CUDA_ARCH__ >= 320]. The sum
    [2*nce + uorv] is computed on [edge_t], 32 bits wide. *)
Definition dipnode_vec (keys : siphash_keys) (nce uorv : Z) : Z :=
  let nonce := vectorize (u32 (2 * nce + uorv)) in
  let s := SipState (vectorize (k0 keys)) (vectorize (k1 keys))
                    (vectorize (k2 keys)) (uint2_xor (vectorize (k3 keys)) nonce) in
  let s := SIPROUND (SIPROUND s) in
  let s := SipState (uint2_xor (v0 s) nonce) (v1 s)
                    (uint2_xor (v2 s) (vectorize 255)) (v3 s) in
  let s := SIPROUND (SIPROUND (SIPROUND (SIPROUND s))) in
  Z.land (devectorize (uint2_xor (uint2_xor (uint2_xor (v0 s) (v1 s)) (v2 s)) (v3 s)))
         EDGEMASK.

(** [dipnode] of the [#else] branch (the scalar path). *)
Definition dipnode_scalar (keys : siphash_keys) (nce uorv : Z) : Z :=
  let nonce := u32 (2 * nce + uorv) in
  let s := SipState (k0 keys) (k0 keys) (k2 keys) (Z.lxor (k3 keys) nonce) in
  let s := SIPROUND (SIPROUND s) in
  let s := SipState (Z.lxor (v0 s) nonce) (v1 s) (Z.lxor (v2 s) 255) (v3 s) in
  let s := SIPROUND (SIPROUND (SIPROUND (SIPROUND s))) in
  Z.land (Z.lxor (Z.lxor (Z.lxor (v0 s) (v1 s)) (v2 s)) (v3 s)) EDGEMASK.

(** The conditional compilation [#if (__CUDA_ARCH__ >= 320)]. *)
Definition dipnode (keys : siphash_keys) (nce uorv : Z) : Z :=
  if 320 <=? CUDA_ARCH then dipnode_vec keys nce uorv
  else dipnode_scalar keys nce uorv.

(** The edge function as the specification words it: SipHash-2-4 of the
    message [m] under [k0..k3], the state initialised as [v0 = k0],
    [v1 = k1], [v2 = k2], [v3 = k3 xor m]. *)
Definition siphash24_spec (keys : siphash_keys) (m : Z) : Z :=
  let s := SipState (k0 keys) (k1 keys) (k2 keys) (Z.lxor (k3 keys) m) in
  let s := SIPROUND (SIPROUND s) in
  let s := SipState (Z.lxor (v0 s) m) (v1 s) (Z.lxor (v2 s) 255) (v3 s) in
  let s := SIPROUND (SIPROUND (SIPROUND (SIPROUND s))) in
  Z.lxor (Z.lxor (Z.lxor (v0 s) (v1 s)) (v2 s)) (v3 s).

Definition edge_spec (keys : siphash_keys) (i side : Z) : Z :=
  Z.land (siphash24_spec keys (2 * i + side)) EDGEMASK.
End EdgeFunction.

Definition keys_ok (keys : siphash_keys) : Prop :=
  0 <= k0 keys < 2 ^ 64 /\ 0 <= k1 keys < 2 ^ 64 /\
  0 <= k2 keys < 2 ^ 64 /\ 0 <= k3 keys < 2 ^ 64.

(** ** The two-bit degree bitmap [twice_set] *)

(** [bits[idx]] of a C array of words. *)
Definition word_at (bits : list Z) (idx : Z) : Z :=
  default 0 (bits !! Z.to_nat idx).

(** [atomicOr(&bits[idx], v)]: the old word, and the array after the OR. *)
Definition atomicOr (bits : list Z) (idx v : Z) : Z * list Z :=
  let old := word_at bits idx in
  (old, <[Z.to_nat idx := Z.lor old v]> bits).

Module TwiceSet.
Section Sized.
(** The template parameter [SIZE]. *)
Variable SIZE : Z.

Definition TWICE_WORDS : Z := (2 * SIZE) / 32.

(** [reset], run by one thread ([threadIdx.x = 0], [blockDim.x = 1]). *)
Definition reset (bits : list Z) : list Z :=
  replicate (Z.to_nat TWICE_WORDS) 0.

Definition set (bits : list Z) (u : Z) : list Z :=
  let idx := u / 16 in
  let bit := u32 (Z.shiftl 1 (2 * (u mod 16))) in
  let '(old, bits) := atomicOr bits idx bit in
  let bit2 := u32 (Z.shiftl bit 1) in
  if Z.land old (Z.lor bit2 bit) =? bit
  then snd (atomicOr bits idx bit2)
  else bits.

Definition test (bits : list Z) (u : Z) : Z :=
  Z.land (Z.shiftr (word_at bits (u / 16)) (2 * (u mod 16))) 2.

(** A series of [set] calls executed one after the other. *)
Definition set_all (bits : list Z) (us : list Z) : list Z :=
  foldl set bits us.
End Sized.

(** The two bits kept for index [u]: the low one says "seen", the high
    one "seen twice". *)
Definition seen1 (bits : list Z) (u : Z) : bool :=
  Z.testbit (word_at bits (u / 16)) (2 * (u mod 16)).
Definition seen2 (bits : list Z) (u : Z) : bool :=
  Z.testbit (word_at bits (u / 16)) (2 * (u mod 16) + 1).

(** The word of [u] after [set u], all other words being untouched. *)
Definition set_word (old p : Z) : Z :=
  if Z.testbit old p && negb (Z.testbit old (p + 1))
  then Z.lor (Z.lor old (2 ^ p)) (2 ^ (p + 1))
  else Z.lor old (2 ^ p).
End TwiceSet.

(** ** Bucket records and delta decoding *)

(** [memcpy(p, (u8* )&x, SIZE)] on a little-endian machine: the low [SIZE]
    bytes of [x]. *)
Fixpoint le_bytes (SIZE : nat) (x : Z) : list Z :=
  match SIZE with
  | O => []
  | S n => x mod 256 :: le_bytes n (x / 256)
  end.

(** [u64 foo = 0; memcpy((u8* )&foo, p, SIZE)]: the bytes read back. *)
Fixpoint le_value (bytes : list Z) : Z :=
  match bytes with
  | [] => 0
  | b :: r => b + 256 * le_value r
  end.

Definition writebig (SIZE : Z) (x : Z) : list Z := le_bytes (Z.to_nat SIZE) (u64 x).
Definition readbig (SIZE : Z) (p : list Z) : Z := le_value (take (Z.to_nat SIZE) p).

Section Delta.
Context {P : BuildParams}.

Definition NONDEGBITS : Z := Z.min BIGSLOTBITS (2 * YZBITS) - ZBITS.
Definition NONDEGMASK : Z := u32 (Z.shiftl 1 NONDEGBITS - 1).

(** The record [genUnodes] writes for edge nonce [edge] with endpoint
    [node]: [dst.writebig<BIGSIZE>(ux, (u64)edge << YZBITS | (node & YZMASK))]. *)
Definition genU_record (edge node : Z) : list Z :=
  writebig BIGSIZE (Z.lor (u64 (Z.shiftl edge YZBITS)) (Z.land node YZMASK)).


(** The record [genVnodes1] writes to the small bucket:
    [((u64)edge << ZBITS) | (e & ZMASK)]. *)
Definition genV1_record (edge e : Z) : list Z :=
  writebig BIGSIZE (Z.lor (u64 (Z.shiftl edge ZBITS)) (Z.land e ZMASK)).

(** The decoder of [genVnodes2]; [e] is [u64], so the update is computed
    on 64 bits and truncated by the assignment to [edge]:
    [edge += (((e >> ZBITS) - edge + lag) & NONDEGMASK) - lag]
    with [lag = NONDEGMASK >> 2]. *)
Definition genV2_update (edge e : Z) : Z :=
  let lag := Z.shiftr NONDEGMASK 2 in
  let d := u64 (u64 (Z.shiftr e ZBITS - edge) + lag) in
  u32 (u64 (edge + u64 (Z.land d NONDEGMASK - lag))).


(** The second reading loop of [genVnodes2] over one small bucket, [edge]
    starting at 0. *)
Fixpoint genV2_decode (edge : Z) (records : list (list Z)) : list Z :=
  match records with
  | [] => []
  | p :: rest =>
      let edge := genV2_update edge (readbig BIGSIZE p) in
      edge :: genV2_decode edge rest
  end.



(** A strictly increasing run of nonces after [prev], every gap below
    [bound]. *)
Fixpoint increasing_gaps (bound prev : Z) (ns : list Z) : Prop :=
  match ns with
  | [] => True
  | n :: rest => prev < n < prev + bound /\ increasing_gaps bound n rest
  end.

(** A nonce stream as a decoder started at [start] meets it: the first
    nonce is at or after [start], the stream is strictly increasing, and
    every gap (the first one counted from [start]) is below [bound]. *)
Definition stream_ok (bound start : Z) (ns : list Z) : Prop :=
  match ns with
  | [] => True
  | n :: rest => start <= n < start + bound /\ increasing_gaps bound n rest
  end.
End Delta.

(** ** Outcomes of host code *)

(** What [path] prints before [exit(0)]. *)
Inductive diagnostic :=
  | MaxPathExceeded                (* "maximum path length exceeded" *)
  | IllegalCycle (len u0 : Z).     (* "illegal %4d-cycle from node %d" *)

(** A call either returns, or ends the process through [exit(0)] after
    printing a diagnostic, or fails an [assert]. *)
Inductive outcome (A : Type) :=
  | Return (a : A)
  | Exit (d : diagnostic)
  | AssertFail.
Arguments Return {A} _.
Arguments Exit {A} _.
Arguments AssertFail {A}.

#[export] Instance outcome_ret : MRet outcome := fun A a => Return a.
#[export] Instance outcome_bind : MBind outcome := fun A B f m =>
  match m with
  | Return a => f a
  | Exit d => Exit d
  | AssertFail => AssertFail
  end.

(** [assert(b)]. *)
Definition assert (b : bool) : outcome unit :=
  if b then Return tt else AssertFail.

(** A loop body run over a list, left to right. *)
Fixpoint foldlM {A B} (f : B -> A -> outcome B) (b : B) (l : list A) : outcome B :=
  match l with
  | [] => Return b
  | a :: r => b' ← f b a; foldlM f b' r
  end.

(** ** The cycle finder *)

(** What the solver reads of the trimmer once [trim] has run: the keys, the
    rename tables of the two compression rounds ([renameu1 x y i] is
    [buckets[x][y].renameu1[i]]), the trimmed edge list ([tbuckets x y] holds
    the [size/sizeof(u32)] words of bucket [(x,y)]), the device copies of
    [uvnodes] and [sol], and what the shared [uxymap] of [recoveredges1]
    holds when the kernel starts (it is not initialised). *)
Record edgetrimmer := {
  sip_keys : siphash_keys;
  renameu1 : Z -> Z -> Z -> Z;
  renamev1 : Z -> Z -> Z -> Z;
  renameu : Z -> Z -> Z -> Z;
  renamev : Z -> Z -> Z -> Z;
  tbuckets : Z -> Z -> list Z;
  dev_uvnodes : list Z;
  dev_sol : list Z;
  uxymap0 : list Z
}.

Record solver_ctx := {
  trimmer : edgetrimmer;
  buckets : Z -> Z -> list Z;
  cuckoo : gmap Z Z;
  uvnodes : list Z;
  sols : list Z;
  (** the lengths printed by ["%4d-cycle found"] *)
  found : list Z
}.

(** [nonce_cmp]: the difference is taken on [u32] and returned as [int]. *)
Definition nonce_cmp (a b : Z) : Z := to_int (u32 (a - b)).

(** Modelled from the spec: [qsort] is the C library's; it sorts by the
    comparison function, here by insertion. *)
Fixpoint qsort_insert (cmp : Z -> Z -> Z) (x : Z) (l : list Z) : list Z :=
  match l with
  | [] => [x]
  | y :: r => if cmp x y <=? 0 then x :: l else y :: qsort_insert cmp x r
  end.

Definition qsort (cmp : Z -> Z -> Z) (l : list Z) : list Z :=
  foldr (qsort_insert cmp) [] l.

Section CycleFinder.
Context {P : BuildParams}.

(** [cuckoo[u]]; the table is [memset] to [CUCKOO_NIL] by [solve]. *)
Definition cuckoo_at (cuckoo : gmap Z Z) (u : Z) : Z :=
  default CUCKOO_NIL (cuckoo !! u).

(** The node reached from [u] after [k] steps along the table. *)
Fixpoint walk (ck : gmap Z Z) (k : nat) (u : Z) : Z :=
  match k with
  | O => u
  | S k' => walk ck k' (cuckoo_at ck u)
  end.

(** [u] is [k] steps away from the end of its path: the first [k] nodes
    are nodes, the next is nil. *)
Definition ends_after (ck : gmap Z Z) (k : nat) (u : Z) : Prop :=
  walk ck k u = CUCKOO_NIL /\ forall j, (j < k)%nat -> walk ck j u <> CUCKOO_NIL.


(** [us[i]]. *)
Definition node_at (us : list Z) (i : Z) : Z :=
  default 0 (us !! Z.to_nat i).

(** [while (nu-- && us[nu] != u) ;] – the value of [nu] after the loop:
    the index found, or [~0] when the count ran out. *)
Fixpoint scan_back (us : list Z) (u : Z) (nu : nat) : Z :=
  match nu with
  | O => u32 (0 - 1)
  | S n => if node_at us (Z.of_nat n) =? u then Z.of_nat n else scan_back us u n
  end.

(** The branch taken in [path] when [nu >= MAXPATHLEN]. *)
Definition path_overflow (us : list Z) (u nu u0 : Z) : diagnostic :=
  let nu := scan_back us u (Z.to_nat nu) in
  if Z.lnot nu mod 2 ^ 32 =? 0
  then MaxPathExceeded
  else IllegalCycle (u32 (MAXPATHLEN - nu)) u0.

(** The loop of [path]. [room] is [MAXPATHLEN - nu], so the [O] case is
    the test [nu >= MAXPATHLEN]. *)
Fixpoint path_loop (room : nat) (cuckoo : gmap Z Z) (u0 u nu : Z) (us : list Z)
  : outcome (Z * list Z) :=
  if u =? CUCKOO_NIL then Return (u32 (nu - 1), us)
  else match room with
       | O => Exit (path_overflow us u nu u0)
       | S room' =>
           path_loop room' cuckoo u0 (cuckoo_at cuckoo u) (nu + 1)
                     (<[Z.to_nat nu := u]> us)
       end.

Definition path (cuckoo : gmap Z Z) (u : Z) (us : list Z) : outcome (Z * list Z) :=
  path_loop (Z.to_nat MAXPATHLEN) cuckoo u u 0 us.

Definition recordedge (uvnodes : list Z) (i u2 v2 : Z) : list Z :=
  <[Z.to_nat (u32 (2 * i + 1)) := v2 / 2]> (<[Z.to_nat (u32 (2 * i)) := u2 / 2]> uvnodes).

(** [while (nu--) recordedge(ni++, us[(nu+1)&~1], us[nu|1]);] *)
Fixpoint record_us (nu : nat) (us : list Z) (ni : Z) (uvnodes : list Z) : Z * list Z :=
  match nu with
  | O => (ni, uvnodes)
  | S n =>
      let nu := Z.of_nat n in
      record_us n us (u32 (ni + 1))
        (recordedge uvnodes ni
           (node_at us (Z.land (u32 (nu + 1)) (2 ^ 32 - 2)))
           (node_at us (Z.lor nu 1)))
  end.

(** [while (nv--) recordedge(ni++, vs[nv|1], vs[(nv+1)&~1]);] *)
Fixpoint record_vs (nv : nat) (vs : list Z) (ni : Z) (uvnodes : list Z) : Z * list Z :=
  match nv with
  | O => (ni, uvnodes)
  | S n =>
      let nv := Z.of_nat n in
      record_vs n vs (u32 (ni + 1))
        (recordedge uvnodes ni
           (node_at vs (Z.lor nv 1))
           (node_at vs (Z.land (u32 (nv + 1)) (2 ^ 32 - 2))))
  end.

(** The kernel [recoveredges] for block [i] ([COMPRESSROUND > 0]). *)
Definition recoveredges (t : edgetrimmer) (uvn : list Z) (i : Z) : outcome (list Z) :=
  let u1 := node_at uvn (2 * i) in
  let v1 := node_at uvn (2 * i + 1) in
  let ux := Z.shiftr u1 YZ2BITS in
  let vx := Z.shiftr v1 YZ2BITS in
  let uyz := renameu1 t ux (Z.land (Z.shiftr u1 Z2BITS) YMASK) (Z.land u1 Z2MASK) in
  _ ← assert (uyz <? NYZ1);
  let vyz := renamev1 t (Z.land (Z.shiftr v1 Z2BITS) YMASK) vx (Z.land v1 Z2MASK) in
  _ ← assert (vyz <? NYZ1);
  let uyz := renameu t ux (Z.shiftr uyz Z1BITS) (Z.land uyz Z1MASK) in
  let vyz := renamev t (Z.shiftr vyz Z1BITS) vx (Z.land vyz Z1MASK) in
  let u := Z.lor (u32 (Z.shiftl ux YZBITS)) uyz in
  let v := Z.lor (u32 (Z.shiftl vx YZBITS)) vyz in
  Return (<[Z.to_nat (2 * i + 1) := v]> (<[Z.to_nat (2 * i) := u]> uvn)).

(** The numbers [0 .. n-1], the indices of a counting loop. *)
Definition upto (n : Z) : list Z := seqZ 0 n.

(** The first loop of [recoveredges1]: the [(X,Y)] prefixes of the cycle's
    U nodes are marked in [uxymap]. *)
Definition mark_uxy (uvn : list Z) (uxymap : list Z) (i : Z) : list Z :=
  let uxy := Z.shiftr (node_at uvn (2 * i)) ZBITS in
  snd (atomicOr uxymap (uxy / 32) (u32 (Z.shiftl 1 (uxy mod 32)))).

(** The inner loop of [recoveredges1] over the slots [j]. *)
Definition match_slot (uvn : list Z) (keys : siphash_keys) (edge u : Z)
    (sol : list Z) (j : Z) : list Z :=
  if node_at uvn (2 * j) =? u then
    if dipnode keys edge 1 =? node_at uvn (2 * j + 1)
    then <[Z.to_nat j := edge]> sol
    else sol
  else sol.

(** The body of the second loop of [recoveredges1] for one nonce. *)
Definition recover_edge (uvn uxymap : list Z) (keys : siphash_keys)
    (sol : list Z) (edge : Z) : list Z :=
  let u := dipnode keys edge 0 in
  let uxy := Z.shiftr u ZBITS in
  if Z.land (Z.shiftr (word_at uxymap (uxy / 32)) (uxy mod 32)) 1 =? 0
  then sol
  else foldl (match_slot uvn keys edge u) sol (upto PROOFSIZE).

(** The kernel [recoveredges1], run by one thread: all nonces in
    ascending order. *)
Definition recoveredges1 (t : edgetrimmer) (uvn : list Z) : list Z :=
  let uxymap := foldl (mark_uxy uvn) (uxymap0 t) (upto PROOFSIZE) in
  foldl (recover_edge uvn uxymap (sip_keys t)) (dev_sol t) (upto NEDGES).

(** [solver_ctx::solution]. *)
Definition solution (c : solver_ctx) (us : list Z) (nu : Z) (vs : list Z) (nv : Z)
  : outcome solver_ctx :=
  let uvn := recordedge (uvnodes c) 0 (node_at us 0) (node_at vs 0) in
  let '(ni, uvn) := record_us (Z.to_nat nu) us 1 uvn in
  let '(ni, uvn) := record_vs (Z.to_nat nv) vs ni uvn in
  _ ← assert (ni =? PROOFSIZE);
  duv ← foldlM (recoveredges (trimmer c)) uvn (upto PROOFSIZE);
  let t := trimmer c in
  let dsol := recoveredges1 t duv in
  let t' := {| sip_keys := sip_keys t; renameu1 := renameu1 t; renamev1 := renamev1 t;
               renameu := renameu t; renamev := renamev t; tbuckets := tbuckets t;
               dev_uvnodes := duv; dev_sol := dsol; uxymap0 := uxymap0 t |} in
  Return {| trimmer := t'; buckets := buckets c; cuckoo := cuckoo c; uvnodes := uvn;
            sols := sols c ++ qsort nonce_cmp (take (Z.to_nat PROOFSIZE) dsol);
            found := found c |}.

(** The state of the loops of [findcycles]: the context and the two local
    arrays. *)
Record fc_state := { ctx : solver_ctx; us : list Z; vs : list Z }.

(** [for (nu -= min, nv -= min; us[nu] != vs[nv]; nu++, nv++) ;] after
    the subtraction. [k] counts the steps left up to the pair of indices
    the enclosing [if] found equal, where the loop stops at the latest. *)
Fixpoint trim_tails (k : nat) (us vs : list Z) (nu nv : Z) : Z * Z :=
  match k with
  | O => (nu, nv)
  | S k' =>
      if node_at us nu =? node_at vs nv then (nu, nv)
      else trim_tails k' us vs (u32 (nu + 1)) (u32 (nv + 1))
  end.

(** [while (nu--) cuckoo[us[nu+1]] = us[nu];] *)
Fixpoint relink (nu : nat) (us : list Z) (cuckoo : gmap Z Z) : gmap Z Z :=
  match nu with
  | O => cuckoo
  | S n =>
      let nu := Z.of_nat n in
      relink n us (<[node_at us (u32 (nu + 1)) := node_at us nu]> cuckoo)
  end.

Definition with_cuckoo (c : solver_ctx) (cuckoo' : gmap Z Z) : solver_ctx :=
  {| trimmer := trimmer c; buckets := buckets c; cuckoo := cuckoo';
     uvnodes := uvnodes c; sols := sols c; found := found c |}.

Definition with_found (c : solver_ctx) (len : Z) : solver_ctx :=
  {| trimmer := trimmer c; buckets := buckets c; cuckoo := cuckoo c;
     uvnodes := uvnodes c; sols := sols c; found := found c ++ [len] |}.

(** The two endpoints of the trimmed edge [e] of bucket [(ux,vx)]. *)
Definition edge_u0 (ux e : Z) : Z :=
  let uxyz := Z.lor (u32 (Z.shiftl ux YZ2BITS)) (Z.shiftr e YZ2BITS) in
  u32 (Z.shiftl uxyz 1).

Definition edge_v0 (vx e : Z) : Z :=
  let vxyz := Z.lor (u32 (Z.shiftl vx YZ2BITS)) (Z.land e YZ2MASK) in
  Z.lor (u32 (Z.shiftl vxyz 1)) 1.

(** The body of the innermost loop of [findcycles] for the word [e] of
    bucket [(ux,vx)]. *)
Definition findcycles_edge (ux vx : Z) (st : fc_state) (e : Z) : outcome fc_state :=
  _ ← assert (e <? u32 (NYZ2 * NYZ2));
  let u0 := edge_u0 ux e in
  let v0 := edge_v0 vx e in
  if u0 =? CUCKOO_NIL then Return st
  else
    '(nu, us) ← path (cuckoo (ctx st)) u0 (us st);
    '(nv, vs) ← path (cuckoo (ctx st)) v0 (vs st);
    if node_at us nu =? node_at vs nv then
      let min := if nu <? nv then nu else nv in
      let '(nu, nv) := trim_tails (Z.to_nat min) us vs (u32 (nu - min)) (u32 (nv - min)) in
      let len := u32 (nu + nv + 1) in
      let c := with_found (ctx st) len in
      if len =? PROOFSIZE
      then c' ← solution c us nu vs nv; Return {| ctx := c'; us := us; vs := vs |}
      else Return {| ctx := c; us := us; vs := vs |}
    else if nu <? nv then
      let ck := relink (Z.to_nat nu) us (cuckoo (ctx st)) in
      Return {| ctx := with_cuckoo (ctx st) (<[u0 := v0]> ck); us := us; vs := vs |}
    else
      let ck := relink (Z.to_nat nv) vs (cuckoo (ctx st)) in
      Return {| ctx := with_cuckoo (ctx st) (<[v0 := u0]> ck); us := us; vs := vs |}.

(** [findcycles]: buckets are read with [vx] in the outer and [ux] in the
    inner loop. [us0] and [vs0] are what the two local arrays hold on
    entry. *)
Definition findcycles (c : solver_ctx) (us0 vs0 : list Z) : outcome solver_ctx :=
  st ← foldlM (fun st vx =>
           foldlM (fun st ux => foldlM (findcycles_edge ux vx) st (buckets (ctx st) ux vx))
                  st (upto NX))
        {| ctx := c; us := us0; vs := vs0 |} (upto NX);
  Return (ctx st).

(** The words of all buckets in the order [findcycles] reads them, each
    with the indices of its bucket, and the loop body on such a triple. *)
Definition edge_order (bk : Z -> Z -> list Z) : list (Z * Z * Z) :=
  vx ← upto NX; ux ← upto NX; (fun e => (ux, vx, e)) <$> bk ux vx.

Definition findcycles_step (st : fc_state) (w : Z * Z * Z) : outcome fc_state :=
  findcycles_edge w.1.1 w.1.2 st w.2.

(** [solver_ctx::solve]. The trimming pipeline [trim] is a parameter: it
    yields its [int] result and the trimmer as the kernels leave it;
    [copy_ok] tells whether the [cudaMemcpy] of the trimmed edges
    succeeds. The result is [sols.size() / PROOFSIZE] with the context. *)
Definition solve (trim : edgetrimmer -> Z * edgetrimmer) (copy_ok : bool)
    (us0 vs0 : list Z) (c : solver_ctx) : outcome (Z * solver_ctx) :=
  let '(rc, t) := trim (trimmer c) in
  let c := {| trimmer := t; buckets := buckets c; cuckoo := cuckoo c;
              uvnodes := uvnodes c; sols := sols c; found := found c |} in
  if rc =? 0 then Return (0, c)
  else if negb copy_ok then Return (0, c)
  else
    let c := {| trimmer := t; buckets := tbuckets t; cuckoo := ∅;
                uvnodes := uvnodes c; sols := sols c; found := found c |} in
    c ← findcycles c us0 vs0;
    Return (Z.of_nat (length (sols c)) / PROOFSIZE, c).

(** ** [cuckoo_call] of the CUDA miner *)

(** What [cuckoo_call] prints about a solution. *)
Inductive call_event :=
  | PrintSolution (prf : list Z)       (* "Solution" and the nonces *)
  | PrintVerified (cyclehash : list Z) (* "Verified with cyclehash ..." *)
  | PrintFailed (pow_rc : Z)           (* "FAILED due to ..." *)
  | UpdateStats                        (* update_stats(0, start_time) *)
  | PrintTotal (sumnsols : Z).         (* "%d total solutions" *)

Definition POW_OK : Z := 0.

(** The externals of [cuckoo_call]: [setheader] hashes the header into
    the keys, [verify] is the proof check of cuckoo.h and [blake2b] the
    hash of the proof. *)
Record externals := {
  setheader : list Z -> siphash_keys;
  verify : list Z -> siphash_keys -> Z;
  blake2b : list Z -> list Z
}.

(** The externals with another proof check. *)
Definition with_verify (ext : externals) (v : list Z -> siphash_keys -> Z) : externals :=
  {| setheader := setheader ext; verify := v; blake2b := blake2b ext |}.

Definition setheadergrin (ext : externals) (header : list Z) (c : solver_ctx) : solver_ctx :=
  let t := trimmer c in
  {| trimmer := {| sip_keys := setheader ext header; renameu1 := renameu1 t;
                   renamev1 := renamev1 t; renameu := renameu t; renamev := renamev t;
                   tbuckets := tbuckets t; dev_uvnodes := dev_uvnodes t;
                   dev_sol := dev_sol t; uxymap0 := uxymap0 t |};
     buckets := buckets c; cuckoo := cuckoo c; uvnodes := uvnodes c;
     sols := []; found := found c |}.

(** [sol_nonces[i] = prf[i]] for [i < PROOFSIZE]. *)
Definition write_nonces (sol_nonces prf : list Z) : list Z :=
  foldl (fun out i => <[Z.to_nat i := node_at prf i]> out) sol_nonces (upto PROOFSIZE).

(** [cuckoo_call]: [range] is 1, so the loop over [r] runs once, and the
    loop over the solutions returns in its first iteration. The result is
    the returned [int], the caller's array and what was printed. *)
Definition cuckoo_call (ext : externals) (trim : edgetrimmer -> Z * edgetrimmer)
    (copy_ok : bool) (us0 vs0 : list Z) (SINGLE_MODE : bool)
    (c0 : solver_ctx) (header_data : list Z) (sol_nonces : list Z)
  : outcome (Z * list Z * list call_event) :=
  let c := setheadergrin ext header_data c0 in
  '(nsols, c) ← solve trim copy_ok us0 vs0 c;
  if 0 <? nsols then
    let prf := take (Z.to_nat PROOFSIZE) (sols c) in
    let out := write_nonces sol_nonces prf in
    let pow_rc := verify ext prf (sip_keys (trimmer c)) in
    let ev := if pow_rc =? POW_OK then PrintVerified (blake2b ext prf)
              else PrintFailed pow_rc in
    Return (1, out, [PrintSolution prf; ev] ++ (if SINGLE_MODE then [UpdateStats] else []))
  else
    Return (0, sol_nonces, [PrintTotal nsols] ++ (if SINGLE_MODE then [UpdateStats] else [])).
End CycleFinder.

(** ** [cuckoo_call] of the matrix miner *)

Module MatrixMiner.
(** [solve] of matrix_miner.hpp is a parameter: it gives [ctx.nsols] and
    [ctx.sols]. The result of [cuckoo_call] is the returned [int], the
    caller's array and [hashes_processed_count]. *)
Definition cuckoo_call (solve : list Z -> Z * list (list Z))
    (header_data : list Z) (sol_nonces : list Z) (hashes_processed_count : Z)
  : Z * list Z * Z :=
  let '(nsols, sols) := solve header_data in
  if 0 <? nsols then
    let prf := default [] (sols !! 0%nat) in
    (1, foldl (fun out i => <[Z.to_nat i := default 0 (prf !! Z.to_nat i)]> out)
              sol_nonces (seqZ 0 PROOFSIZE),
     hashes_processed_count + 1)
  else (0, sol_nonces, hashes_processed_count + 1).
End MatrixMiner.

(** ** The simple miner *)

Module SimpleMiner.
Definition MAXPATHLEN : Z := 8192.

Inductive diagnostic :=
  | MaxPathExceeded           (* "maximum path length exceeded" *)
  | IllegalCycle (len : Z).   (* "illegal % 4d-cycle" *)

(** A call returns or ends the process through [exit(0)]. *)
Inductive outcome (A : Type) :=
  | Return (a : A)
  | Exit (d : diagnostic).
Arguments Return {A} _.
Arguments Exit {A} _.

(** [cuckoo[u]]; the table comes from [calloc], 0 is nil. *)
Definition cuckoo_at (cuckoo : gmap Z Z) (u : Z) : Z := default 0 (cuckoo !! u).

Definition node_at (us : list Z) (i : Z) : Z := default 0 (us !! Z.to_nat i).

(** The node reached from [u] after [k] steps along the table. *)
Fixpoint walk (ck : gmap Z Z) (k : nat) (u : Z) : Z :=
  match k with
  | O => u
  | S k' => walk ck k' (cuckoo_at ck u)
  end.

(** [while (nu-- && us[nu] != u) ;] on [int nu]: the index found or -1. *)
Fixpoint scan_back (us : list Z) (u : Z) (nu : nat) : Z :=
  match nu with
  | O => -1
  | S n => if node_at us (Z.of_nat n) =? u then Z.of_nat n else scan_back us u n
  end.

Definition path_overflow (us : list Z) (u nu : Z) : diagnostic :=
  let nu := scan_back us u (Z.to_nat nu) in
  if nu <? 0 then MaxPathExceeded else IllegalCycle (MAXPATHLEN - nu).

(** The loop of [path]; [room] is [MAXPATHLEN - 1 - nu], so the [O] case
    is the test [++nu >= MAXPATHLEN]. *)
Fixpoint path_loop (room : nat) (cuckoo : gmap Z Z) (u nu : Z) (us : list Z)
  : outcome (Z * list Z) :=
  if u =? 0 then Return (nu, us)
  else match room with
       | O => Exit (path_overflow us u (nu + 1))
       | S room' =>
           path_loop room' cuckoo (cuckoo_at cuckoo u) (nu + 1)
                     (<[Z.to_nat (nu + 1) := u]> us)
       end.

Definition path (cuckoo : gmap Z Z) (u : Z) (us : list Z) : outcome (Z * list Z) :=
  path_loop (Z.to_nat (MAXPATHLEN - 1)) cuckoo u 0 us.

Fixpoint trim_tails (k : nat) (us vs : list Z) (nu nv : Z) : Z * Z :=
  match k with
  | O => (nu, nv)
  | S k' =>
      if node_at us nu =? node_at vs nv then (nu, nv)
      else trim_tails k' us vs (nu + 1) (nv + 1)
  end.

Fixpoint relink (nu : nat) (us : list Z) (cuckoo : gmap Z Z) : gmap Z Z :=
  match nu with
  | O => cuckoo
  | S n =>
      let nu := Z.of_nat n in
      relink n us (<[node_at us (nu + 1) := node_at us nu]> cuckoo)
  end.

Section Worker.
(** [sipnode] of cuckoo.h with the keys of the context, the parameter
    [PROOFSIZE] of the build and [ctx->easiness]. *)
Variable sipnode : Z -> Z -> Z.
Variable PROOFSIZE : Z.
Variable easiness : Z.

(** The edges collected by [solution] in the set [cycle]. *)
Fixpoint cycle_us (nu : nat) (us : list Z) (cycle : gset (Z * Z)) : gset (Z * Z) :=
  match nu with
  | O => cycle
  | S n =>
      let nu := Z.of_nat n in
      cycle_us n us
        ({[ (node_at us (Z.land (nu + 1) (-2)), node_at us (Z.lor nu 1)) ]} ∪ cycle)
  end.

Fixpoint cycle_vs (nv : nat) (vs : list Z) (cycle : gset (Z * Z)) : gset (Z * Z) :=
  match nv with
  | O => cycle
  | S n =>
      let nv := Z.of_nat n in
      cycle_vs n vs
        ({[ (node_at vs (Z.lor nv 1), node_at vs (Z.land (nv + 1) (-2))) ]} ∪ cycle)
  end.

(** [solution]: the nonces printed, in the order printed. *)
Definition solution (us : list Z) (nu : Z) (vs : list Z) (nv : Z) : list Z :=
  let cycle := {[ (node_at us 0, node_at vs 0) ]} in
  let cycle := cycle_us (Z.to_nat nu) us cycle in
  let cycle := cycle_vs (Z.to_nat nv) vs cycle in
  snd (foldl (fun '(cycle, printed) nonce =>
                let e := (sipnode nonce 0, sipnode nonce 1) in
                if decide (e ∈ cycle) then (cycle ∖ {[ e ]}, printed ++ [nonce])
                else (cycle, printed))
             (cycle, []) (seqZ 0 easiness)).

(** The state of the loop of [worker]: the table, the two local arrays,
    the lengths printed by ["% 4d-cycle found"] and the solutions
    printed. *)
Record state := {
  cuckoo : gmap Z Z; us : list Z; vs : list Z;
  found : list Z; solutions : list (list Z)
}.

(** The body of the loop of [worker] for one nonce. *)
Definition worker_step (st : state) (nonce : Z) : outcome state :=
  let u0 := sipnode nonce 0 in
  if u0 =? 0 then Return st
  else
    let v0 := sipnode nonce 1 in
    let u := cuckoo_at (cuckoo st) u0 in
    let v := cuckoo_at (cuckoo st) v0 in
    let us := <[0%nat := u0]> (us st) in
    let vs := <[0%nat := v0]> (vs st) in
    match path (cuckoo st) u us with
    | Exit d => Exit d
    | Return (nu, us) =>
      match path (cuckoo st) v vs with
      | Exit d => Exit d
      | Return (nv, vs) =>
        if node_at us nu =? node_at vs nv then
          let min := if nu <? nv then nu else nv in
          let '(nu, nv) := trim_tails (Z.to_nat min) us vs (nu - min) (nv - min) in
          let len := nu + nv + 1 in
          Return {| cuckoo := cuckoo st; us := us; vs := vs;
                    found := found st ++ [len];
                    solutions := if len =? PROOFSIZE
                                 then solutions st ++ [solution us nu vs nv]
                                 else solutions st |}
        else if nu <? nv then
          Return {| cuckoo := <[u0 := v0]> (relink (Z.to_nat nu) us (cuckoo st));
                    us := us; vs := vs; found := found st; solutions := solutions st |}
        else
          Return {| cuckoo := <[v0 := u0]> (relink (Z.to_nat nv) vs (cuckoo st));
                    us := us; vs := vs; found := found st; solutions := solutions st |}
      end
    end.

Fixpoint worker_loop (st : state) (nonces : list Z) : outcome state :=
  match nonces with
  | [] => Return st
  | n :: r =>
      match worker_step st n with
      | Exit d => Exit d
      | Return st' => worker_loop st' r
      end
  end.

Definition worker (st : state) : outcome state :=
  worker_loop st (seqZ 0 easiness).
End Worker.
End SimpleMiner.

(** ** The job queues and the worker lifecycle *)

Definition MAX_DATA_LENGTH : Z := 2048.
Definition MAX_QUEUE_SIZE : Z := 20.

Record QueueInput := {
  qi_id : Z; qi_nonce : list Z; qi_length : Z; qi_data : list Z
}.

Record QueueOutput := {
  qo_id : Z; qo_nonce : list Z; result_nonces : list Z; cuckoo_size : Z
}.

(** The globals of the plugin header. [workers] counts the threads made by
    [pthread_create]. *)
Record plugin := {
  processing_finished : bool;
  internal_processing_finished : bool;
  should_quit : bool;
  is_working : bool;
  SINGLE_MODE : bool;
  INPUT_QUEUE : list QueueInput;
  OUTPUT_QUEUE : list QueueOutput;
  workers : nat
}.

(** The globals as the header initialises them. *)
Definition plugin_init : plugin :=
  {| processing_finished := true; internal_processing_finished := true;
     should_quit := false; is_working := false; SINGLE_MODE := true;
     INPUT_QUEUE := []; OUTPUT_QUEUE := []; workers := 0 |}.

(** [q.size_approx()] with no other thread at work. *)
Definition size_approx {A} (q : list A) : Z := Z.of_nat (length q).

(** [q.try_dequeue(item)]: the item found, if any, and the queue left. *)
Definition try_dequeue {A} (q : list A) : option A * list A :=
  match q with
  | [] => (None, [])
  | a :: r => (Some a, r)
  end.

(** [q.enqueue(item)]. *)
Definition enqueue {A} (q : list A) (a : A) : list A := q ++ [a].

Definition cuckoo_is_queue_under_limit (s : plugin) : Z :=
  if should_quit s then 0
  else if size_approx (INPUT_QUEUE s) <? MAX_QUEUE_SIZE then 1 else 0.

(** The item built by [cuckoo_push_to_input_queue]: [data] zeroed, then the
    first [data_length] bytes copied in, and the 8 bytes of the nonce. *)
Definition make_input (id : Z) (data : list Z) (data_length : Z) (nonce : list Z)
  : QueueInput :=
  {| qi_id := id;
     qi_nonce := take 8 nonce;
     qi_length := data_length;
     qi_data := take (Z.to_nat data_length) data
                ++ replicate (Z.to_nat (MAX_DATA_LENGTH - data_length)) 0 |}.

Definition with_input (s : plugin) (q : list QueueInput) : plugin :=
  {| processing_finished := processing_finished s;
     internal_processing_finished := internal_processing_finished s;
     should_quit := should_quit s; is_working := is_working s;
     SINGLE_MODE := SINGLE_MODE s; INPUT_QUEUE := q;
     OUTPUT_QUEUE := OUTPUT_QUEUE s; workers := workers s |}.

Definition with_output (s : plugin) (q : list QueueOutput) : plugin :=
  {| processing_finished := processing_finished s;
     internal_processing_finished := internal_processing_finished s;
     should_quit := should_quit s; is_working := is_working s;
     SINGLE_MODE := SINGLE_MODE s; INPUT_QUEUE := INPUT_QUEUE s;
     OUTPUT_QUEUE := q; workers := workers s |}.

Definition cuckoo_push_to_input_queue (id : Z) (data : list Z) (data_length : Z)
    (nonce : list Z) (s : plugin) : Z * plugin :=
  if should_quit s then (4, s)
  else if MAX_DATA_LENGTH <? data_length then (2, s)
  else if MAX_QUEUE_SIZE <=? size_approx (INPUT_QUEUE s) then (1, s)
  else (0, with_input s (enqueue (INPUT_QUEUE s) (make_input id data data_length nonce))).

(** [cuckoo_read_from_output_queue]: the returned [int], the item copied
    out, and the globals. *)
Definition cuckoo_read_from_output_queue (s : plugin) : Z * option QueueOutput * plugin :=
  if should_quit s then (0, None, s)
  else match try_dequeue (OUTPUT_QUEUE s) with
       | (Some item, q) => (1, Some item, with_output s q)
       | (None, _) => (0, None, s)
       end.

(** One turn of the loop of [cuckoo_clear_queues]: a dequeue attempt on each
    queue; the result tells which attempts found an item. *)
Definition clear_step (s : plugin) : (bool * bool) * plugin :=
  let '(i, qin) := try_dequeue (INPUT_QUEUE s) in
  let '(o, qout) := try_dequeue (OUTPUT_QUEUE s) in
  ((bool_decide (is_Some i), bool_decide (is_Some o)), with_output (with_input s qin) qout).

(** The loop [for (size_t i=0;i<MAX_QUEUE_SIZE;i++)] with [n] turns left:
    the attempts made, in order, and the globals. *)
Fixpoint clear_loop (n : nat) (s : plugin) : list (bool * bool) * plugin :=
  match n with
  | O => ([], s)
  | S n' =>
      let '(r, s') := clear_step s in
      let '(rs, s'') := clear_loop n' s' in
      (r :: rs, s'')
  end.

Definition cuckoo_clear_queues_attempts (s : plugin) : list (bool * bool) * plugin :=
  clear_loop (Z.to_nat MAX_QUEUE_SIZE) s.

Definition cuckoo_clear_queues (s : plugin) : plugin :=
  snd (cuckoo_clear_queues_attempts s).

(** [cuckoo_start_processing]; [created] and [detach_failed] tell what
    [pthread_create] and [pthread_detach] do. *)
Definition cuckoo_start_processing (created detach_failed : bool) (s : plugin) : Z * plugin :=
  let s' := {| processing_finished := false;
               internal_processing_finished := internal_processing_finished s;
               should_quit := false; is_working := is_working s;
               SINGLE_MODE := false; INPUT_QUEUE := INPUT_QUEUE s;
               OUTPUT_QUEUE := OUTPUT_QUEUE s;
               workers := if created then S (workers s) else workers s |} in
  (if created && detach_failed then 1 else 0, s').

Definition cuckoo_stop_processing (s : plugin) : Z * plugin :=
  (1, {| processing_finished := processing_finished s;
         internal_processing_finished := internal_processing_finished s;
         should_quit := true; is_working := is_working s;
         SINGLE_MODE := SINGLE_MODE s; INPUT_QUEUE := INPUT_QUEUE s;
         OUTPUT_QUEUE := OUTPUT_QUEUE s; workers := workers s |}).

Definition cuckoo_has_processing_stopped (s : plugin) : Z :=
  if processing_finished s && internal_processing_finished s then 1 else 0.

Definition cuckoo_reset_processing (s : plugin) : Z * plugin :=
  (1, {| processing_finished := processing_finished s;
         internal_processing_finished := internal_processing_finished s;
         should_quit := false; is_working := is_working s;
         SINGLE_MODE := true; INPUT_QUEUE := INPUT_QUEUE s;
         OUTPUT_QUEUE := OUTPUT_QUEUE s; workers := workers s |}).

(** The four outcomes of a push as the interface documents them: the code
    returned and the globals left, checked in this order. *)
Inductive push_spec (id : Z) (data : list Z) (data_length : Z) (nonce : list Z)
    (s : plugin) : Z -> plugin -> Prop :=
  | push_stopped :
      should_quit s = true ->
      push_spec id data data_length nonce s 4 s
  | push_too_long :
      should_quit s = false -> data_length > 2048 ->
      push_spec id data data_length nonce s 2 s
  | push_full :
      should_quit s = false -> data_length <= 2048 ->
      (length (INPUT_QUEUE s) >= 20)%nat ->
      push_spec id data data_length nonce s 1 s
  | push_ok s' item :
      should_quit s = false -> data_length <= 2048 ->
      (length (INPUT_QUEUE s) < 20)%nat ->
      qi_id item = id -> qi_nonce item = take 8 nonce ->
      qi_length item = data_length ->
      qi_data item = take (Z.to_nat data_length) data
                     ++ replicate (Z.to_nat (2048 - data_length)) 0 ->
      INPUT_QUEUE s' = INPUT_QUEUE s ++ [item] ->
      OUTPUT_QUEUE s' = OUTPUT_QUEUE s ->
      should_quit s' = should_quit s ->
      processing_finished s' = processing_finished s ->
      internal_processing_finished s' = internal_processing_finished s ->
      workers s' = workers s ->
      push_spec id data data_length nonce s 0 s'.

(** ** Concrete states used in the examples *)

(** A trimmer whose rename tables are the identity. *)
Definition example_trimmer : edgetrimmer :=
  {| sip_keys := {| k0 := 1; k1 := 2; k2 := 3; k3 := 4 |};
     renameu1 := fun _ _ i => i; renamev1 := fun _ _ i => i;
     renameu := fun _ _ i => i; renamev := fun _ _ i => i;
     tbuckets := fun _ _ => [];
     dev_uvnodes := replicate 84 0; dev_sol := replicate 42 0; uxymap0 := [] |}.

(** The cycle finder of the smallest build before its first edge: an empty
    table and two arrays of [MAXPATHLEN = 32] entries. *)
Definition example_start : fc_state :=
  {| ctx := {| trimmer := example_trimmer; buckets := fun _ _ => [];
               cuckoo := ∅; uvnodes := replicate 84 0; sols := []; found := [] |};
     us := replicate 32 0; vs := replicate 32 0 |}.

(** The state after the three edges [(0,1)], [(2,1)] and [(2,3)] of bucket
    (0,0); the edge [(0,3)] then closes a 4-cycle. *)
Definition example_three_edges : fc_state :=
  match foldlM (findcycles_edge (P := tiny_params) 0 0) example_start [0; 512; 513] with
  | Return s => s
  | _ => example_start
  end.

(** ** Vocabulary of the recovery *)

Section RecoveryVocabulary.
Context {P : BuildParams}.

(** The nonce [n] is the edge recorded in slot [j] of [uvn]: its two
    endpoints are the pair stored there. *)
Definition matches_slot (keys : siphash_keys) (uvn : list Z) (n j : Z) : Prop :=
  dipnode keys n 0 = node_at uvn (2 * j) /\ dipnode keys n 1 = node_at uvn (2 * j + 1).

#[export] Instance matches_slot_dec keys uvn n j : Decision (matches_slot keys uvn n j).
Proof. unfold matches_slot. apply _. Defined.

End RecoveryVocabulary.

(** ** A graph of the toy build with a 42-cycle *)

(** Keys under which the graph of the toy build has a cycle of 42 edges. *)
Definition toy_keys : siphash_keys := {| k0 := 2133; k1 := 1; k2 := 2; k3 := 3 |}.

(** The nonces of the edges of that cycle. *)
Definition toy_cycle : list Z :=
  [3; 14; 21; 65; 67; 68; 77; 85; 86; 95; 106; 118; 120; 165; 170; 176; 207; 208;
   209; 229; 239; 243; 254; 319; 325; 329; 361; 375; 385; 397; 412; 419; 445; 454;
   465; 466; 487; 489; 495; 497; 499; 502].

(** Rename tables that keep the [YZ] bits of a node as its name: the name
    [i] of row [y] stands for [(y << Z2BITS) | i] in the second table and
    for [(y << Z1BITS) | i] in the first. *)
Definition toy_renameu1 (x y i : Z) : Z := Z.lor (Z.shiftl y (Z2BITS (P := toy_params))) i.
Definition toy_renamev1 (y x i : Z) : Z := Z.lor (Z.shiftl y (Z2BITS (P := toy_params))) i.
Definition toy_renameu (x y i : Z) : Z := Z.lor (Z.shiftl y (Z1BITS (P := toy_params))) i.
Definition toy_renamev (y x i : Z) : Z := Z.lor (Z.shiftl y (Z1BITS (P := toy_params))) i.

(** The trimmed edge list that holds the edges of the cycle and nothing
    else: the word of an edge in bucket [(ux, vx)] packs the [YZ] bits of
    its two endpoints. *)
Definition toy_edges : list (Z * Z) := Eval vm_compute in
    map (fun n => (dipnode (P := toy_params) toy_keys n 0,
                   dipnode (P := toy_params) toy_keys n 1)) toy_cycle.

Definition toy_tbuckets (ux vx : Z) : list Z :=
  let yzbits := YZBITS (P := toy_params) in
  map (fun e => Z.lor (Z.shiftl (Z.land e.1 (Z.ones yzbits)) YZ2BITS)
                      (Z.land e.2 (Z.ones yzbits)))
      (filter (fun e => Z.shiftr e.1 yzbits = ux /\ Z.shiftr e.2 yzbits = vx) toy_edges).

(** The trimmer as a trimming of that graph leaves it, when it reports
    success. *)
Definition toy_trim (t : edgetrimmer) : Z * edgetrimmer :=
  (1, {| sip_keys := sip_keys t;
         renameu1 := toy_renameu1; renamev1 := toy_renamev1;
         renameu := toy_renameu; renamev := toy_renamev;
         tbuckets := toy_tbuckets;
         dev_uvnodes := dev_uvnodes t; dev_sol := dev_sol t; uxymap0 := uxymap0 t |}).

(** The context of a fresh solver, device memory cleared. *)
Definition toy_ctx : solver_ctx :=
  {| trimmer := {| sip_keys := {| k0 := 0; k1 := 0; k2 := 0; k3 := 0 |};
                   renameu1 := fun _ _ _ => 0; renamev1 := fun _ _ _ => 0;
                   renameu := fun _ _ _ => 0; renamev := fun _ _ _ => 0;
                   tbuckets := fun _ _ => [];
                   dev_uvnodes := replicate 84 0; dev_sol := replicate 42 0;
                   uxymap0 := replicate 2 0 |};
     buckets := fun _ _ => []; cuckoo := ∅; uvnodes := replicate 84 0;
     sols := []; found := [] |}.

(** Externals for the toy run: the header hashes to [toy_keys]; the proof
    check and the hash are parameters of the examples. *)
Definition toy_externals (v : list Z -> siphash_keys -> Z) : externals :=
  {| setheader := fun _ => toy_keys; verify := v; blake2b := fun _ => [] |}.

(** ** A trimmed edge list with a long path *)



Section LongPathRun.
#[local] Existing Instance toy_params.


End LongPathRun.

(** ** The worker *)


(** ** The run of the cycle finder on the toy graph *)

Section ToyRun.
#[local] Existing Instance toy_params.

(** The context and the two arrays when [solve] calls [findcycles]. *)
Definition toy_start : fc_state :=
  {| ctx := {| trimmer := snd (toy_trim (trimmer (setheadergrin (toy_externals (fun _ _ => 0))
                                                                [] toy_ctx)));
               buckets := toy_tbuckets; cuckoo := ∅; uvnodes := replicate 84 0;
               sols := []; found := [] |};
     us := replicate 128 0; vs := replicate 128 0 |}.

(** The edges in the order [findcycles] reads them, each with its
    bucket. *)
Definition toy_edge_order : list (Z * Z * Z) := edge_order toy_tbuckets.

(** The state before the last edge, which closes the cycle. *)
Definition toy_before_closing : fc_state :=
  match foldlM findcycles_step toy_start (take 41 toy_edge_order) with
  | Return st => st
  | _ => toy_start
  end.

Definition toy_closing_edge : Z * Z * Z :=
  default (0, 0, 0) (toy_edge_order !! 41%nat).

(** The two paths from the endpoints of the closing edge. *)
Definition toy_path_u : Z * list Z :=
  match path (cuckoo (ctx toy_before_closing))
             (edge_u0 toy_closing_edge.1.1 toy_closing_edge.2) (us toy_before_closing) with
  | Return r => r
  | _ => (0, [])
  end.

Definition toy_path_v : Z * list Z :=
  match path (cuckoo (ctx toy_before_closing))
             (edge_v0 toy_closing_edge.1.2 toy_closing_edge.2) (vs toy_before_closing) with
  | Return r => r
  | _ => (0, [])
  end.

(** The lengths left once the tails are trimmed. *)
Definition toy_trimmed : Z * Z :=
  let min := if toy_path_u.1 <? toy_path_v.1 then toy_path_u.1 else toy_path_v.1 in
  trim_tails (Z.to_nat min) toy_path_u.2 toy_path_v.2
             (toy_path_u.1 - min) (toy_path_v.1 - min).

(** The context [solution] is called on, and the one it returns. *)
Definition toy_reporting : solver_ctx := with_found (ctx toy_before_closing) 42.

Definition toy_reported : solver_ctx :=
  match solution toy_reporting toy_path_u.2 toy_trimmed.1 toy_path_v.2 toy_trimmed.2 with
  | Return c => c
  | _ => toy_reporting
  end.



(** The context [solve] returns on the toy graph. *)
Definition toy_solved : solver_ctx :=
  match solve toy_trim true (replicate 128 0) (replicate 128 0)
              (setheadergrin (toy_externals (fun _ _ => 0)) [] toy_ctx) with
  | Return (_, c) => c
  | _ => toy_ctx
  end.
End ToyRun.

(** * Further code of the miner *)

(** [read16]: the two bytes at [p64] as a [u16]. *)
Definition read16 (p : list Z) : Z := le_value (take 2 p).

(** ** The trimming round [trimedges3] *)

Section Trim3.
Context {P : BuildParams}.

(** [zb]: the bucket of partition [vx] read at step [ux], as the list of
    its [size/sizeof(u32)] words. *)
Definition trim3_bucket (TRIMONV : bool) (bk : Z -> Z -> list Z) (vx ux : Z) : list Z :=
  if TRIMONV then bk ux vx else bk vx ux.

(** The first loop over the buckets of partition [vx]: [degs.set( *readbg &
    YZ1MASK)] for every word. The threads' calls are taken bucket after
    bucket, each call of [set] as a whole. *)
Definition trim3_count (TRIMONV : bool) (bk : Z -> Z -> list Z) (vx : Z)
    (degs : list Z) : list Z :=
  foldl (fun degs ux =>
           foldl (fun degs e => TwiceSet.set degs (Z.land e YZ1MASK))
                 degs (trim3_bucket TRIMONV bk vx ux))
        degs (upto NX).

(** The word written back for [e]: the two [YZ1BITS]-bit halves
    exchanged, [(vyz << YZ1BITS) | (e >> YZ1BITS)]. *)
Definition trim3_word (e : Z) : Z :=
  Z.lor (u32 (Z.shiftl (Z.land e YZ1MASK) YZ1BITS)) (Z.shiftr e YZ1BITS).

(** One turn of the second loop on a bucket: [readbg] is at index [i],
    [bwrite] is the index written next. *)
Definition trim3_keep (degs : list Z) (st : list Z * Z) (i : Z) : list Z * Z :=
  let '(words, bwrite) := st in
  let e := default 0 (words !! Z.to_nat i) in
  if TwiceSet.test degs (Z.land e YZ1MASK) =? 0 then (words, bwrite)
  else (<[Z.to_nat bwrite := trim3_word e]> words, bwrite + 1).

(** The second loop on one bucket and [zb.setsize((u8* )bwrite)]: the
    words left in the bucket. *)
Definition trim3_compact (degs : list Z) (words : list Z) : list Z :=
  let '(words', bwrite) :=
    foldl (trim3_keep degs) (words, 0) (upto (Z.of_nat (length words))) in
  take (Z.to_nat bwrite) words'.

(** The kernel [trimedges3<TRIMONV>]: the bucket matrix it leaves. The
    partitions [vx < NY] touch disjoint buckets, each at the steps
    [ux < NX]; [degs0] is what the shared [degs] holds before [reset]. *)
Definition trimedges3 (TRIMONV : bool) (degs0 : list Z) (bk : Z -> Z -> list Z)
  : Z -> Z -> list Z :=
  fun a b =>
    let vx := if TRIMONV then b else a in
    let ux := if TRIMONV then a else b in
    if (0 <=? vx) && (vx <? NY) && (0 <=? ux) && (ux <? NX) then
      let degs := trim3_count TRIMONV bk vx (TwiceSet.reset NYZ1 degs0) in
      trim3_compact degs (bk a b)
    else bk a b.

(** The keys counted in partition [vx]: the low [YZ1BITS] bits of every
    word of its buckets. *)
Definition trim3_keys (TRIMONV : bool) (bk : Z -> Z -> list Z) (vx : Z) : list Z :=
  ux ← upto NX; (fun e => Z.land e YZ1MASK) <$> trim3_bucket TRIMONV bk vx ux.
End Trim3.

(** A bucket matrix of the smallest build for the examples: two words
    with the key 5 and one with the key 7 in bucket (0,0), one word with
    the key 9 in bucket (1,0). *)
Definition example_buckets (a b : Z) : list Z :=
  if (a =? 0) && (b =? 0) then [5; 2 ^ 15 + 5; 3 * 2 ^ 15 + 7]
  else if (a =? 1) && (b =? 0) then [9]
  else [].

(** ** Tables for the examples of the cycle finder *)

(** A path of three nodes, [0 -> 2 -> 4], and a table that holds the cycle
    [0 -> 2 -> 0]. *)
Definition example_chain : gmap Z Z := <[2 := 4]> (<[0 := 2]> ∅).

(** The cycle finder of the smallest build after the edges [(0,1)],
    [(2,3)] and [(4,3)]: two trees, [1 -> 0] and [4 -> 3 -> 2]. *)
Definition example_two_trees : fc_state :=
  match foldlM (findcycles_edge (P := tiny_params) 0 0) example_start [0; 513; 1025] with
  | Return s => s
  | _ => example_start
  end.

(** ** Vocabulary of the cycle finder *)

Section Joined.
Context {P : BuildParams}.

(** The table [ck'] is [ck] with the edge [(a0, b0)] added at the end of
    the path of [a0], which had [na + 1] nodes, the path of [b0] having
    [nb + 1]: [a0] points to [b0]; the old path of [a0] is reversed, so
    that each of its nodes leads to [a0]; no other entry has changed; and
    the path of [a0] is now [a0] followed by the old path of [b0]. *)
Definition joined (ck ck' : gmap Z Z) (a0 b0 : Z) (na nb : nat) : Prop :=
  cuckoo_at ck' a0 = b0 /\
  (forall i, (i < na)%nat -> cuckoo_at ck' (walk ck (S i) a0) = walk ck i a0) /\
  (forall i, (i <= na)%nat -> walk ck' i (walk ck i a0) = a0) /\
  (forall x, (forall i, (i <= na)%nat -> x <> walk ck i a0) ->
             cuckoo_at ck' x = cuckoo_at ck x) /\
  (forall j, (j <= nb)%nat -> walk ck' (S j) a0 = walk ck j b0) /\
  ends_after ck' (S (S nb)) a0.
End Joined.

(** ** [setheadernonce] *)

Section HeaderNonce.
Context {P : BuildParams}.

(** The byte offset of the word [((u32* )headernonce)[len/sizeof(u32)-1]]. *)
Definition nonce_offset (len : Z) : Z := 4 * (len / 4 - 1).

(** [solver_ctx::setheadernonce], for [len >= 4]: the four bytes of
    [htole32(nonce)] are stored in the last whole word of the first
    [len] bytes, [setheader] hashes these [len] bytes into the keys, and
    the solutions are cleared. The result is the caller's buffer and the
    context. *)
Definition setheadernonce (ext : externals) (headernonce : list Z) (len nonce : Z)
    (c : solver_ctx) : list Z * solver_ctx :=
  let h := list_inserts (Z.to_nat (nonce_offset len)) (le_bytes 4 (u32 nonce)) headernonce in
  (h, setheadergrin ext (take (Z.to_nat len) h) c).
End HeaderNonce.

(** ** Runs of the queue interface *)

(** The end of [cuckoo_process], once its loop has seen [should_quit]: the
    queues are cleared and [processing_finished] is set. *)
Definition cuckoo_process_exit (s : plugin) : plugin :=
  let s' := cuckoo_clear_queues s in
  {| processing_finished := true;
     internal_processing_finished := internal_processing_finished s';
     should_quit := should_quit s'; is_working := is_working s';
     SINGLE_MODE := SINGLE_MODE s'; INPUT_QUEUE := INPUT_QUEUE s';
     OUTPUT_QUEUE := OUTPUT_QUEUE s'; workers := workers s' |}.

(** A call of the interface by the host, or a step of the worker thread on
    the globals: a dequeue attempt of its loop, or its exit. The calls of
    one run are taken one after the other. *)
Inductive api_call :=
  | CallUnderLimit
  | CallPush (id : Z) (data : list Z) (data_length : Z) (nonce : list Z)
  | CallRead
  | CallClear
  | CallStart (created detach_failed : bool)
  | CallStop
  | CallHasStopped
  | CallReset
  | WorkerDequeue
  | WorkerExit.

(** The [int] a call returns ([cuckoo_clear_queues] is [void]: 0; for the
    worker's dequeue, whether an item was found; 0 for its exit). *)
Definition call_result (s : plugin) (c : api_call) : Z :=
  match c with
  | CallUnderLimit => cuckoo_is_queue_under_limit s
  | CallPush id data data_length nonce =>
      fst (cuckoo_push_to_input_queue id data data_length nonce s)
  | CallRead => fst (fst (cuckoo_read_from_output_queue s))
  | CallClear => 0
  | CallStart created detach_failed => fst (cuckoo_start_processing created detach_failed s)
  | CallStop => fst (cuckoo_stop_processing s)
  | CallHasStopped => cuckoo_has_processing_stopped s
  | CallReset => fst (cuckoo_reset_processing s)
  | WorkerDequeue =>
      match fst (try_dequeue (INPUT_QUEUE s)) with Some _ => 1 | None => 0 end
  | WorkerExit => 0
  end.

(** The globals a call leaves. *)
Definition run_call (s : plugin) (c : api_call) : plugin :=
  match c with
  | CallUnderLimit => s
  | CallPush id data data_length nonce =>
      snd (cuckoo_push_to_input_queue id data data_length nonce s)
  | CallRead => snd (cuckoo_read_from_output_queue s)
  | CallClear => cuckoo_clear_queues s
  | CallStart created detach_failed => snd (cuckoo_start_processing created detach_failed s)
  | CallStop => snd (cuckoo_stop_processing s)
  | CallHasStopped => s
  | CallReset => snd (cuckoo_reset_processing s)
  | WorkerDequeue => with_input s (snd (try_dequeue (INPUT_QUEUE s)))
  | WorkerExit => cuckoo_process_exit s
  end.

(** The results of a run of calls, in order, and the globals it leaves. *)
Fixpoint run_calls (s : plugin) (cs : list api_call) : list Z * plugin :=
  match cs with
  | [] => ([], s)
  | c :: rest =>
      let '(rs, s') := run_calls (run_call s c) rest in
      (call_result s c :: rs, s')
  end.


(** A step of the worker thread, as opposed to a call of the interface. *)
Definition by_worker (c : api_call) : bool :=
  match c with
  | WorkerDequeue | WorkerExit => true
  | _ => false
  end.

(** A call that makes a worker thread. *)
Definition makes_worker (c : api_call) : bool :=
  match c with
  | CallStart true _ => true
  | _ => false
  end.

(** A request to push, as the four arguments of the call. *)
Definition push_request : Type := Z * list Z * Z * list Z.

Definition push_call (r : push_request) : api_call :=
  CallPush r.1.1.1 r.1.1.2 r.1.2 r.2.

Definition request_item (r : push_request) : QueueInput :=
  make_input r.1.1.1 r.1.1.2 r.1.2 r.2.

(** ** Plugin properties *)

Module PluginProperties.
Definition MAX_NUM_PROPERTIES : Z := 32.
Definition PROPERTY_RETURN_OK : Z := 0.
Definition PROPERTY_RETURN_BUFFER_TOO_SMALL : Z := 3.

(** [struct PLUGIN_PROPERTY]; the two [char] arrays as the character
    codes they hold. *)
Record PLUGIN_PROPERTY := {
  name : list Z;
  description : list Z;
  default_value : Z;
  min_value : Z;
  max_value : Z;
  is_per_device : bool
}.

(** [PROPS] is given by its first [allocated_properties] entries. *)
Definition add_plugin_property (new_property : PLUGIN_PROPERTY)
    (PROPS : list PLUGIN_PROPERTY) : list PLUGIN_PROPERTY :=
  if MAX_NUM_PROPERTIES - 1 <? Z.of_nat (length PROPS) then PROPS
  else PROPS ++ [new_property].

(** A value of type [int]. *)
Definition int (x : Z) : Z := (x + 2 ^ 31) mod 2 ^ 32 - 2 ^ 31.

Definition codes (s : string) : list Z :=
  (fun a => Z.of_N (Ascii.N_of_ascii a)) <$> list_ascii_of_string s.

(** The characters of a [char] array up to its first NUL, as [%s]
    prints them. *)
Fixpoint c_str (a : list Z) : list Z :=
  match a with
  | [] => []
  | c :: r => if c =? 0 then [] else c :: c_str r
  end.

Fixpoint digits (fuel : nat) (n : Z) (acc : list Z) : list Z :=
  match fuel with
  | O => acc
  | S f =>
      let acc' := (48 + n mod 10) :: acc in
      if n / 10 =? 0 then acc' else digits f (n / 10) acc'
  end.

(** [%d] of a [u32] argument: the value read as an [int], in decimal. *)
Definition decimal (v : Z) : list Z :=
  let n := int v in
  if n <? 0 then 45 :: digits 10 (- n) [] else digits 10 n [].

(** The text [snprintf] makes of [property_json] for one property; 34 is
    the double quote. *)
Definition property_json (p : PLUGIN_PROPERTY) : list Z :=
  codes "{" ++ [34] ++ codes "name" ++ [34] ++ codes ":" ++ [34]
  ++ c_str (name p) ++ [34] ++ codes "," ++ [34] ++ codes "description" ++ [34]
  ++ codes ":" ++ [34] ++ c_str (description p) ++ [34] ++ codes "," ++ [34]
  ++ codes "default_value" ++ [34] ++ codes ":" ++ decimal (default_value p)
  ++ codes "," ++ [34] ++ codes "min_value" ++ [34] ++ codes ":"
  ++ decimal (min_value p) ++ codes "," ++ [34] ++ codes "max_value" ++ [34]
  ++ codes ":" ++ decimal (max_value p) ++ codes "}".

(** [snprintf(prop_string + pos, size, ...)] for the text [text]: when
    [size] is not 0, at most [size - 1] characters of the text and a NUL
    are stored; the length of the whole text is returned. [mem] is the
    memory from [prop_string] on, [size] the [int] converted to
    [size_t]. *)
Definition snprintf (mem : list Z) (pos size : Z) (text : list Z) : Z * list Z :=
  let size := size mod 2 ^ 64 in
  (int (Z.of_nat (length text)),
   if size =? 0 then mem
   else list_inserts (Z.to_nat pos) (take (Z.to_nat (size - 1)) text ++ [0]) mem).

Record json_state := {
  prop_string : list Z;
  remaining : Z;
  last_write_pos : Z
}.

(** The loop over [PROPS]: [false] is the return inside the loop. The
    comma is written when another property follows. *)
Fixpoint json_loop (props : list PLUGIN_PROPERTY) (st : json_state)
  : bool * json_state :=
  match props with
  | [] => (true, st)
  | p :: rest =>
      let '(last_written, mem) :=
        snprintf (prop_string st) (last_write_pos st) (remaining st) (property_json p) in
      let remaining := int (remaining st - last_written) in
      let last_write_pos := int (last_write_pos st + last_written) in
      if remaining <? 2 then
        (false, {| prop_string := mem; remaining := remaining;
                   last_write_pos := last_write_pos |})
      else
        match rest with
        | [] => (true, {| prop_string := mem; remaining := remaining;
                          last_write_pos := last_write_pos |})
        | _ :: _ =>
            json_loop rest
              {| prop_string := <[Z.to_nat last_write_pos := 44]> mem;
                 remaining := remaining;
                 last_write_pos := int (last_write_pos + 1) |}
        end
  end.

(** [get_properties_as_json(prop_string, length)] with [len] for
    [*length]: the code returned, the memory from [prop_string] on and
    [*length] afterwards. 91, 93 and 44 are the brackets and the comma. *)
Definition get_properties_as_json (PROPS : list PLUGIN_PROPERTY)
    (mem : list Z) (len : Z) : Z * list Z * Z :=
  let remaining := len in
  if remaining <=? 3 then (PROPERTY_RETURN_BUFFER_TOO_SMALL, mem, len)
  else
    let '(ok, st) :=
      json_loop PROPS {| prop_string := <[0%nat := 91]> mem; remaining := remaining;
                         last_write_pos := 1 |} in
    if negb ok then (PROPERTY_RETURN_BUFFER_TOO_SMALL, prop_string st, len)
    else if PluginProperties.remaining st <? 2 then
      (PROPERTY_RETURN_BUFFER_TOO_SMALL, prop_string st, len)
    else
      let mem := <[Z.to_nat (last_write_pos st + 1) := 0]>
                   (<[Z.to_nat (last_write_pos st) := 93]> (prop_string st)) in
      let len := int (last_write_pos st + 1) in
      (PROPERTY_RETURN_OK, mem, if len =? 3 then 2 else len).

(** The texts of the properties with commas between them. *)
Fixpoint joined_json (props : list PLUGIN_PROPERTY) : list Z :=
  match props with
  | [] => []
  | [p] => property_json p
  | p :: rest => property_json p ++ 44 :: joined_json rest
  end.

(** The JSON array of the properties. *)
Definition json_text (props : list PLUGIN_PROPERTY) : list Z :=
  91 :: joined_json props ++ [93].

(** The number of characters of the texts of the properties. *)
Definition json_chars (props : list PLUGIN_PROPERTY) : Z :=
  foldr (fun p n => Z.of_nat (length (property_json p)) + n) 0 props.

Definition example_property (n : Z) : PLUGIN_PROPERTY :=
  {| name := codes "NUM_TRIMS" ++ [0]; description := codes "rounds" ++ [0; 120];
     default_value := n; min_value := 4294967295; max_value := 0;
     is_per_device := false |}.
End PluginProperties.

(** * Paths in the cuckoo table *)

Lemma small_of_bits (x n : Z) :
  0 <= n -> 0 <= x -> (forall k, n <= k -> Z.testbit x k = false) -> 0 <= x < 2 ^ n.
Proof.
  intros Hn Hx Hbits. assert (x = x mod 2 ^ n) as ->.
  { apply Z.bits_inj'. intros k Hk. rewrite Z.testbit_mod_pow2 by done.
    destruct (Z.ltb_spec k n); [done|]. by rewrite Hbits. }
  apply Z.mod_pos_bound. by apply Z.pow_pos_nonneg.
Qed.

Lemma testbit_above (x n k : Z) : 0 <= x < 2 ^ n -> n <= k -> Z.testbit x k = false.
Proof.
  intros Hx Hk. destruct (Z.ltb_spec n 0).
  - rewrite Z.pow_neg_r in Hx by done. lia.
  - rewrite <- (Z.mod_small x (2 ^ n)) by done. apply Z.mod_pow2_bits_high. lia.
Qed.

Lemma lor_small (a b n : Z) :
  0 <= n -> 0 <= a < 2 ^ n -> 0 <= b < 2 ^ n -> 0 <= Z.lor a b < 2 ^ n.
Proof.
  intros Hn Ha Hb. apply small_of_bits; [done|apply Z.lor_nonneg; lia|].
  intros k Hk. by rewrite Z.lor_spec, !(testbit_above _ n).
Qed.

Lemma u32_small (x : Z) : 0 <= x < 2 ^ 32 -> u32 x = x.
Proof. apply Z.mod_small. Qed.

Section PathFacts.
Context {P : BuildParams}.

Lemma walk_add (ck : gmap Z Z) (i j : nat) (u : Z) :
  walk ck (i + j) u = walk ck j (walk ck i u).
Proof. revert u. induction i as [|i IH]; intros u; cbn; [done|apply IH]. Qed.

Lemma walk_S (ck : gmap Z Z) (k : nat) (u : Z) :
  walk ck (S k) u = cuckoo_at ck (walk ck k u).
Proof. replace (S k) with (k + 1)%nat by lia. by rewrite walk_add. Qed.

Lemma ends_after_unique (ck : gmap Z Z) (a b : nat) (u : Z) :
  ends_after ck a u -> ends_after ck b u -> a = b.
Proof.
  intros [Ha Ha'] [Hb Hb'].
  destruct (Nat.lt_trichotomy a b) as [Hlt|[->|Hlt]]; [|done|].
  - by destruct (Hb' a Hlt).
  - by destruct (Ha' b Hlt).
Qed.

Lemma ends_after_walk (ck : gmap Z Z) (k i : nat) (u : Z) :
  (i <= k)%nat -> ends_after ck k u -> ends_after ck (k - i) (walk ck i u).
Proof.
  intros Hi [Hk Hk']. split.
  - rewrite <- walk_add. by replace (i + (k - i))%nat with k by lia.
  - intros j Hj. rewrite <- walk_add. apply Hk'. lia.
Qed.

Lemma MAXPATHLEN_range : 0 <= EDGEBITS <= 31 -> 16 <= MAXPATHLEN <= 16384.
Proof.
  intros HE. unfold MAXPATHLEN, NODEBITS. rewrite Z.shiftl_mul_pow2.
  - assert (1 <= (EDGEBITS + 1 + 2) / 3 <= 11) as Hq by (Z.div_mod_to_equations; lia).
    assert (2 ^ 1 <= 2 ^ ((EDGEBITS + 1 + 2) / 3)) by (apply Z.pow_le_mono_r; lia).
    assert (2 ^ ((EDGEBITS + 1 + 2) / 3) <= 2 ^ 11) by (apply Z.pow_le_mono_r; lia).
    lia.
  - apply Z.div_pos; lia.
Qed.

(** What the loop of [path] has done when it returns: it walked [k]
    nodes, wrote them from index [nu] on, left the entries below [nu]
    alone, and returns the index of the last node written. *)
Lemma path_loop_return (ck : gmap Z Z) (u0 : Z) (room : nat) :
  forall (u nu : Z) (us : list Z) (r : Z) (us' : list Z),
  0 <= nu -> (Z.to_nat nu + room <= length us)%nat ->
  path_loop room ck u0 u nu us = Return (r, us') ->
  exists k : nat,
    (k <= room)%nat /\ r = u32 (nu + Z.of_nat k - 1) /\ ends_after ck k u /\
    (forall j, (j < k)%nat -> us' !! (Z.to_nat nu + j)%nat = Some (walk ck j u)) /\
    (forall i, (i < Z.to_nat nu)%nat -> us' !! i = us !! i) /\
    (forall i, (Z.to_nat nu + k <= i)%nat -> us' !! i = us !! i) /\
    length us' = length us.
Proof.
  induction room as [|room IH]; intros u nu us r us' Hnu Hlen Hret; cbn [path_loop] in Hret.
  - destruct (Z.eqb_spec u CUCKOO_NIL) as [->|Hne]; [|discriminate].
    injection Hret as <- <-. exists 0%nat.
    repeat split; try done; try lia; try (f_equal; lia); try (intros j Hj; lia).
  - destruct (Z.eqb_spec u CUCKOO_NIL) as [->|Hne].
    + injection Hret as <- <-. exists 0%nat.
      repeat split; try done; try lia; try (f_equal; lia); try (intros j Hj; lia).
    + apply IH in Hret; [|lia|rewrite length_insert; lia].
      destruct Hret as (k & Hk & Hr & [Hend Hbefore] & Hnodes & Hlow & Hhigh & Hl).
      exists (S k). rewrite length_insert in Hl.
      repeat split; try done; try lia.
      * rewrite Hr. f_equal. lia.
      * intros [|j] Hj; cbn [walk]; [done|]. apply Hbefore. lia.
      * intros [|j] Hj; cbn [walk].
        -- rewrite Nat.add_0_r, Hlow by lia. apply list_lookup_insert_eq. lia.
        -- rewrite <- (Hnodes j) by lia. f_equal. lia.
      * intros i Hi. rewrite Hlow by lia. apply list_lookup_insert_ne. lia.
      * intros i Hi. rewrite Hhigh by lia. apply list_lookup_insert_ne. lia.
Qed.

(** [path] returns for a node [u] that is not nil: the index [nu] of the
    last node, the nodes of the path in [us[0..nu]]. *)
Lemma path_return (ck : gmap Z Z) (u : Z) (us : list Z) (nu : Z) (us' : list Z) :
  0 <= EDGEBITS <= 31 ->
  length us = Z.to_nat MAXPATHLEN ->
  u <> CUCKOO_NIL ->
  path ck u us = Return (nu, us') ->
  0 <= nu < MAXPATHLEN /\
  ends_after ck (S (Z.to_nat nu)) u /\
  (forall j, (j <= Z.to_nat nu)%nat -> us' !! j = Some (walk ck j u)) /\
  (forall j, 0 <= j <= nu -> node_at us' j = walk ck (Z.to_nat j) u) /\
  (forall i, nu < i -> us' !! Z.to_nat i = us !! Z.to_nat i) /\
  length us' = length us.
Proof.
  intros HE Hlen Hu Hret. pose proof (MAXPATHLEN_range HE) as HM.
  unfold path in Hret. apply path_loop_return in Hret; [|lia|lia].
  destruct Hret as (k & Hk & Hr & Hend & Hnodes & _ & Hhigh & Hl).
  destruct k as [|k]; [by destruct Hend as [Hend _]|].
  assert (nu = Z.of_nat k) as ->.
  { rewrite Hr. rewrite u32_small; lia. }
  rewrite Nat2Z.id. repeat split; try done; try lia; try apply Hend.
  - intros j Hj. specialize (Hnodes j ltac:(lia)).
    by replace (Z.to_nat 0 + j)%nat with j in Hnodes by lia.
  - intros j Hj. unfold node_at.
    specialize (Hnodes (Z.to_nat j) ltac:(lia)).
    replace (Z.to_nat 0 + Z.to_nat j)%nat with (Z.to_nat j) in Hnodes by lia.
    by rewrite Hnodes.
  - intros i Hi. apply Hhigh. lia.
Qed.



End PathFacts.

(** A call that returns, returns what a [match] on it extracts. *)
Lemma outcome_returned {A} (o : outcome A) (a0 : A) :
  match o with Return _ => true | _ => false end = true ->
  o = Return (match o with Return a => a | _ => a0 end).
Proof. by destruct o. Qed.

Lemma outcome_returned_pair {A B} (o : outcome (A * B)) (a : A) (b0 : B)
    (same : A -> A -> bool) :
  (forall x y, same x y = true -> x = y) ->
  match o with Return (x, _) => same x a | _ => false end = true ->
  o = Return (a, match o with Return (_, b) => b | _ => b0 end).
Proof. intros Hsame. destruct o as [[x b]| |]; try done. by intros ->%Hsame. Qed.

(** * The edge function *)

(** ** The [uint2] path computes on 64-bit words *)

Lemma testbit_small (x k : Z) : 0 <= x < 2 ^ 32 -> 32 <= k -> Z.testbit x k = false.
Proof.
  intros Hx Hk. rewrite <- (Z.mod_small x (2 ^ 32)) by done.
  apply Z.mod_pow2_bits_high. lia.
Qed.

Lemma testbit_devectorize (a : uint2) (k : Z) :
  uint2_wf a ->
  Z.testbit (devectorize a) k
  = if k <? 32 then Z.testbit (x_ a) k else Z.testbit (y_ a) (k - 32).
Proof.
  intros [Hx Hy]. unfold devectorize.
  destruct (Z.ltb_spec k 0) as [Hneg|Hk].
  { rewrite !Z.testbit_neg_r by lia. by destruct (k <? 32). }
  rewrite Z.lor_spec, Z.shiftl_spec by done.
  destruct (Z.ltb_spec k 32).
  - rewrite (Z.testbit_neg_r (y_ a)) by lia. apply orb_false_r.
  - by rewrite testbit_small.
Qed.

Lemma devectorize_sum (a : uint2) :
  uint2_wf a -> devectorize a = x_ a + 2 ^ 32 * y_ a.
Proof.
  intros [Hx Hy]. unfold devectorize.
  rewrite <- Z.lxor_lor, <- Z.add_nocarry_lxor, Z.shiftl_mul_pow2; try lia.
  all: apply Z.bits_inj'; intros k Hk; rewrite Z.land_spec, Z.shiftl_spec, Z.bits_0 by done;
    destruct (Z.ltb_spec k 32);
    [rewrite (Z.testbit_neg_r (y_ a)) by lia; apply andb_false_r
    |by rewrite testbit_small].
Qed.

Lemma devectorize_range (a : uint2) : uint2_wf a -> 0 <= devectorize a < 2 ^ 64.
Proof. intros Hwf. rewrite devectorize_sum by done. destruct Hwf. lia. Qed.

Lemma u32_range (x : Z) : 0 <= u32 x < 2 ^ 32.
Proof. apply Z.mod_pos_bound. lia. Qed.

Lemma rep_vectorize (x : Z) : 0 <= x < 2 ^ 64 -> rep (vectorize x) x.
Proof.
  intros Hx. split; [split; apply u32_range|].
  rewrite devectorize_sum by (split; apply u32_range).
  unfold vectorize, u32. cbn [x_ y_]. rewrite Z.shiftr_div_pow2 by lia.
  rewrite (Z.mod_small (x / 2 ^ 32)).
  - rewrite (Z.div_mod x (2 ^ 32)) at 3 by lia. lia.
  - split; [apply Z.div_pos; lia|]. apply Z.div_lt_upper_bound; lia.
Qed.

Lemma lxor_small (a b : Z) :
  0 <= a < 2 ^ 32 -> 0 <= b < 2 ^ 32 -> 0 <= Z.lxor a b < 2 ^ 32.
Proof.
  intros Ha Hb. apply small_of_bits; [lia|apply Z.lxor_nonneg; lia|].
  intros k Hk. by rewrite Z.lxor_spec, !testbit_small.
Qed.

Lemma rep_xor (a b : uint2) (x y : Z) :
  rep a x -> rep b y -> rep (uint2_xor a b) (Z.lxor x y).
Proof.
  intros [Ha <-] [Hb <-].
  assert (uint2_wf (uint2_xor a b)) as Hwf.
  { destruct Ha, Hb. split; by apply lxor_small. }
  split; [done|]. apply Z.bits_inj'. intros k Hk.
  rewrite Z.lxor_spec, !testbit_devectorize by done. cbn [uint2_xor x_ y_].
  destruct (k <? 32); by rewrite Z.lxor_spec.
Qed.

Lemma rep_add (a b : uint2) (x y : Z) :
  rep a x -> rep b y -> rep (uint2_add a b) (u64 (x + y)).
Proof.
  intros [Ha <-] [Hb <-].
  assert (uint2_wf (uint2_add a b)) as Hwf by (split; apply u32_range).
  split; [done|]. rewrite !devectorize_sum by done.
  unfold uint2_add, u32, u64. cbn [x_ y_].
  change (2 ^ 64) with (2 ^ 32 * 2 ^ 32). rewrite Z.rem_mul_r by lia.
  replace (x_ a + 2 ^ 32 * y_ a + (x_ b + 2 ^ 32 * y_ b))
    with (x_ a + x_ b + (y_ a + y_ b) * 2 ^ 32) by lia.
  rewrite Z.mod_add, Z.div_add by lia.
  do 3 f_equal. lia.
Qed.

Lemma testbit_shf_l_wrap (a b c k : Z) :
  0 <= c < 32 -> 0 <= k ->
  Z.testbit (shf_l_wrap a b c) k
  = (k <? 32) && (Z.testbit b (k - c) || Z.testbit a (k + (32 - c))).
Proof.
  intros Hc Hk. unfold shf_l_wrap, u32.
  assert (Z.land c 31 = c) as ->.
  { change 31 with (Z.ones 5). rewrite Z.land_ones by lia. apply Z.mod_small.
    change (2 ^ 5) with 32. lia. }
  by rewrite Z.testbit_mod_pow2, Z.lor_spec, Z.shiftl_spec, Z.shiftr_spec by lia.
Qed.

Lemma testbit_ROTL (x b k : Z) :
  0 <= b <= 64 -> 0 <= k ->
  Z.testbit (ROTL x b) k
  = (k <? 64) && (Z.testbit x (k - b) || Z.testbit x (k + (64 - b))).
Proof.
  intros Hb Hk. unfold ROTL, u64.
  by rewrite Z.testbit_mod_pow2, Z.lor_spec, Z.shiftl_spec, Z.shiftr_spec by lia.
Qed.

(** Every bit of a half outside [0, 32) is clear. *)
Ltac clear_outer_bits :=
  repeat match goal with
         | |- context [Z.testbit ?w ?k] =>
             first [ rewrite (Z.testbit_neg_r w k) by lia
                   | rewrite (testbit_small w k) by (assumption || lia) ]
         end.

(** The funnel-shifter [ROTL] is the rotation of the 64-bit word, for an
    offset below 32 and for the offset 32. *)
Lemma rep_rotl_low (a : uint2) (x c : Z) :
  0 < c < 32 -> rep a x -> rep (ROTL2 a c) (ROTL x c).
Proof.
  intros Hc [Ha <-].
  assert (uint2_wf (ROTL2 a c)) as Hwf.
  { unfold ROTL2. destruct (32 <=? c); split; apply u32_range. }
  split; [done|]. apply Z.bits_inj'. intros k Hk.
  rewrite testbit_devectorize, testbit_ROTL, !testbit_devectorize by (done || lia).
  unfold ROTL2. destruct (Z.leb_spec 32 c) as [?|_]; [lia|]. cbn [x_ y_].
  destruct Ha as [Hx Hy].
  destruct (Z.ltb_spec k 32), (Z.ltb_spec k 64),
    (Z.ltb_spec (k - c) 32), (Z.ltb_spec (k + (64 - c)) 32); try lia;
    rewrite !testbit_shf_l_wrap by lia;
    repeat match goal with
           | |- context [?i <? ?j] => destruct (Z.ltb_spec i j); try lia
           end;
    cbn [andb]; clear_outer_bits; rewrite ?orb_false_r, ?orb_false_l;
    try done; try (f_equal; lia); try (f_equal; f_equal; lia).
Qed.

Lemma rep_rotl_32 (a : uint2) (x : Z) : rep a x -> rep (ROTL2 a 32) (ROTL x 32).
Proof.
  intros [Ha <-].
  assert (uint2_wf (ROTL2 a 32)) as Hwf by (split; apply u32_range).
  split; [done|]. apply Z.bits_inj'. intros k Hk.
  rewrite testbit_devectorize, testbit_ROTL, !testbit_devectorize by (done || lia).
  unfold ROTL2. cbn [Z.leb Z.compare Pos.compare Pos.compare_cont x_ y_].
  unfold shf_l_wrap, u32. change (Z.land 32 31) with 0.
  destruct Ha as [Hx Hy].
  destruct (Z.ltb_spec k 32), (Z.ltb_spec k 64),
    (Z.ltb_spec (k + (64 - 32)) 32); try lia;
    rewrite !Z.testbit_mod_pow2, !Z.lor_spec, !Z.shiftl_spec, !Z.shiftr_spec by lia;
    repeat match goal with
           | |- context [?i <? ?j] => destruct (Z.ltb_spec i j); try lia
           end;
    cbn [andb]; clear_outer_bits; rewrite ?orb_false_r, ?orb_false_l;
    try done; try (f_equal; lia); try (f_equal; f_equal; lia).
Qed.

Lemma rep4_SIPROUND (s : sipstate uint2) (t : sipstate Z) :
  rep4 s t -> rep4 (SIPROUND s) (SIPROUND t).
Proof.
  destruct s as [a0 a1 a2 a3], t as [z0 z1 z2 z3].
  intros (H0 & H1 & H2 & H3). cbn [v0 v1 v2 v3] in *.
  unfold SIPROUND, rep4. cbn [wadd wxor wrotl SipWord_u64 SipWord_uint2 v0 v1 v2 v3].
  split; [|split; [|split]];
    repeat first [ assumption
                 | apply rep_xor
                 | apply rep_add
                 | apply rep_rotl_32
                 | apply rep_rotl_low; [lia|] ].
Qed.

Section EdgeFacts.
Context {P : BuildParams}.

Lemma nonce_in_range (i s : Z) :
  0 <= EDGEBITS <= 31 -> 0 <= i < 2 ^ EDGEBITS -> 0 <= s <= 1 ->
  u32 (2 * i + s) = 2 * i + s.
Proof.
  intros HE Hi Hs. unfold u32. apply Z.mod_small.
  assert (2 ^ EDGEBITS <= 2 ^ 31) by (apply Z.pow_le_mono_r; lia). lia.
Qed.

Lemma rep4_init (keys : siphash_keys) (m : Z) :
  keys_ok keys -> 0 <= m < 2 ^ 64 ->
  rep4 (SipState (vectorize (k0 keys)) (vectorize (k1 keys)) (vectorize (k2 keys))
                 (uint2_xor (vectorize (k3 keys)) (vectorize m)))
       (SipState (k0 keys) (k1 keys) (k2 keys) (Z.lxor (k3 keys) m)).
Proof.
  intros (H0 & H1 & H2 & H3) Hm. unfold rep4. cbn [v0 v1 v2 v3].
  split; [by apply rep_vectorize|]. split; [by apply rep_vectorize|].
  split; [by apply rep_vectorize|]. apply rep_xor; by apply rep_vectorize.
Qed.

Lemma rep4_middle (s : sipstate uint2) (t : sipstate Z) (m : Z) :
  rep4 s t -> 0 <= m < 2 ^ 64 ->
  rep4 (SipState (uint2_xor (v0 s) (vectorize m)) (v1 s)
                 (uint2_xor (v2 s) (vectorize 255)) (v3 s))
       (SipState (Z.lxor (v0 t) m) (v1 t) (Z.lxor (v2 t) 255) (v3 t)).
Proof.
  intros (R0 & R1 & R2 & R3) Hm. unfold rep4. cbn [v0 v1 v2 v3].
  split; [apply rep_xor; [done|by apply rep_vectorize]|]. split; [done|].
  split; [|done]. apply rep_xor; [done|]. apply rep_vectorize. lia.
Qed.

Lemma rep4_finish (s : sipstate uint2) (t : sipstate Z) :
  rep4 s t ->
  devectorize (uint2_xor (uint2_xor (uint2_xor (v0 s) (v1 s)) (v2 s)) (v3 s))
  = Z.lxor (Z.lxor (Z.lxor (v0 t) (v1 t)) (v2 t)) (v3 t).
Proof.
  intros (R0 & R1 & R2 & R3).
  by destruct (rep_xor _ _ _ _ (rep_xor _ _ _ _ (rep_xor _ _ _ _ R0 R1) R2) R3).
Qed.

(** The path compiled for [__CUDA_ARCH__ >= 320] is SipHash-2-4 of
    [2*i + s] under [k0..k3], masked to the low [E] bits. *)
Lemma dipnode_vec_siphash (keys : siphash_keys) (i s : Z) :
  keys_ok keys -> 0 <= EDGEBITS <= 31 -> 0 <= i < 2 ^ EDGEBITS -> 0 <= s <= 1 ->
  dipnode_vec keys i s = edge_spec keys i s.
Proof.
  intros Hk HE Hi Hs.
  assert (0 <= 2 * i + s < 2 ^ 64) as Hm.
  { assert (2 ^ EDGEBITS <= 2 ^ 31) by (apply Z.pow_le_mono_r; lia). lia. }
  unfold dipnode_vec, edge_spec, siphash24_spec.
  rewrite nonce_in_range by done. cbv zeta.
  f_equal. apply rep4_finish.
  do 4 apply rep4_SIPROUND. apply rep4_middle; [|done].
  do 2 apply rep4_SIPROUND. by apply rep4_init.
Qed.

(** The scalar path is SipHash-2-4 under [(k0, k0, k2, k3)]: [k1] is not
    read. *)
Lemma dipnode_scalar_siphash (keys : siphash_keys) (i s : Z) :
  0 <= EDGEBITS <= 31 -> 0 <= i < 2 ^ EDGEBITS -> 0 <= s <= 1 ->
  dipnode_scalar keys i s
  = edge_spec {| k0 := k0 keys; k1 := k0 keys; k2 := k2 keys; k3 := k3 keys |} i s.
Proof.
  intros HE Hi Hs. unfold dipnode_scalar, edge_spec, siphash24_spec.
  rewrite nonce_in_range by done. cbn [k0 k1 k2 k3]. reflexivity.
Qed.

Lemma dipnode_scalar_ignores_k1 (a b c d d' i s : Z) :
  dipnode_scalar {| k0 := a; k1 := d; k2 := b; k3 := c |} i s
  = dipnode_scalar {| k0 := a; k1 := d'; k2 := b; k3 := c |} i s.
Proof. unfold dipnode_scalar. cbn [k0 k1 k2 k3]. reflexivity. Qed.
End EdgeFacts.

(** C1, at the keys [(0, 1, 0, 0)] and the nonce 0, side 0: the scalar path
    of [dipnode] starts from [v1 = k0] and gives 7396000, while SipHash-2-4
    of the message 0 under the four keys, masked to 29 bits, is 148868989,
    which is what the [uint2] path gives. *)
Theorem dipnode_scalar_diverges :
  let keys := {| k0 := 0; k1 := 1; k2 := 0; k3 := 0 |} in
  dipnode (P := scalar_params) keys 0 0 = 7396000
  /\ edge_spec (P := scalar_params) keys 0 0 = 148868989
  /\ dipnode (P := default_params) keys 0 0 = 148868989
  /\ dipnode (P := scalar_params) keys 0 0 <> edge_spec (P := scalar_params) keys 0 0.
Proof. vm_compute. repeat split; congruence. Qed.

(** * The cycle finder: an edge that closes a cycle *)

Section ClosingEdge.
Context {P : BuildParams}.

(** The U endpoint is even, so it is never [CUCKOO_NIL]. *)
Lemma edge_u0_not_nil (ux e : Z) : edge_u0 ux e <> CUCKOO_NIL.
Proof.
  unfold edge_u0, CUCKOO_NIL, u32. rewrite Z.shiftl_mul_pow2 by lia.
  set (x := Z.lor _ _). change (2 ^ 32) with (2 * 2 ^ 31).
  rewrite (Z.mul_comm x), Z.mul_mod_distr_l by lia. lia.
Qed.

Lemma NX_bound : 0 <= XBITS <= 9 -> 0 < NX <= 2 ^ 9.
Proof.
  intros HX. unfold NX. rewrite Z.shiftl_1_l.
  split; [apply Z.pow_pos_nonneg; lia|apply Z.pow_le_mono_r; lia].
Qed.

(** The V endpoint is below [2^19]. *)
Lemma edge_v0_small (vx e : Z) :
  0 <= XBITS <= 9 -> 0 <= vx < NX -> 0 <= edge_v0 vx e < 2 ^ 19.
Proof.
  intros HX Hvx. pose proof (NX_bound HX) as HNX. unfold edge_v0.
  assert (0 <= Z.shiftl vx YZ2BITS < 2 ^ 18) as Hs.
  { unfold YZ2BITS. rewrite Z.shiftl_mul_pow2 by lia. lia. }
  rewrite (u32_small (Z.shiftl vx YZ2BITS)) by lia.
  assert (0 <= Z.land e YZ2MASK < 2 ^ 18) as Hl.
  { change YZ2MASK with (Z.ones 9). rewrite Z.land_ones by lia.
    pose proof (Z.mod_pos_bound e (2 ^ 9) ltac:(lia)). lia. }
  pose proof (lor_small _ _ 18 ltac:(lia) Hs Hl) as Hv.
  set (v := Z.lor (Z.shiftl vx YZ2BITS) (Z.land e YZ2MASK)) in *.
  assert (0 <= Z.shiftl v 1 < 2 ^ 19) as Hv2.
  { rewrite Z.shiftl_mul_pow2 by lia. lia. }
  rewrite u32_small by lia. apply lor_small; lia.
Qed.

Lemma edge_v0_not_nil (vx e : Z) :
  0 <= XBITS <= 9 -> 0 <= vx < NX -> edge_v0 vx e <> CUCKOO_NIL.
Proof.
  intros HX Hvx. pose proof (edge_v0_small vx e HX Hvx). unfold CUCKOO_NIL. lia.
Qed.







End ClosingEdge.

Section ClosingEdgeWitness.
#[local] Existing Instance tiny_params.


(** The fourth edge is logged as a 4-cycle and records no solution. *)
Example four_cycle_found :
  match findcycles_edge 0 0 example_three_edges 1 with
  | Return st' => found (ctx st') = [4] /\ sols (ctx st') = []
  | _ => False
  end.
Proof. vm_compute. done. Qed.
End ClosingEdgeWitness.

(** * The input queue: [cuckoo_push_to_input_queue] *)

(** The buffer of a queued item is always [MAX_DATA_LENGTH] bytes long when
    the caller's buffer holds the [data_length] bytes it announces. *)
Lemma make_input_data_length id data data_length nonce :
  0 <= data_length <= MAX_DATA_LENGTH ->
  (Z.to_nat data_length <= length data)%nat ->
  length (qi_data (make_input id data data_length nonce)) = Z.to_nat MAX_DATA_LENGTH.
Proof.
  intros Hl Hd. unfold make_input; simpl.
  rewrite length_app, length_take, length_replicate. lia.
Qed.

(** C3: [cuckoo_push_to_input_queue] returns 4 when [should_quit] is set,
    otherwise 2 when [data_length] exceeds 2048, otherwise 1 when the input
    queue holds at least [MAX_QUEUE_SIZE = 20] items, otherwise it enqueues
    the item [(id, nonce, length, data)] and returns 0. *)
Theorem push_to_input_queue_return_codes
    (id : Z) (data : list Z) (data_length : Z) (nonce : list Z) (s : plugin) :
  push_spec id data data_length nonce s
    (fst (cuckoo_push_to_input_queue id data data_length nonce s))
    (snd (cuckoo_push_to_input_queue id data data_length nonce s)).
Proof.
  unfold cuckoo_push_to_input_queue, MAX_DATA_LENGTH, MAX_QUEUE_SIZE, size_approx.
  destruct (should_quit s) eqn:Hq; simpl.
  - by apply push_stopped.
  - destruct (Z.ltb_spec 2048 data_length) as [Hlen|Hlen]; simpl.
    + apply push_too_long; [done | lia].
    + destruct (Z.leb_spec 20 (Z.of_nat (length (INPUT_QUEUE s)))) as [Hfull|Hroom]; simpl.
      * apply push_full; [done | lia | lia].
      * eapply push_ok with (item := make_input id data data_length nonce);
          try done; try lia.
Qed.

(** The 21st push on a running plugin is refused with code 1, the first 20
    are accepted. *)
Example push_back_pressure :
  let push s := snd (cuckoo_push_to_input_queue 7 [1; 2; 3] 3 [0;0;0;0;0;0;0;0] s) in
  let s20 := Nat.iter 20 push plugin_init in
  length (INPUT_QUEUE s20) = 20%nat /\
  fst (cuckoo_push_to_input_queue 7 [1; 2; 3] 3 [0;0;0;0;0;0;0;0] s20) = 1 /\
  fst (cuckoo_push_to_input_queue 7 [1; 2; 3] 3 [0;0;0;0;0;0;0;0]
         (snd (cuckoo_stop_processing s20))) = 4.
Proof. vm_compute. done. Qed.

(** * Bucket records and delta decoding *)

Lemma le_bytes_length (n : nat) (x : Z) : length (le_bytes n x) = n.
Proof. revert x. induction n as [|n IH]; intros x; cbn; [done|by rewrite IH]. Qed.

(** Reading back the bytes written gives the value truncated to their
    width. *)
Lemma le_value_le_bytes (n : nat) (x : Z) :
  le_value (le_bytes n x) = x mod 256 ^ Z.of_nat n.
Proof.
  revert x. induction n as [|n IH]; intros x.
  - cbn. by rewrite Z.mod_1_r.
  - cbn [le_bytes le_value]. rewrite IH, Nat2Z.inj_succ, Z.pow_succ_r by lia.
    rewrite Z.rem_mul_r by lia. done.
Qed.

Lemma readbig_writebig (SIZE x : Z) :
  0 <= SIZE -> readbig SIZE (writebig SIZE x) = u64 x mod 2 ^ (8 * SIZE).
Proof.
  intros HS. unfold readbig, writebig.
  rewrite take_ge by (by rewrite le_bytes_length).
  rewrite le_value_le_bytes, Z2Nat.id by done.
  change 256 with (2 ^ 8). by rewrite <- Z.pow_mul_r by lia.
Qed.

Lemma mask_ones (b : Z) : Z.shiftl 1 b - 1 = Z.ones b.
Proof. unfold Z.ones. lia. Qed.

(** The prefix of a stored record [(x << S) | low] of [W] bits is [x]
    truncated to the [W - S] bits left for it. *)
Lemma record_prefix (W S x low : Z) :
  0 <= S <= W -> W <= 64 ->
  Z.shiftr ((u64 (Z.lor (u64 (Z.shiftl x S)) (Z.land low (Z.shiftl 1 S - 1)))) mod 2 ^ W) S
  = x mod 2 ^ (W - S).
Proof.
  intros HS HW. apply Z.bits_inj'. intros n Hn. unfold u64.
  rewrite Z.shiftr_spec, !Z.testbit_mod_pow2, Z.lor_spec, Z.land_spec by lia.
  rewrite Z.testbit_mod_pow2, Z.shiftl_spec, mask_ones by lia.
  rewrite Z.testbit_ones_nonneg, Z.add_simpl_r by lia.
  destruct (Z.ltb_spec (n + S) W), (Z.ltb_spec (n + S) 64), (Z.ltb_spec (n + S) S),
    (Z.ltb_spec n (W - S)); try lia; cbn; rewrite ?andb_false_r, ?orb_false_r; done.
Qed.

Lemma land_mask_mod (x b : Z) : 0 <= b -> Z.land x (Z.shiftl 1 b - 1) = x mod 2 ^ b.
Proof. intros Hb. rewrite mask_ones. by apply Z.land_ones. Qed.

Lemma mod_pow2_mod_pow2 (x a b : Z) : 0 <= b <= a -> (x mod 2 ^ a) mod 2 ^ b = x mod 2 ^ b.
Proof.
  intros H. apply Z.mod_mod_divide.
  exists (2 ^ (a - b)). rewrite <- Z.pow_add_r by lia. f_equal. lia.
Qed.

Section DeltaFacts.
Context {P : BuildParams}.





(** The prefix read by [genVnodes1] from a record of [genUnodes]. *)
Lemma genU_record_prefix (n node : Z) :
  0 <= YZBITS <= 40 ->
  Z.shiftr (readbig BIGSIZE (genU_record n node)) YZBITS = n mod 2 ^ NONYZBITS.
Proof.
  intros H. unfold genU_record. rewrite readbig_writebig by (unfold BIGSIZE; lia).
  unfold YZMASK, NYZ, NONYZBITS, BIGSLOTBITS, BIGSIZE.
  change (8 * 5) with 40. change (5 * 8) with 40.
  by rewrite record_prefix by lia.
Qed.





(** A stream met from [start] is an increasing run after [start - 1]
    once the first gap is allowed to be 0; the decoders only need the
    window. *)
Lemma stream_ok_window (bits lag start : Z) (ns : list Z) :
  0 <= lag ->
  stream_ok (2 ^ bits - lag) start ns ->
  match ns with
  | [] => True
  | n :: rest => - lag <= n - start < 2 ^ bits - lag
                 /\ increasing_gaps (2 ^ bits - lag) n rest
  end.
Proof. intros Hlag. destruct ns as [|n rest]; [done|]. intros [H1 H2]. split; [lia|done]. Qed.
End DeltaFacts.



(** A first nonce too far from the decoder's state is decoded to another
    value: the window is counted from the state the decoder starts in. *)
Example delta_decode_out_of_window :
  genV2_decode (P := default_params) 0 [genV1_record (P := default_params) (2 ^ 25 - 2 ^ 23 + 5) 0]
  = [u32 (5 - 2 ^ 23)].
Proof. vm_compute. done. Qed.

(** * The degree bitmap [twice_set] *)

Module TwiceSetFacts.
Import TwiceSet.

Lemma land_2 (x : Z) : Z.land x 2 = if Z.testbit x 1 then 2 else 0.
Proof.
  apply Z.bits_inj'. intros n Hn. rewrite Z.land_spec.
  change 2 with (2 ^ 1) at 1. rewrite Z.pow2_bits_eqb by lia.
  destruct (Z.eqb_spec 1 n) as [<-|Hne].
  - destruct (Z.testbit x 1); reflexivity.
  - rewrite andb_false_r. destruct (Z.testbit x 1).
    + change 2 with (2 ^ 1). rewrite Z.pow2_bits_eqb by lia.
      symmetry. by apply Z.eqb_neq.
    + by rewrite Z.bits_0.
Qed.

(** [test] reads the high bit of the pair. *)
Lemma test_seen2 (bits : list Z) (u : Z) :
  test bits u = if seen2 bits u then 2 else 0.
Proof.
  unfold test, seen2. rewrite land_2, Z.shiftr_spec by lia.
  by rewrite (Z.add_comm 1).
Qed.

Lemma bit_of (p : Z) : 0 <= p <= 30 -> u32 (Z.shiftl 1 p) = 2 ^ p.
Proof.
  intros Hp. unfold u32. rewrite Z.shiftl_1_l. apply Z.mod_small.
  split; [lia|]. apply Z.pow_lt_mono_r; lia.
Qed.

Lemma bit2_of (p : Z) : 0 <= p <= 30 -> u32 (Z.shiftl (2 ^ p) 1) = 2 ^ (p + 1).
Proof.
  intros Hp. unfold u32. rewrite Z.shiftl_mul_pow2 by lia.
  rewrite Z.pow_add_r by lia. apply Z.mod_small.
  assert (2 ^ p <= 2 ^ 30) by (apply Z.pow_le_mono_r; lia). lia.
Qed.

(** The test [(old & (bit2|bit)) == bit] of [set]: seen once so far. *)
Lemma once_test (old p : Z) :
  0 <= p ->
  (Z.land old (Z.lor (2 ^ (p + 1)) (2 ^ p)) =? 2 ^ p)
  = Z.testbit old p && negb (Z.testbit old (p + 1)).
Proof.
  intros Hp.
  assert (forall n, 0 <= n ->
            Z.testbit (Z.land old (Z.lor (2 ^ (p + 1)) (2 ^ p))) n
            = Z.testbit old n && ((p + 1 =? n) || (p =? n))) as Hbits.
  { intros n Hn. by rewrite Z.land_spec, Z.lor_spec, !Z.pow2_bits_eqb by lia. }
  destruct (Z.testbit old p) eqn:H1, (Z.testbit old (p + 1)) eqn:H2; simpl.
  - apply Z.eqb_neq. intros Heq.
    apply (f_equal (fun w => Z.testbit w (p + 1))) in Heq.
    rewrite Hbits, H2, Z.pow2_bits_eqb, Z.eqb_refl in Heq by lia.
    simpl in Heq. destruct (Z.eqb_spec p (p + 1)); [lia|discriminate].
  - apply Z.eqb_eq. apply Z.bits_inj'. intros n Hn.
    rewrite Hbits, Z.pow2_bits_eqb by lia.
    destruct (Z.eqb_spec (p + 1) n) as [E1|E1], (Z.eqb_spec p n) as [E2|E2];
      try lia; subst; rewrite ?H1, ?H2; try done.
  - apply Z.eqb_neq. intros Heq.
    apply (f_equal (fun w => Z.testbit w p)) in Heq.
    rewrite Hbits, H1, Z.pow2_bits_eqb, Z.eqb_refl in Heq by lia. discriminate.
  - apply Z.eqb_neq. intros Heq.
    apply (f_equal (fun w => Z.testbit w p)) in Heq.
    rewrite Hbits, H1, Z.pow2_bits_eqb, Z.eqb_refl in Heq by lia. discriminate.
Qed.

Lemma word_at_insert_eq (bits : list Z) (i w : Z) :
  (Z.to_nat i < length bits)%nat -> word_at (<[Z.to_nat i := w]> bits) i = w.
Proof. intros H. unfold word_at. by rewrite list_lookup_insert_eq. Qed.

Lemma word_at_insert_ne (bits : list Z) (i j w : Z) :
  0 <= i -> 0 <= j -> i <> j -> word_at (<[Z.to_nat i := w]> bits) j = word_at bits j.
Proof. intros Hi Hj H. unfold word_at. rewrite list_lookup_insert_ne; [done|lia]. Qed.

Lemma set_length (bits : list Z) (u : Z) : length (set bits u) = length bits.
Proof.
  unfold set, atomicOr. cbn [fst snd].
  destruct (_ =? _); cbn [snd]; by rewrite ?length_insert.
Qed.

Lemma set_word_at (bits : list Z) (u : Z) :
  0 <= u -> (Z.to_nat (u / 16) < length bits)%nat ->
  word_at (set bits u) (u / 16) = set_word (word_at bits (u / 16)) (2 * (u mod 16)).
Proof.
  intros Hu Hlen.
  pose proof (Z.mod_pos_bound u 16 ltac:(lia)) as Hm.
  unfold set, atomicOr, set_word. cbn [fst snd].
  rewrite bit_of, bit2_of, once_test by lia.
  destruct (Z.testbit _ _ && negb _); cbn [snd].
  - rewrite !word_at_insert_eq; rewrite ?length_insert; done.
  - by rewrite word_at_insert_eq.
Qed.

Lemma set_word_other (bits : list Z) (u i : Z) :
  0 <= u -> 0 <= i -> i <> u / 16 -> word_at (set bits u) i = word_at bits i.
Proof.
  intros Hu Hi Hne.
  assert (0 <= u / 16) by (apply Z.div_pos; lia).
  unfold set, atomicOr. cbn [fst snd].
  destruct (_ =? _); cbn [snd]; rewrite ?word_at_insert_ne; done.
Qed.

Lemma set_word_bits (old p n : Z) :
  0 <= p -> 0 <= n ->
  Z.testbit (set_word old p) n
  = Z.testbit old n || (p =? n)
    || ((p + 1 =? n) && Z.testbit old p && negb (Z.testbit old (p + 1))).
Proof.
  intros Hp Hn. unfold set_word.
  destruct (Z.testbit old p && negb (Z.testbit old (p + 1))) eqn:Hc.
  - rewrite !Z.lor_spec, !Z.pow2_bits_eqb by lia.
    rewrite <- andb_assoc, Hc, andb_true_r. done.
  - rewrite !Z.lor_spec, !Z.pow2_bits_eqb by lia.
    rewrite <- andb_assoc, Hc, andb_false_r, orb_false_r. done.
Qed.

(** One [set u] moves the pair of [u] one state up and stops at "twice". *)
Lemma set_same (bits : list Z) (u : Z) :
  0 <= u -> (Z.to_nat (u / 16) < length bits)%nat ->
  seen1 (set bits u) u = true /\
  seen2 (set bits u) u = seen1 bits u || seen2 bits u.
Proof.
  intros Hu Hlen.
  pose proof (Z.mod_pos_bound u 16 ltac:(lia)) as Hm.
  unfold seen1, seen2. rewrite set_word_at by done.
  rewrite !set_word_bits by lia. rewrite !Z.eqb_refl.
  split.
  - by rewrite orb_true_r.
  - destruct (Z.eqb_spec (2 * (u mod 16)) (2 * (u mod 16) + 1)); [lia|].
    destruct (Z.testbit _ (2 * (u mod 16))), (Z.testbit _ (2 * (u mod 16) + 1)); done.
Qed.

(** [set u] leaves the pair of every other index as it was. *)
Lemma set_other (bits : list Z) (u u' : Z) :
  0 <= u -> 0 <= u' -> u' <> u ->
  seen1 (set bits u) u' = seen1 bits u' /\ seen2 (set bits u) u' = seen2 bits u'.
Proof.
  intros Hu Hu' Hne.
  pose proof (Z.mod_pos_bound u 16 ltac:(lia)) as Hm.
  pose proof (Z.mod_pos_bound u' 16 ltac:(lia)) as Hm'.
  assert (0 <= u' / 16) by (apply Z.div_pos; lia).
  unfold seen1, seen2.
  destruct (decide (u' / 16 = u / 16)) as [Heq|Hw].
  - assert (u' mod 16 <> u mod 16) as Hp.
    { intros Hmod. apply Hne.
      rewrite (Z.div_mod u 16), (Z.div_mod u' 16) by lia. congruence. }
    destruct (decide (Z.to_nat (u / 16) < length bits)%nat) as [Hlen|Hlen].
    + rewrite Heq, set_word_at by done. rewrite !set_word_bits by lia.
      destruct (Z.eqb_spec (2 * (u mod 16)) (2 * (u' mod 16))); [lia|].
      destruct (Z.eqb_spec (2 * (u mod 16) + 1) (2 * (u' mod 16))); [lia|].
      destruct (Z.eqb_spec (2 * (u mod 16)) (2 * (u' mod 16) + 1)); [lia|].
      destruct (Z.eqb_spec (2 * (u mod 16) + 1) (2 * (u' mod 16) + 1)); [lia|].
      by rewrite !orb_false_r.
    + rewrite Heq. unfold word_at.
      rewrite !lookup_ge_None_2; [done|lia|rewrite set_length; lia].
  - by rewrite set_word_other.
Qed.

(** The pair of [z] after a series of [set] calls, from any bitmap. *)
Lemma set_all_counts (us : list Z) (bits : list Z) (z : Z) :
  Forall (fun u => 0 <= u /\ (Z.to_nat (u / 16) < length bits)%nat) us -> 0 <= z ->
  seen1 (set_all bits us) z = seen1 bits z || bool_decide (1 <= count_occ Z.eq_dec us z)%nat
  /\ seen2 (set_all bits us) z
     = seen2 bits z
       || (seen1 bits z && bool_decide (1 <= count_occ Z.eq_dec us z)%nat)
       || bool_decide (2 <= count_occ Z.eq_dec us z)%nat.
Proof.
  intros Hus Hz. revert bits Hus.
  induction us as [|u us IH]; intros bits Hus.
  - cbn. by rewrite andb_false_r, !orb_false_r.
  - apply Forall_cons in Hus as [[Hu Hlen] Hus].
    unfold set_all in *. cbn [foldl].
    assert (Forall (fun u0 => 0 <= u0 /\ (Z.to_nat (u0 / 16) < length (set bits u))%nat) us)
      as Hus' by (by rewrite set_length).
    destruct (IH _ Hus') as [IH1 IH2]. rewrite IH1, IH2. clear IH IH1 IH2.
    cbn [count_occ]. destruct (Z.eq_dec u z) as [->|Hne].
    + destruct (set_same bits z Hz Hlen) as [-> ->].
      destruct (seen1 bits z), (seen2 bits z); cbn;
        repeat (case_bool_decide; try lia; try done); by split.
    + destruct (set_other bits u z Hu Hz ltac:(congruence)) as [-> ->]. done.
Qed.

Lemma reset_length (SIZE : Z) (bits : list Z) :
  length (reset SIZE bits) = Z.to_nat (TWICE_WORDS SIZE).
Proof. apply length_replicate. Qed.

Lemma reset_clear (SIZE : Z) (bits : list Z) (z : Z) :
  seen1 (reset SIZE bits) z = false /\ seen2 (reset SIZE bits) z = false.
Proof.
  unfold seen1, seen2, word_at, reset.
  destruct (replicate _ 0 !! _) as [w|] eqn:Hw; cbn.
  - apply lookup_replicate in Hw as [-> _]. by rewrite !Z.bits_0.
  - by rewrite !Z.bits_0.
Qed.

Lemma index_in_range (SIZE u : Z) :
  SIZE mod 16 = 0 -> 0 <= u < SIZE ->
  (Z.to_nat (u / 16) < Z.to_nat (TWICE_WORDS SIZE))%nat.
Proof.
  intros Hs Hu. unfold TWICE_WORDS.
  assert (SIZE = 16 * (SIZE / 16)) as Hd by (rewrite (Z.div_mod SIZE 16) at 1; lia).
  assert (2 * SIZE / 32 = SIZE / 16) as ->.
  { rewrite Hd at 1. replace (2 * (16 * (SIZE / 16))) with ((SIZE / 16) * 32) by lia.
    by rewrite Z.div_mul. }
  assert (u / 16 < SIZE / 16) by (apply Z.div_lt_upper_bound; lia).
  assert (0 <= u / 16) by (apply Z.div_pos; lia). lia.
Qed.
End TwiceSetFacts.

(** C5: the two-bit degree bitmap is the state machine seen ∈ {0, 1, ≥2}:
    after [reset], for every index [z] and every series of [set] calls run
    one after the other, [test z] is nonzero exactly when [set z] was called
    at least twice, and [set z] leaves [test z'] of every other index as it
    was. [SIZE] is a multiple of 16 as in the three instances of the
    template, and indices are below [SIZE]. *)
Theorem twice_set_counts_to_two (SIZE : Z) (bits0 : list Z) (us : list Z) (z : Z) :
  SIZE mod 16 = 0 ->
  Forall (fun u => 0 <= u < SIZE) us ->
  0 <= z < SIZE ->
  (TwiceSet.test (TwiceSet.set_all (TwiceSet.reset SIZE bits0) us) z <> 0
   <-> (2 <= count_occ Z.eq_dec us z)%nat)
  /\ (forall (bits : list Z) (z' : Z), 0 <= z' -> z' <> z ->
        TwiceSet.test (TwiceSet.set bits z) z' = TwiceSet.test bits z').
Proof.
  intros Hsize Hus Hz. split.
  - rewrite TwiceSetFacts.test_seen2.
    destruct (TwiceSetFacts.set_all_counts us (TwiceSet.reset SIZE bits0) z) as [_ H2];
      [|lia|].
    { eapply Forall_impl; [exact Hus|]. intros u Hu. cbn beta in Hu. split; [lia|].
      rewrite TwiceSetFacts.reset_length. by apply TwiceSetFacts.index_in_range. }
    rewrite H2. clear H2.
    destruct (TwiceSetFacts.reset_clear SIZE bits0 z) as [-> ->]. cbn.
    case_bool_decide; split; intros; try done; lia.
  - intros bits z' Hz' Hne.
    rewrite !TwiceSetFacts.test_seen2.
    by destruct (TwiceSetFacts.set_other bits z z' ltac:(lia) Hz' Hne) as [_ ->].
Qed.

(** The theorem at [SIZE = 32] and the calls [set 5; set 9; set 5]. *)
Lemma twice_set_counts_to_two_witness :
  (TwiceSet.test (TwiceSet.set_all (TwiceSet.reset 32 []) [5; 9; 5]) 5 <> 0
   <-> (2 <= count_occ Z.eq_dec [5%Z; 9%Z; 5%Z] 5%Z)%nat)
  /\ (forall (bits : list Z) (z' : Z), 0 <= z' -> z' <> 5 ->
        TwiceSet.test (TwiceSet.set bits 5) z' = TwiceSet.test bits z').
Proof.
  apply (twice_set_counts_to_two 32 [] [5; 9; 5] 5).
  - reflexivity.
  - repeat constructor; lia.
  - lia.
Defined.

(** Three indices of one word, seen twice, once and never. *)
Example twice_set_run :
  let bits := TwiceSet.set_all (TwiceSet.reset 32 []) [5; 9; 5; 15; 15; 15] in
  TwiceSet.test bits 5 = 2 /\ TwiceSet.test bits 9 = 0 /\
  TwiceSet.test bits 15 = 2 /\ TwiceSet.test bits 6 = 0.
Proof. vm_compute. done. Qed.

(** * The cap on the length of a path *)



Section PathCap.
Context {P : BuildParams}.











End PathCap.

(** The simple miner's [path] ends the process in the same way, exactly
    when the first [MAXPATHLEN] nodes met from [u] are nodes, and the loop
    of its [worker] ends with it. *)
Lemma simple_path_loop_exit (ck : gmap Z Z) (room : nat) :
  forall (u nu : Z) (us : list Z),
  (exists d, SimpleMiner.path_loop room ck u nu us = SimpleMiner.Exit d) <->
  (forall j, (j <= room)%nat -> SimpleMiner.walk ck j u <> 0).
Proof.
  induction room as [|room IH]; intros u nu us; cbn [SimpleMiner.path_loop].
  - destruct (Z.eqb_spec u 0) as [Hu|Hu]; split.
    + by intros [d Hd].
    + intros Hwalk. by destruct (Hwalk 0%nat).
    + intros _ j Hj. by replace j with 0%nat by lia.
    + intros _. by eexists.
  - destruct (Z.eqb_spec u 0) as [Hu|Hu]; split.
    + by intros [d Hd].
    + intros Hwalk. by destruct (Hwalk 0%nat ltac:(lia)).
    + intros Hexit [|j] Hj; [done|]. cbn [SimpleMiner.walk].
      apply (proj1 (IH _ _ _) Hexit). lia.
    + intros Hwalk. apply IH. intros j Hj. apply (Hwalk (S j)). lia.
Qed.

Lemma simple_path_exit (ck : gmap Z Z) (u : Z) (us : list Z) :
  (exists d, SimpleMiner.path ck u us = SimpleMiner.Exit d) <->
  (forall j, (j < Z.to_nat SimpleMiner.MAXPATHLEN)%nat -> SimpleMiner.walk ck j u <> 0).
Proof.
  unfold SimpleMiner.path. rewrite simple_path_loop_exit.
  unfold SimpleMiner.MAXPATHLEN. split; intros H j Hj; apply H; lia.
Qed.

Lemma simple_worker_exit (sipnode : Z -> Z -> Z) (PROOFSIZE easiness : Z)
    (st : SimpleMiner.state) (nonce : Z) (rest : list Z) (d : SimpleMiner.diagnostic) :
  sipnode nonce 0 <> 0 ->
  SimpleMiner.path (SimpleMiner.cuckoo st)
                   (SimpleMiner.cuckoo_at (SimpleMiner.cuckoo st) (sipnode nonce 0))
                   (<[0%nat := sipnode nonce 0]> (SimpleMiner.us st)) = SimpleMiner.Exit d ->
  SimpleMiner.worker_loop sipnode PROOFSIZE easiness st (nonce :: rest) = SimpleMiner.Exit d.
Proof.
  intros Hu Hpath. cbn [SimpleMiner.worker_loop]. unfold SimpleMiner.worker_step.
  destruct (Z.eqb_spec (sipnode nonce 0) 0); [done|]. by rewrite Hpath.
Qed.

Section PathCapRun.
#[local] Existing Instance toy_params.



End PathCapRun.

(** * Recovery: the nonces of a reported cycle *)

(** ** [qsort] with [nonce_cmp] *)







(** ** The kernel [recoveredges1] *)

Section Recovery.
Context {P : BuildParams}.



Lemma mark_uxy_length (uvn uxymap : list Z) (i : Z) :
  length (mark_uxy uvn uxymap i) = length uxymap.
Proof. unfold mark_uxy, atomicOr. cbn [snd]. apply length_insert. Qed.




Lemma marks_length (uvn : list Z) (l : list Z) (uxymap : list Z) :
  length (foldl (mark_uxy uvn) uxymap l) = length uxymap.
Proof.
  revert uxymap. induction l as [|i l IH]; intros uxymap; cbn [foldl]; [done|].
  by rewrite IH, mark_uxy_length.
Qed.






End Recovery.

Section RecoveredProof.
Context {P : BuildParams}.

Lemma dipnode_range (keys : siphash_keys) (n s : Z) :
  0 <= EDGEBITS -> 0 <= dipnode keys n s < 2 ^ EDGEBITS.
Proof.
  intros HE. unfold dipnode, dipnode_vec, dipnode_scalar, EDGEMASK, NEDGES.
  assert (Z.shiftl 1 EDGEBITS - 1 = Z.ones EDGEBITS) as -> by (unfold Z.ones; lia).
  destruct (320 <=? CUDA_ARCH); cbv zeta; rewrite Z.land_ones by done;
    apply Z.mod_pos_bound; by apply Z.pow_pos_nonneg.
Qed.



End RecoveredProof.

Section RecoveredProofRun.
#[local] Existing Instance toy_params.



End RecoveredProofRun.

(** * The worker lifecycle: [cuckoo_reset_processing] *)

(** C8: [cuckoo_reset_processing] clears the stop flag and changes nothing
    else of the worker lifecycle: no worker thread is started and
    [processing_finished] is left as it was, so a stopped worker stays
    stopped. The only other global written is [SINGLE_MODE]. *)
Theorem reset_processing_frame (s : plugin) :
  fst (cuckoo_reset_processing s) = 1 /\
  should_quit (snd (cuckoo_reset_processing s)) = false /\
  workers (snd (cuckoo_reset_processing s)) = workers s /\
  processing_finished (snd (cuckoo_reset_processing s)) = processing_finished s /\
  internal_processing_finished (snd (cuckoo_reset_processing s))
    = internal_processing_finished s /\
  is_working (snd (cuckoo_reset_processing s)) = is_working s /\
  INPUT_QUEUE (snd (cuckoo_reset_processing s)) = INPUT_QUEUE s /\
  OUTPUT_QUEUE (snd (cuckoo_reset_processing s)) = OUTPUT_QUEUE s /\
  SINGLE_MODE (snd (cuckoo_reset_processing s)) = true /\
  cuckoo_has_processing_stopped (snd (cuckoo_reset_processing s))
    = cuckoo_has_processing_stopped s.
Proof. by repeat split. Qed.

(** By contrast [cuckoo_start_processing] makes a thread when
    [pthread_create] succeeds and marks processing as not finished. *)
Lemma start_processing_starts (detach_failed : bool) (s : plugin) :
  workers (snd (cuckoo_start_processing true detach_failed s)) = S (workers s) /\
  processing_finished (snd (cuckoo_start_processing true detach_failed s)) = false /\
  cuckoo_has_processing_stopped (snd (cuckoo_start_processing true detach_failed s)) = 0.
Proof. by repeat split. Qed.

(** A worker that was started, told to stop and has finished is reported as
    stopped before and after a reset. *)
Example reset_after_stop :
  let s1 := snd (cuckoo_start_processing true false plugin_init) in
  let s2 := snd (cuckoo_stop_processing s1) in
  let finished := {| processing_finished := true;
                     internal_processing_finished := internal_processing_finished s2;
                     should_quit := should_quit s2; is_working := is_working s2;
                     SINGLE_MODE := SINGLE_MODE s2; INPUT_QUEUE := INPUT_QUEUE s2;
                     OUTPUT_QUEUE := OUTPUT_QUEUE s2; workers := workers s2 |} in
  cuckoo_has_processing_stopped finished = 1 /\
  cuckoo_has_processing_stopped (snd (cuckoo_reset_processing finished)) = 1 /\
  workers (snd (cuckoo_reset_processing finished)) = 1%nat.
Proof. by repeat split. Qed.

(** * Draining the queues: [cuckoo_clear_queues] *)

Lemma try_dequeue_drop {A} (q : list A) : snd (try_dequeue q) = drop 1 q.
Proof. by destruct q. Qed.

(** [n] turns of the loop make [n] attempts on each queue and remove the
    first [n] items of each. *)
Lemma clear_loop_spec (n : nat) (s : plugin) :
  length (fst (clear_loop n s)) = n /\
  INPUT_QUEUE (snd (clear_loop n s)) = drop n (INPUT_QUEUE s) /\
  OUTPUT_QUEUE (snd (clear_loop n s)) = drop n (OUTPUT_QUEUE s) /\
  should_quit (snd (clear_loop n s)) = should_quit s /\
  processing_finished (snd (clear_loop n s)) = processing_finished s.
Proof.
  revert s. induction n as [|n IH]; intros s; simpl.
  - by rewrite !drop_0.
  - unfold clear_step.
    destruct (try_dequeue (INPUT_QUEUE s)) as [i qin] eqn:Hin.
    destruct (try_dequeue (OUTPUT_QUEUE s)) as [o qout] eqn:Hout.
    specialize (IH (with_output (with_input s qin) qout)).
    destruct (clear_loop n (with_output (with_input s qin) qout)) as [rs s''].
    simpl in *. destruct IH as (Hlen & Hi & Ho & Hq & Hp).
    pose proof (try_dequeue_drop (INPUT_QUEUE s)) as Hdi.
    pose proof (try_dequeue_drop (OUTPUT_QUEUE s)) as Hdo.
    rewrite Hin in Hdi. rewrite Hout in Hdo. simpl in Hdi, Hdo. subst qin qout.
    rewrite Hi, Ho, !drop_drop.
    repeat split; try done. by rewrite Hlen.
Qed.

(** C9: [cuckoo_clear_queues] makes exactly [MAX_QUEUE_SIZE = 20] dequeue
    attempts on each queue; each queue loses its first 20 items at most, and
    an output queue of more than 20 items is not empty afterwards. *)
Theorem clear_queues_bounded (s : plugin) :
  length (fst (cuckoo_clear_queues_attempts s)) = 20%nat /\
  INPUT_QUEUE (cuckoo_clear_queues s) = drop 20 (INPUT_QUEUE s) /\
  OUTPUT_QUEUE (cuckoo_clear_queues s) = drop 20 (OUTPUT_QUEUE s) /\
  (length (INPUT_QUEUE s) - length (INPUT_QUEUE (cuckoo_clear_queues s)) <= 20)%nat /\
  (length (OUTPUT_QUEUE s) - length (OUTPUT_QUEUE (cuckoo_clear_queues s)) <= 20)%nat /\
  length (OUTPUT_QUEUE (cuckoo_clear_queues s)) = (length (OUTPUT_QUEUE s) - 20)%nat /\
  (OUTPUT_QUEUE (cuckoo_clear_queues s) = [] <-> (length (OUTPUT_QUEUE s) <= 20)%nat).
Proof.
  unfold cuckoo_clear_queues, cuckoo_clear_queues_attempts.
  change (Z.to_nat MAX_QUEUE_SIZE) with 20%nat.
  destruct (clear_loop_spec 20 s) as (Hlen & Hi & Ho & _ & _).
  rewrite Hi, Ho, !length_drop.
  repeat split; try done; try lia.
  - intros H. apply (f_equal length) in H. rewrite length_drop in H. simpl in H. lia.
  - intros H. apply drop_ge. lia.
Qed.

(** An output queue of 21 results still holds one after the call. *)
Example clear_queues_leaves_items :
  let out := {| qo_id := 1; qo_nonce := []; result_nonces := []; cuckoo_size := 30 |} in
  let s := with_output plugin_init (replicate 21 out) in
  OUTPUT_QUEUE (cuckoo_clear_queues s) = [out].
Proof. vm_compute. done. Qed.

(** * [cuckoo_call]: the result does not depend on the verification *)

Lemma write_step_length (prf out : list Z) (l : list Z) :
  length (foldl (fun out i => <[Z.to_nat i := node_at prf i]> out) out l) = length out.
Proof.
  revert out. induction l as [|i l IH]; intros out; simpl; [done|].
  by rewrite IH, length_insert.
Qed.

(** After the copying loop over the indices [l], the entry [i] holds
    [prf[i]] when [i] is among them, and is untouched otherwise. *)
Lemma write_step_lookup (prf : list Z) (l : list Z) (out : list Z) (i : Z) :
  Forall (fun j => 0 <= j) l -> 0 <= i -> (Z.to_nat i < length out)%nat ->
  foldl (fun out i => <[Z.to_nat i := node_at prf i]> out) out l !! Z.to_nat i
  = if decide (i ∈ l) then Some (node_at prf i) else out !! Z.to_nat i.
Proof.
  intros Hl Hi. revert out. induction Hl as [|j l Hj Hl IH]; intros out Hlen.
  - simpl. destruct (decide (i ∈ [])) as [Hin|_]; [by apply elem_of_nil in Hin|done].
  - cbn [foldl]. rewrite IH by (by rewrite length_insert).
    destruct (decide (i ∈ l)) as [Hin|Hnin].
    + rewrite decide_True; [done | by right].
    + destruct (decide (j = i)) as [->|Hne].
      * rewrite decide_True by left. by apply list_lookup_insert_eq.
      * rewrite decide_False by (intros Hin; apply elem_of_cons in Hin as [?|?]; congruence).
        apply list_lookup_insert_ne. lia.
Qed.

Lemma write_nonces_lookup (out prf : list Z) (i : Z) :
  0 <= i < PROOFSIZE -> (Z.to_nat i < length out)%nat ->
  write_nonces out prf !! Z.to_nat i = Some (node_at prf i).
Proof.
  intros Hi Hlen. unfold write_nonces, upto.
  rewrite write_step_lookup; [| |lia|done].
  - rewrite decide_True; [done|]. apply elem_of_seqZ. lia.
  - apply Forall_forall. intros j Hj. apply elem_of_seqZ in Hj. lia.
Qed.

Lemma write_nonces_frame (out prf : list Z) (i : Z) :
  PROOFSIZE <= i -> write_nonces out prf !! Z.to_nat i = out !! Z.to_nat i.
Proof.
  intros Hi. unfold write_nonces, upto.
  destruct (decide (Z.to_nat i < length out)%nat) as [Hlt|Hge].
  - rewrite write_step_lookup; [| |unfold PROOFSIZE in *; lia|done].
    + rewrite decide_False; [done|]. intros Hin. apply elem_of_seqZ in Hin. lia.
    + apply Forall_forall. intros j Hj. apply elem_of_seqZ in Hj. lia.
  - rewrite !lookup_ge_None_2; [done|lia|rewrite write_step_length; lia].
Qed.

Section CallResult.
Context {P : BuildParams}.

(** C10: whenever the solver finds at least one solution, [cuckoo_call]
    writes the 42 nonces of the first solution into [sol_nonces] and
    returns 1, whatever the proof check answers: the check selects the
    line printed and nothing else. *)
Theorem cuckoo_call_result_ignores_verify
    (ext : externals) (trim : edgetrimmer -> Z * edgetrimmer) (copy_ok : bool)
    (us0 vs0 : list Z) (single : bool) (c0 : solver_ctx)
    (header sol_nonces : list Z) (nsols : Z) (c : solver_ctx) :
  solve trim copy_ok us0 vs0 (setheadergrin ext header c0) = Return (nsols, c) ->
  0 < nsols ->
  forall v : list Z -> siphash_keys -> Z,
  exists ev,
    cuckoo_call (with_verify ext v) trim copy_ok us0 vs0 single c0 header sol_nonces
    = Return (1, write_nonces sol_nonces (take (Z.to_nat PROOFSIZE) (sols c)), ev)
    /\ ev = [PrintSolution (take (Z.to_nat PROOFSIZE) (sols c));
             if v (take (Z.to_nat PROOFSIZE) (sols c)) (sip_keys (trimmer c)) =? POW_OK
             then PrintVerified (blake2b ext (take (Z.to_nat PROOFSIZE) (sols c)))
             else PrintFailed (v (take (Z.to_nat PROOFSIZE) (sols c)) (sip_keys (trimmer c)))]
            ++ (if single then [UpdateStats] else [])
    /\ (forall i, 0 <= i < PROOFSIZE -> (Z.to_nat i < length sol_nonces)%nat ->
          write_nonces sol_nonces (take (Z.to_nat PROOFSIZE) (sols c)) !! Z.to_nat i
          = sols c !! Z.to_nat i)
    /\ (forall i, PROOFSIZE <= i ->
          write_nonces sol_nonces (take (Z.to_nat PROOFSIZE) (sols c)) !! Z.to_nat i
          = sol_nonces !! Z.to_nat i).
Proof.
  intros Hsolve Hn v. eexists. split; [|split; [reflexivity|split]].
  - unfold cuckoo_call.
    change (setheadergrin (with_verify ext v) header c0) with (setheadergrin ext header c0).
    rewrite Hsolve. cbn [mbind outcome_bind].
    destruct (Z.ltb_spec 0 nsols) as [_|?]; [|lia]. reflexivity.
  - intros i Hi Hlen. rewrite write_nonces_lookup by done.
    (* a positive count means a full first proof in [sols] *)
    assert (PROOFSIZE <= Z.of_nat (length (sols c))) as Hfull.
    { unfold solve in Hsolve.
      destruct (trim (trimmer (setheadergrin ext header c0))) as [rc t].
      destruct (rc =? 0); [injection Hsolve as <- _; lia|].
      destruct (negb copy_ok); [injection Hsolve as <- _; lia|].
      destruct (findcycles _ us0 vs0) as [c1| |]; cbn [mbind outcome_bind] in Hsolve;
        try discriminate.
      injection Hsolve as <- <-.
      unfold PROOFSIZE in *.
      destruct (Z.le_gt_cases 42 (Z.of_nat (length (sols c1)))) as [?|Hsmall]; [done|].
      rewrite Z.div_small in Hn by lia. lia. }
    unfold node_at. rewrite lookup_take_lt by (unfold PROOFSIZE in *; lia).
    destruct (sols c !! Z.to_nat i) eqn:Hs; [done|].
    apply lookup_ge_None in Hs. unfold PROOFSIZE in *. lia.
  - intros i Hi. by apply write_nonces_frame.
Qed.
End CallResult.

Section CallResultRun.
#[local] Existing Instance toy_params.

(** The theorem on the toy graph, whose 42-cycle the solver finds, with
    a proof check that rejects every proof. *)
Lemma cuckoo_call_result_ignores_verify_witness :
  let ext := toy_externals (fun _ _ => 0) in
  let stack := replicate 128 0 in
  let out := replicate 42 0 in
  let prf := take (Z.to_nat PROOFSIZE) (sols toy_solved) in
  exists ev,
    cuckoo_call (with_verify ext (fun _ _ => 1)) toy_trim true stack stack true toy_ctx [] out
    = Return (1, write_nonces out prf, ev)
    /\ ev = [PrintSolution prf;
             if 1 =? POW_OK then PrintVerified (blake2b ext prf) else PrintFailed 1]
            ++ [UpdateStats]
    /\ (forall i, 0 <= i < PROOFSIZE -> (Z.to_nat i < length out)%nat ->
          write_nonces out prf !! Z.to_nat i = sols toy_solved !! Z.to_nat i)
    /\ (forall i, PROOFSIZE <= i -> write_nonces out prf !! Z.to_nat i = out !! Z.to_nat i).
Proof.
  intros ext stack out prf.
  assert (solve toy_trim true stack stack (setheadergrin ext [] toy_ctx)
          = Return (1, toy_solved)) as Hsolve.
  { unfold toy_solved. apply (outcome_returned_pair _ 1 toy_ctx Z.eqb).
    - intros x y. apply Z.eqb_eq.
    - vm_compute. reflexivity. }
  exact (cuckoo_call_result_ignores_verify ext toy_trim true stack stack true toy_ctx []
           out 1 toy_solved Hsolve ltac:(lia) (fun _ _ => 1)).
Defined.
End CallResultRun.

(** The matrix miner's [cuckoo_call] makes no check at all: a positive
    solution count gives 1 and the nonces of the first solution. *)
Lemma matrix_cuckoo_call_result (solve : list Z -> Z * list (list Z))
    (header sol_nonces : list Z) (count : Z) :
  0 < fst (solve header) ->
  fst (fst (MatrixMiner.cuckoo_call solve header sol_nonces count)) = 1.
Proof.
  intros H. unfold MatrixMiner.cuckoo_call. destruct (solve header) as [n sols].
  cbn [fst] in *. by destruct (Z.ltb_spec 0 n); [|lia].
Qed.

(** * The vector operations of the edge function *)

(** The 64-bit rotation in arithmetic: the word shifted left, plus the bits
    that left it at the top. *)
Lemma ROTL_arith (z c : Z) :
  0 <= z < 2 ^ 64 -> 0 <= c < 64 ->
  ROTL z c = (z * 2 ^ c) mod 2 ^ 64 + z / 2 ^ (64 - c).
Proof.
  intros Hz Hc. unfold ROTL, u64.
  assert (0 < 2 ^ (64 - c)) as Hpos by (apply Z.pow_pos_nonneg; lia).
  assert (0 < 2 ^ c) as Hpos' by (apply Z.pow_pos_nonneg; lia).
  assert (0 <= z / 2 ^ (64 - c) < 2 ^ c) as Hhi.
  { split; [apply Z.div_pos; lia|]. apply Z.div_lt_upper_bound; [lia|].
    rewrite <- Z.pow_add_r by lia. replace (64 - c + c) with 64 by lia. lia. }
  assert (2 ^ c <= 2 ^ 64) by (apply Z.pow_le_mono_r; lia).
  rewrite <- Z.land_ones, Z.land_lor_distr_l, !Z.land_ones by lia.
  rewrite Z.shiftl_mul_pow2, Z.shiftr_div_pow2 by lia.
  rewrite (Z.mod_small (z / 2 ^ (64 - c))) by lia.
  rewrite <- Z.lxor_lor, <- Z.add_nocarry_lxor; try done.
  - apply Z.bits_inj'. intros k Hk. rewrite Z.land_spec, Z.bits_0.
    destruct (Z.ltb_spec k c) as [Hlt|Hge].
    + rewrite Z.mod_pow2_bits_low by (clear - Hc Hlt; lia).
      by rewrite Z.mul_pow2_bits_low by assumption.
    + rewrite (testbit_above (z / 2 ^ (64 - c)) c k) by (done || lia). apply andb_false_r.
  - apply Z.bits_inj'. intros k Hk. rewrite Z.land_spec, Z.bits_0.
    destruct (Z.ltb_spec k c) as [Hlt|Hge].
    + rewrite Z.mod_pow2_bits_low by (clear - Hc Hlt; lia).
      by rewrite Z.mul_pow2_bits_low by assumption.
    + rewrite (testbit_above (z / 2 ^ (64 - c)) c k) by (done || lia). apply andb_false_r.
Qed.

Lemma shf_l_wrap_high (a b c : Z) :
  32 <= c < 64 -> shf_l_wrap a b c = shf_l_wrap a b (c - 32).
Proof.
  intros Hc. unfold shf_l_wrap.
  assert (Z.land c 31 = Z.land (c - 32) 31) as ->; [|done].
  change 31 with (Z.ones 5). rewrite !Z.land_ones by lia. change (2 ^ 5) with 32.
  replace c with (c - 32 + 1 * 32) at 1 by lia. by rewrite Z.mod_add by lia.
Qed.

Lemma rep_rotl_high (a : uint2) (x c : Z) :
  32 < c < 64 -> rep a x -> rep (ROTL2 a c) (ROTL x c).
Proof.
  intros Hc [Ha <-].
  assert (uint2_wf (ROTL2 a c)) as Hwf.
  { unfold ROTL2. destruct (32 <=? c); split; apply u32_range. }
  split; [done|]. apply Z.bits_inj'. intros k Hk.
  rewrite testbit_devectorize, testbit_ROTL, !testbit_devectorize by (done || lia).
  unfold ROTL2. destruct (Z.leb_spec 32 c) as [_|?]; [|lia]. cbn [x_ y_].
  rewrite (shf_l_wrap_high (x_ a) (y_ a) c), (shf_l_wrap_high (y_ a) (x_ a) c) by lia.
  destruct Ha as [Hx Hy].
  destruct (Z.ltb_spec k 32), (Z.ltb_spec k 64),
    (Z.ltb_spec (k - c) 32), (Z.ltb_spec (k + (64 - c)) 32); try lia;
    rewrite !testbit_shf_l_wrap by lia;
    repeat match goal with
           | |- context [?i <? ?j] => destruct (Z.ltb_spec i j); try lia
           end;
    cbn [andb]; clear_outer_bits; rewrite ?orb_false_r, ?orb_false_l;
    try done; try (f_equal; lia); try (f_equal; f_equal; lia).
Qed.

Lemma rep_rotl_0 (a : uint2) (x : Z) : rep a x -> rep (ROTL2 a 0) (ROTL x 0).
Proof.
  intros [Ha <-]. pose proof (devectorize_range a Ha) as Hr.
  assert (ROTL (devectorize a) 0 = devectorize a) as ->.
  { unfold ROTL, u64. rewrite Z.shiftl_0_r. change (64 - 0) with 64.
    rewrite Z.shiftr_div_pow2, Z.div_small, Z.lor_0_r by lia. apply Z.mod_small. lia. }
  assert (ROTL2 a 0 = a) as ->; [|done].
  destruct a as [lo hi], Ha as [Hlo Hhi]. cbn [x_ y_] in *.
  unfold ROTL2, shf_l_wrap, u32. change (32 <=? 0) with false. cbn [x_ y_].
  change (Z.land 0 31) with 0. change (32 - 0) with 32.
  rewrite !Z.shiftl_0_r, !Z.shiftr_div_pow2 by lia.
  rewrite (Z.div_small lo), (Z.div_small hi), !Z.lor_0_r by lia.
  by rewrite !Z.mod_small by lia.
Qed.

(** X1: the funnel-shifter [ROTL] on [uint2] rotates the 64-bit word the
    two halves hold, for every offset from 0 to 63: the result is the word
    shifted left by the offset within 64 bits, plus the bits shifted out
    at the top. *)
Theorem uint2_ROTL_rotates (a : uint2) (c : Z) :
  uint2_wf a -> 0 <= c < 64 ->
  uint2_wf (ROTL2 a c) /\
  devectorize (ROTL2 a c)
  = (devectorize a * 2 ^ c) mod 2 ^ 64 + devectorize a / 2 ^ (64 - c).
Proof.
  intros Ha Hc. pose proof (devectorize_range a Ha) as Hr.
  rewrite <- ROTL_arith by done.
  assert (rep (ROTL2 a c) (ROTL (devectorize a) c)) as [Hwf Hz]; [|done].
  assert (rep a (devectorize a)) as Hrep by done.
  destruct (Z.eq_dec c 0) as [->|]; [by apply rep_rotl_0|].
  destruct (Z.eq_dec c 32) as [->|]; [by apply rep_rotl_32|].
  destruct (Z.lt_ge_cases c 32); [apply rep_rotl_low|apply rep_rotl_high]; (done || lia).
Qed.

Lemma uint2_ROTL_rotates_witness :
  devectorize (ROTL2 (make_uint2 (2 ^ 31 + 5) 3) 33)
  = (devectorize (make_uint2 (2 ^ 31 + 5) 3) * 2 ^ 33) mod 2 ^ 64
    + devectorize (make_uint2 (2 ^ 31 + 5) 3) / 2 ^ (64 - 33).
Proof.
  apply (uint2_ROTL_rotates (make_uint2 (2 ^ 31 + 5) 3) 33).
  - split; cbn [x_ y_]; lia.
  - lia.
Defined.

(** X2: [vectorize] splits a 64-bit word into its two 32-bit halves and
    [devectorize] joins them again: the two moves are inverse to each
    other, and a word above 64 bits is cut to 64 bits. *)
Theorem vectorize_devectorize_inverse (x : Z) (a : uint2) :
  uint2_wf (vectorize x) /\
  devectorize (vectorize x) = x mod 2 ^ 64 /\
  (uint2_wf a -> vectorize (devectorize a) = a).
Proof.
  assert (uint2_wf (vectorize x)) as Hwf by (split; apply u32_range).
  split; [done|]. split.
  - rewrite devectorize_sum by done. unfold vectorize, u32. cbn [x_ y_].
    rewrite Z.shiftr_div_pow2 by lia.
    change (2 ^ 64) with (2 ^ 32 * 2 ^ 32). rewrite Z.rem_mul_r by lia. done.
  - intros Ha. unfold vectorize. rewrite devectorize_sum by done.
    destruct a as [lo hi], Ha as [Hlo Hhi]. cbn [x_ y_] in *. unfold u32.
    rewrite Z.shiftr_div_pow2 by lia.
    replace (lo + 2 ^ 32 * hi) with (lo + hi * 2 ^ 32) by lia.
    rewrite Z.mod_add, Z.div_add, (Z.div_small lo), !Z.mod_small by lia. done.
Qed.

(** X3: [operator+=] on [uint2] adds the two 64-bit words modulo [2^64]:
    the carry out of the low halves ([add.cc]) enters the sum of the high
    halves ([addc]). *)
Theorem uint2_add_carries (a b : uint2) :
  uint2_wf a -> uint2_wf b ->
  uint2_wf (uint2_add a b) /\
  devectorize (uint2_add a b) = (devectorize a + devectorize b) mod 2 ^ 64.
Proof.
  intros Ha Hb.
  destruct (rep_add a b (devectorize a) (devectorize b)) as [Hwf Hsum]; done.
Qed.

Lemma uint2_add_carries_witness :
  uint2_wf (uint2_add (make_uint2 (2 ^ 32 - 1) 7) (make_uint2 1 0)) /\
  devectorize (uint2_add (make_uint2 (2 ^ 32 - 1) 7) (make_uint2 1 0))
  = (devectorize (make_uint2 (2 ^ 32 - 1) 7) + devectorize (make_uint2 1 0)) mod 2 ^ 64.
Proof.
  apply (uint2_add_carries (make_uint2 (2 ^ 32 - 1) 7) (make_uint2 1 0));
    split; cbn [x_ y_]; lia.
Defined.

Section EdgeFunctionFacts.
Context {P : BuildParams}.

(** X4: compiled for [__CUDA_ARCH__ >= 320], [dipnode] on [uint2] words
    is SipHash-2-4 of the message [2*i + s] under the four keys, cut to
    the [EDGEBITS] low bits: the computation on pairs of 32-bit halves
    gives what the 64-bit rounds give. *)
Theorem dipnode_uint2_is_siphash24 (keys : siphash_keys) (i s : Z) :
  320 <= CUDA_ARCH -> keys_ok keys -> 0 <= EDGEBITS <= 31 ->
  0 <= i < 2 ^ EDGEBITS -> 0 <= s <= 1 ->
  dipnode keys i s = Z.land (siphash24_spec keys (2 * i + s)) EDGEMASK.
Proof.
  intros Harch Hkeys HE Hi Hs. unfold dipnode.
  destruct (Z.leb_spec 320 CUDA_ARCH); [|lia].
  rewrite dipnode_vec_siphash by done. unfold edge_spec. reflexivity.
Qed.

(** X5: whatever the keys and the nonce, the node [dipnode] returns is
    below [NEDGES], so the bucket it is filed under exists ([node >>
    YZBITS] is below [NX]) and its [(X,Y)] prefix is an index of the
    [NXY]-bit map of [recoveredges1]. *)
Theorem dipnode_indexes_in_range (keys : siphash_keys) (n s : Z) :
  0 <= XBITS -> 2 * XBITS <= EDGEBITS ->
  0 <= dipnode keys n s < NEDGES /\
  0 <= Z.shiftr (dipnode keys n s) YZBITS < NX /\
  0 <= Z.shiftr (dipnode keys n s) ZBITS < NXY.
Proof.
  intros HX HE. assert (0 <= EDGEBITS) as HE0 by lia.
  pose proof (dipnode_range keys n s HE0) as Hd.
  set (d := dipnode keys n s) in *.
  unfold NEDGES, NX, NXY, YZBITS, ZBITS, XYBITS, YBITS.
  rewrite !Z.shiftl_1_l, !Z.shiftr_div_pow2 by lia.
  assert (0 < 2 ^ (XBITS + (EDGEBITS - (XBITS + XBITS)))) by (apply Z.pow_pos_nonneg; lia).
  assert (0 < 2 ^ (EDGEBITS - (XBITS + XBITS))) by (apply Z.pow_pos_nonneg; lia).
  repeat split; try lia; try (apply Z.div_pos; lia);
    apply Z.div_lt_upper_bound; try lia; rewrite <- Z.pow_add_r by lia.
  - replace (XBITS + (EDGEBITS - (XBITS + XBITS)) + XBITS) with EDGEBITS by lia.
    apply Hd.
  - replace (EDGEBITS - (XBITS + XBITS) + (XBITS + XBITS)) with EDGEBITS by lia.
    apply Hd.
Qed.
End EdgeFunctionFacts.

Lemma dipnode_uint2_is_siphash24_witness :
  dipnode (P := default_params) {| k0 := 1; k1 := 2; k2 := 3; k3 := 4 |} 12345 1
  = Z.land (siphash24_spec {| k0 := 1; k1 := 2; k2 := 3; k3 := 4 |} (2 * 12345 + 1))
           (EDGEMASK (P := default_params)).
Proof.
  apply (dipnode_uint2_is_siphash24 (P := default_params)
           {| k0 := 1; k1 := 2; k2 := 3; k3 := 4 |} 12345 1).
  - vm_compute. discriminate.
  - unfold keys_ok. cbn [k0 k1 k2 k3]. lia.
  - vm_compute. split; discriminate.
  - vm_compute. split; [discriminate|reflexivity].
  - lia.
Defined.

Lemma dipnode_indexes_in_range_witness :
  0 <= dipnode (P := default_params) {| k0 := 1; k1 := 2; k2 := 3; k3 := 4 |} 12345 1
     < NEDGES (P := default_params) /\
  0 <= Z.shiftr (dipnode (P := default_params) {| k0 := 1; k1 := 2; k2 := 3; k3 := 4 |} 12345 1)
                (YZBITS (P := default_params)) < NX (P := default_params) /\
  0 <= Z.shiftr (dipnode (P := default_params) {| k0 := 1; k1 := 2; k2 := 3; k3 := 4 |} 12345 1)
                (ZBITS (P := default_params)) < NXY (P := default_params).
Proof.
  apply (dipnode_indexes_in_range (P := default_params)
           {| k0 := 1; k1 := 2; k2 := 3; k3 := 4 |} 12345 1).
  - vm_compute. discriminate.
  - vm_compute. discriminate.
Defined.

(** * The degree bitmap in use: order of the calls, and a trimming round *)

Lemma lookup_word_at (bits : list Z) (i : nat) :
  (i < length bits)%nat -> bits !! i = Some (word_at bits (Z.of_nat i)).
Proof.
  intros Hi. unfold word_at. rewrite Nat2Z.id.
  destruct (bits !! i) eqn:Hl; [done|]. apply lookup_ge_None in Hl. lia.
Qed.

Lemma words_eq (l1 l2 : list Z) :
  length l1 = length l2 ->
  (forall i, 0 <= i -> word_at l1 i = word_at l2 i) -> l1 = l2.
Proof.
  intros Hlen Hw. apply list_eq. intros i.
  destruct (decide (i < length l1)%nat) as [Hi|Hi].
  - rewrite !lookup_word_at by lia. f_equal. apply Hw. lia.
  - rewrite !(proj2 (lookup_ge_None _ _)) by lia. done.
Qed.

Lemma set_word_commutes (w p q : Z) :
  0 <= p -> 0 <= q -> p mod 2 = 0 -> q mod 2 = 0 ->
  TwiceSet.set_word (TwiceSet.set_word w p) q = TwiceSet.set_word (TwiceSet.set_word w q) p.
Proof.
  intros Hp Hq Hpe Hqe. apply Z.bits_inj'. intros n Hn.
  rewrite !TwiceSetFacts.set_word_bits by lia.
  assert (p = 2 * (p / 2)) as Hp2 by (Z.div_mod_to_equations; lia).
  assert (q = 2 * (q / 2)) as Hq2 by (Z.div_mod_to_equations; lia).
  clear Hpe Hqe. revert Hp2 Hq2. generalize (p / 2) (q / 2). intros a b Hp2 Hq2.
  destruct (Z.eq_dec p q) as [->|Hne]; [done|].
  repeat match goal with
         | |- context [?a =? ?b] => destruct (Z.eqb_spec a b); try lia
         end;
    cbn [orb andb]; rewrite ?orb_false_r, ?orb_true_r, ?andb_false_r; try done;
    repeat match goal with
           | |- context [Z.testbit w ?k] => destruct (Z.testbit w k)
           end; done.
Qed.

(** X6: two calls of [twice_set::set] give the same bitmap in either
    order, so the state the threads leave does not depend on which call
    comes first. *)
Theorem twice_set_set_commutes (bits : list Z) (u v : Z) :
  0 <= u -> 0 <= v ->
  (Z.to_nat (u / 16) < length bits)%nat -> (Z.to_nat (v / 16) < length bits)%nat ->
  TwiceSet.set (TwiceSet.set bits u) v = TwiceSet.set (TwiceSet.set bits v) u.
Proof.
  intros Hu Hv Hlu Hlv.
  assert (0 <= u / 16) by (apply Z.div_pos; lia).
  assert (0 <= v / 16) by (apply Z.div_pos; lia).
  pose proof (Z.mod_pos_bound u 16 ltac:(lia)).
  pose proof (Z.mod_pos_bound v 16 ltac:(lia)).
  apply words_eq; [by rewrite !TwiceSetFacts.set_length|]. intros i Hi.
  destruct (Z.eq_dec (u / 16) (v / 16)) as [Heq|Hne].
  - destruct (Z.eq_dec i (u / 16)) as [->|Hi'].
    + rewrite Heq at 1. rewrite TwiceSetFacts.set_word_at
        by (rewrite ?TwiceSetFacts.set_length; done).
      rewrite <- Heq. rewrite !TwiceSetFacts.set_word_at
        by (rewrite ?TwiceSetFacts.set_length; done).
      rewrite Heq. rewrite TwiceSetFacts.set_word_at by done. rewrite <- Heq.
      apply set_word_commutes; try lia.
      * by rewrite Z.mul_comm, Z.mod_mul.
      * by rewrite Z.mul_comm, Z.mod_mul.
    + rewrite !TwiceSetFacts.set_word_other by (done || congruence). done.
  - destruct (Z.eq_dec i (u / 16)) as [->|Hiu]; [|destruct (Z.eq_dec i (v / 16)) as [->|Hiv]].
    + rewrite (TwiceSetFacts.set_word_other _ v) by done.
      rewrite !TwiceSetFacts.set_word_at by (rewrite ?TwiceSetFacts.set_length; done).
      by rewrite (TwiceSetFacts.set_word_other _ v) by done.
    + rewrite (TwiceSetFacts.set_word_other _ u) by (done || congruence).
      rewrite !TwiceSetFacts.set_word_at by (rewrite ?TwiceSetFacts.set_length; done).
      by rewrite (TwiceSetFacts.set_word_other _ u) by (done || congruence).
    + by rewrite !TwiceSetFacts.set_word_other by done.
Qed.

Lemma twice_set_set_commutes_witness :
  TwiceSet.set (TwiceSet.set [5; 0] 1) 17 = TwiceSet.set (TwiceSet.set [5; 0] 17) 1.
Proof.
  apply (twice_set_set_commutes [5; 0] 1 17); [lia|lia|vm_compute; lia|vm_compute; lia].
Defined.

(** ** [trimedges3] *)

Lemma foldl_bind {A B C} (f : A -> C -> A) (g : B -> list C) (l : list B) :
  forall a, foldl f a (l ≫= g) = foldl (fun a x => foldl f a (g x)) a l.
Proof.
  induction l as [|x l IH]; intros a; [done|].
  cbn [mbind list_bind foldl]. by rewrite foldl_app, IH.
Qed.

Lemma foldl_map {A B C} (f : A -> C -> A) (h : B -> C) (l : list B) :
  forall a, foldl f a (h <$> l) = foldl (fun a x => f a (h x)) a l.
Proof. induction l as [|x l IH]; intros a; [done|]. cbn [fmap list_fmap foldl]. apply IH. Qed.

Section Trim3Facts.
Context {P : BuildParams}.

Lemma trim3_count_set_all (TRIMONV : bool) (bk : Z -> Z -> list Z) (vx : Z) (degs : list Z) :
  trim3_count TRIMONV bk vx degs = TwiceSet.set_all degs (trim3_keys TRIMONV bk vx).
Proof.
  unfold trim3_count, trim3_keys, TwiceSet.set_all. rewrite foldl_bind.
  revert degs. induction (upto NX) as [|ux l IH]; intros degs; cbn [foldl]; [done|].
  by rewrite foldl_map, IH.
Qed.

Lemma key_range (e : Z) : 0 <= Z.land e YZ1MASK < NYZ1.
Proof.
  unfold YZ1MASK, NYZ1. rewrite land_mask_mod by (unfold YZ1BITS; lia).
  rewrite Z.shiftl_1_l. apply Z.mod_pos_bound. unfold YZ1BITS. lia.
Qed.

(** After the first loop, [degs.test] answers whether the key occurs at
    least twice in the partition. *)
Lemma trim3_test (TRIMONV : bool) (bk : Z -> Z -> list Z) (vx : Z) (degs0 : list Z) (e : Z) :
  (TwiceSet.test (trim3_count TRIMONV bk vx (TwiceSet.reset NYZ1 degs0))
                 (Z.land e YZ1MASK) =? 0)
  = negb (bool_decide (2 <= count_occ Z.eq_dec (trim3_keys TRIMONV bk vx)
                                      (Z.land e YZ1MASK))%nat).
Proof.
  rewrite trim3_count_set_all, TwiceSetFacts.test_seen2.
  pose proof (key_range e) as He.
  destruct (TwiceSetFacts.set_all_counts (trim3_keys TRIMONV bk vx)
              (TwiceSet.reset NYZ1 degs0) (Z.land e YZ1MASK)) as [_ ->]; [|lia|].
  - apply Forall_forall. intros k Hk. unfold trim3_keys in Hk.
    apply list_elem_of_bind in Hk as (ux & Hk & _).
    apply list_elem_of_fmap in Hk as (e' & -> & _).
    pose proof (key_range e') as He'. split; [lia|].
    rewrite TwiceSetFacts.reset_length. apply TwiceSetFacts.index_in_range; done.
  - destruct (TwiceSetFacts.reset_clear NYZ1 degs0 (Z.land e YZ1MASK)) as [-> ->].
    cbn [orb andb]. by destruct (bool_decide _).
Qed.

(** The in-place loop keeps, in order and from the start of the bucket,
    the words that pass the test, each rewritten. *)
Lemma trim3_keep_loop (degs : list Z) (rest : list Z) :
  forall (arr : list Z) (bw : Z) (i : nat),
  0 <= bw <= Z.of_nat i -> drop i arr = rest ->
  exists arr' bw',
    foldl (trim3_keep degs) (arr, bw) (seqZ (Z.of_nat i) (Z.of_nat (length rest)))
    = (arr', bw') /\
    0 <= bw' /\
    take (Z.to_nat bw') arr'
    = take (Z.to_nat bw) arr
      ++ (trim3_word <$> filter (fun e => TwiceSet.test degs (Z.land e YZ1MASK) <> 0) rest).
Proof.
  induction rest as [|e rest IH]; intros arr bw i Hbw Hdrop.
  - exists arr, bw. cbn. rewrite app_nil_r. repeat split; (done || lia).
  - assert (arr !! i = Some e) as Hi.
    { rewrite <- (Nat.add_0_r i), <- lookup_drop, Hdrop. done. }
    assert (i < length arr)%nat as Hlen by (by apply lookup_lt_Some in Hi).
    assert (drop (S i) arr = rest) as Hrest.
    { rewrite (drop_S _ _ _ Hi) in Hdrop. by injection Hdrop. }
    cbn [length]. rewrite Nat2Z.inj_succ, seqZ_cons, Z.pred_succ by lia.
    replace (Z.succ (Z.of_nat i)) with (Z.of_nat (S i)) by lia.
    cbn [foldl]. unfold trim3_keep at 2. rewrite Nat2Z.id, Hi.
    unfold default. cbn [from_option id].
    rewrite filter_cons.
    destruct (Z.eqb_spec (TwiceSet.test degs (Z.land e YZ1MASK)) 0) as [Hz|Hnz].
    + destruct (decide (TwiceSet.test degs (Z.land e YZ1MASK) <> 0)); [done|].
      apply IH; [lia|done].
    + destruct (decide (TwiceSet.test degs (Z.land e YZ1MASK) <> 0)); [|done].
      destruct (IH (<[Z.to_nat bw := trim3_word e]> arr) (bw + 1) (S i)) as
        (arr' & bw' & -> & Hbw' & Htake); [lia| |].
      { by rewrite drop_insert_lt by lia. }
      exists arr', bw'. repeat split; [done|]. rewrite Htake.
      replace (Z.to_nat (bw + 1)) with (S (Z.to_nat bw)) by lia.
      rewrite (take_S_r _ _ (trim3_word e)).
      * rewrite take_insert_ge by lia. cbn [fmap list_fmap]. by rewrite <- app_assoc.
      * apply list_lookup_insert_eq. lia.
Qed.

Lemma trim3_compact_filter (degs : list Z) (words : list Z) :
  trim3_compact degs words
  = trim3_word <$> filter (fun e => TwiceSet.test degs (Z.land e YZ1MASK) <> 0) words.
Proof.
  unfold trim3_compact, upto.
  destruct (trim3_keep_loop degs words words 0 0%nat) as (arr' & bw' & Hloop & _ & Htake);
    [lia|done|].
  change (Z.of_nat 0) with 0 in Hloop. by rewrite Hloop, Htake.
Qed.
End Trim3Facts.

Section Trim3Round.
Context {P : BuildParams}.

(** X7: a round of [trimedges3] leaves in every bucket, in their order
    and from the start of the bucket, exactly the words whose key (the
    low [YZ1BITS] bits, the node on the side trimmed) occurs at least
    twice among the words of the buckets of its partition, each with its
    two halves exchanged; a word of the bucket whose key occurs once,
    the edge of a node of degree one, is dropped. *)
Theorem trimedges3_keeps_degree_two
    (TRIMONV : bool) (degs0 : list Z) (bk : Z -> Z -> list Z) (a b : Z) :
  0 <= a < NX -> 0 <= b < NX ->
  trimedges3 TRIMONV degs0 bk a b
  = trim3_word <$>
      filter (fun e => (2 <= count_occ Z.eq_dec
                               (trim3_keys TRIMONV bk (if TRIMONV then b else a))
                               (Z.land e YZ1MASK))%nat)
             (bk a b)
  /\ forall e, e ∈ bk a b ->
       (1 <= count_occ Z.eq_dec (trim3_keys TRIMONV bk (if TRIMONV then b else a))
                       (Z.land e YZ1MASK))%nat.
Proof.
  intros Ha Hb. split.
  - unfold trimedges3.
    assert ((0 <=? (if TRIMONV then b else a)) && ((if TRIMONV then b else a) <? NY)
            && (0 <=? (if TRIMONV then a else b)) && ((if TRIMONV then a else b) <? NX)
            = true) as ->.
    { unfold NY, YBITS. fold NX. destruct TRIMONV;
        repeat (apply andb_true_intro; split); (apply Z.leb_le || apply Z.ltb_lt); lia. }
    rewrite trim3_compact_filter. f_equal. apply list_filter_iff. intros e.
    pose proof (trim3_test TRIMONV bk (if TRIMONV then b else a) degs0 e) as Ht.
    destruct (Z.eqb_spec (TwiceSet.test
                (trim3_count TRIMONV bk (if TRIMONV then b else a)
                   (TwiceSet.reset NYZ1 degs0)) (Z.land e YZ1MASK)) 0) as [Hz|Hz];
      destruct (bool_decide_reflect
                  (2 <= count_occ Z.eq_dec
                          (trim3_keys TRIMONV bk (if TRIMONV then b else a))
                          (Z.land e YZ1MASK))%nat); try done.
  - intros e He.
    assert (Z.land e YZ1MASK ∈ trim3_keys TRIMONV bk (if TRIMONV then b else a)) as Hin.
    { unfold trim3_keys. apply list_elem_of_bind.
      exists (if TRIMONV then a else b). split.
      - apply list_elem_of_fmap. exists e. split; [done|].
        unfold trim3_bucket. by destruct TRIMONV.
      - unfold upto. apply elem_of_seqZ. destruct TRIMONV; lia. }
    apply list_elem_of_In, (count_occ_In Z.eq_dec) in Hin. lia.
Qed.
End Trim3Round.

Lemma trimedges3_keeps_degree_two_witness :
  trimedges3 (P := tiny_params) true [] example_buckets 0 0
  = trim3_word <$>
      filter (fun e => (2 <= count_occ Z.eq_dec
                               (trim3_keys (P := tiny_params) true example_buckets 0)
                               (Z.land e YZ1MASK))%nat)
             (example_buckets 0 0)
  /\ forall e, e ∈ example_buckets 0 0 ->
       (1 <= count_occ Z.eq_dec (trim3_keys (P := tiny_params) true example_buckets 0)
                       (Z.land e YZ1MASK))%nat.
Proof.
  apply (trimedges3_keeps_degree_two (P := tiny_params) true [] example_buckets 0 0);
    vm_compute; split; (discriminate || reflexivity).
Defined.

(** In that matrix the word with the key 7 goes and the two with the key 5
    stay, halves exchanged. *)
Example trimedges3_run :
  trimedges3 (P := tiny_params) true [] example_buckets 0 0 = [5 * 2 ^ 15; 5 * 2 ^ 15 + 1]
  /\ trimedges3 (P := tiny_params) true [] example_buckets 1 0 = [].
Proof. vm_compute. done. Qed.

(** * Bucket records: bytes written and read back *)

Lemma le_bytes_bytes (n : nat) (x : Z) : Forall (fun b => 0 <= b < 256) (le_bytes n x).
Proof.
  revert x. induction n as [|n IH]; intros x; cbn [le_bytes]; constructor; [|apply IH].
  apply Z.mod_pos_bound. lia.
Qed.

Lemma le_value_range (p : list Z) :
  Forall (fun b => 0 <= b < 256) p -> 0 <= le_value p < 256 ^ Z.of_nat (length p).
Proof.
  induction 1 as [|b p Hb _ IH]; [cbn; lia|].
  cbn [le_value length]. rewrite Nat2Z.inj_succ, Z.pow_succ_r by lia. lia.
Qed.

(** The low [k] bytes of the value of [n] bytes are the value of the first
    [k] bytes. *)
Lemma le_value_take_mod (k : nat) :
  forall (n : nat) (p : list Z),
  Forall (fun b => 0 <= b < 256) p -> (k <= n)%nat ->
  le_value (take n p) mod 256 ^ Z.of_nat k = le_value (take k p).
Proof.
  induction k as [|k IH]; intros n p Hp Hk.
  - rewrite take_0. cbn [le_value]. change (256 ^ Z.of_nat 0) with 1. apply Z.mod_1_r.
  - destruct n as [|n]; [lia|]. destruct p as [|b p]; [done|].
    apply Forall_cons in Hp as [Hb Hp]. cbn [take le_value].
    rewrite Nat2Z.inj_succ, Z.pow_succ_r by lia.
    rewrite Z.rem_mul_r by lia.
    replace (b + 256 * le_value (take n p)) with (b + le_value (take n p) * 256) by lia.
    rewrite Z.mod_add, Z.div_add, (Z.mod_small b), (Z.div_small b) by lia.
    rewrite Z.add_0_l, IH by (done || lia). done.
Qed.

(** X8: [writebig<SIZE>] stores the [SIZE] low bytes of the word and
    [readbig<SIZE>] reads them back, whatever follows them in memory: for
    [SIZE] up to 8 the word comes back cut to [8*SIZE] bits. *)
Theorem writebig_readbig_roundtrip (SIZE x : Z) (rest : list Z) :
  0 <= SIZE <= 8 ->
  length (writebig SIZE x) = Z.to_nat SIZE /\
  Forall (fun b => 0 <= b < 256) (writebig SIZE x) /\
  readbig SIZE (writebig SIZE x ++ rest) = x mod 2 ^ (8 * SIZE).
Proof.
  intros HS. unfold writebig. rewrite le_bytes_length.
  split; [done|]. split; [apply le_bytes_bytes|].
  unfold readbig. rewrite take_app_length' by (by rewrite le_bytes_length).
  rewrite le_value_le_bytes, Z2Nat.id by lia.
  change 256 with (2 ^ 8). rewrite <- Z.pow_mul_r by lia.
  unfold u64. apply mod_pow2_mod_pow2. lia.
Qed.

Lemma writebig_readbig_roundtrip_witness :
  length (writebig 5 (2 ^ 41 + 77)) = Z.to_nat 5 /\
  Forall (fun b => 0 <= b < 256) (writebig 5 (2 ^ 41 + 77)) /\
  readbig 5 (writebig 5 (2 ^ 41 + 77) ++ [1; 2; 3]) = (2 ^ 41 + 77) mod 2 ^ (8 * 5).
Proof. apply (writebig_readbig_roundtrip 5 (2 ^ 41 + 77) [1; 2; 3]). lia. Defined.

Section RecordFacts.
Context {P : BuildParams}.

(** X9: the degree of a record is counted on [read16(p) & ZMASK] and
    tested on [readbig<SIZE>(p) & ZMASK]; the two are the same number
    when the [Z] field fits in two bytes ([ZBITS <= 16]) and the record
    has at least two ([SIZE >= 2]). *)
Theorem read16_agrees_on_Z_field (SIZE : Z) (p : list Z) :
  Forall (fun b => 0 <= b < 256) p -> 2 <= SIZE -> 0 <= ZBITS <= 16 ->
  Z.land (read16 p) ZMASK = Z.land (readbig SIZE p) ZMASK.
Proof.
  intros Hp HS HZ. unfold read16, readbig, ZMASK, NZ.
  rewrite !land_mask_mod by lia.
  rewrite <- (le_value_take_mod 2 (Z.to_nat SIZE) p) by (done || lia).
  change (256 ^ Z.of_nat 2) with (2 ^ 16). by rewrite mod_pow2_mod_pow2 by lia.
Qed.

(** X10: the record [genUnodes] files under bucket [ux = node >> YZBITS]
    gives the node back to its readers: the low [YZBITS] bits of the
    record are the node's, so [genVnodes1] reads the node's [Y] and [Z]
    fields from it, and the bucket index with these bits is the node;
    above them the record holds the nonce cut to [NONYZBITS] bits. *)
Theorem genU_record_fields (edge node : Z) :
  0 <= XBITS -> 2 * XBITS <= EDGEBITS -> EDGEBITS - XBITS <= 40 ->
  0 <= node < NEDGES ->
  let e := readbig BIGSIZE (genU_record edge node) in
  Z.land e YZMASK = Z.land node YZMASK /\
  Z.land (Z.shiftr e ZBITS) YMASK = Z.land (Z.shiftr node ZBITS) YMASK /\
  Z.land e ZMASK = Z.land node ZMASK /\
  Z.lor (Z.shiftl (Z.shiftr node YZBITS) YZBITS) (Z.land e YZMASK) = node /\
  Z.shiftr e YZBITS = edge mod 2 ^ NONYZBITS.
Proof.
  intros HX HE H40 Hnode e.
  assert (YZBITS = EDGEBITS - XBITS) as HYZ by (unfold YZBITS, ZBITS, XYBITS, YBITS; lia).
  assert (ZBITS = EDGEBITS - 2 * XBITS) as HZ by (unfold ZBITS, XYBITS, YBITS; lia).
  assert (e = (u64 (Z.lor (u64 (Z.shiftl edge YZBITS)) (Z.land node YZMASK))) mod 2 ^ 40)
    as He.
  { unfold e, genU_record. rewrite readbig_writebig by (unfold BIGSIZE; lia). done. }
  assert (forall k, 0 <= k < YZBITS -> Z.testbit e k = Z.testbit node k) as Hlow.
  { intros k Hk. rewrite He. unfold u64, YZMASK, NYZ.
    rewrite !Z.testbit_mod_pow2, Z.lor_spec, Z.land_spec by lia.
    rewrite Z.testbit_mod_pow2, Z.shiftl_spec, mask_ones by lia.
    rewrite Z.testbit_ones_nonneg by lia.
    destruct (Z.ltb_spec k 40), (Z.ltb_spec k 64), (Z.ltb_spec k YZBITS); try lia.
    rewrite (Z.testbit_neg_r edge) by lia. cbn. by rewrite andb_true_r. }
  unfold YZMASK, NYZ, YMASK, NY, ZMASK, NZ, YBITS in *.
  rewrite !mask_ones.
  repeat split.
  - apply Z.bits_inj'. intros k Hk. rewrite !Z.land_spec, !Z.testbit_ones_nonneg by lia.
    destruct (Z.ltb_spec k YZBITS); [|by rewrite !andb_false_r]. by rewrite Hlow by lia.
  - apply Z.bits_inj'. intros k Hk.
    rewrite !Z.land_spec, !Z.shiftr_spec, !Z.testbit_ones_nonneg by lia.
    destruct (Z.ltb_spec k XBITS); [|by rewrite !andb_false_r]. by rewrite Hlow by lia.
  - apply Z.bits_inj'. intros k Hk. rewrite !Z.land_spec, !Z.testbit_ones_nonneg by lia.
    destruct (Z.ltb_spec k ZBITS); [|by rewrite !andb_false_r]. by rewrite Hlow by lia.
  - apply Z.bits_inj'. intros k Hk.
    rewrite Z.lor_spec, Z.land_spec, Z.testbit_ones_nonneg, Z.shiftl_spec by lia.
    destruct (Z.ltb_spec k YZBITS).
    + rewrite Z.testbit_neg_r by lia. rewrite Hlow by lia. cbn. by rewrite andb_true_r.
    + rewrite Z.shiftr_spec by lia. rewrite andb_false_r, orb_false_r. f_equal. lia.
  - unfold e. apply genU_record_prefix. lia.
Qed.
End RecordFacts.

Lemma read16_agrees_on_Z_field_witness :
  Z.land (read16 [17; 200; 3; 4; 5]) (ZMASK (P := default_params))
  = Z.land (readbig 5 [17; 200; 3; 4; 5]) (ZMASK (P := default_params)).
Proof.
  apply (read16_agrees_on_Z_field (P := default_params) 5 [17; 200; 3; 4; 5]).
  - repeat constructor; lia.
  - lia.
  - vm_compute. split; discriminate.
Defined.

Lemma genU_record_fields_witness :
  let e := readbig BIGSIZE (genU_record (P := default_params) 123456789 300000001) in
  Z.land e (YZMASK (P := default_params)) = Z.land 300000001 (YZMASK (P := default_params)) /\
  Z.land (Z.shiftr e (ZBITS (P := default_params))) (YMASK (P := default_params))
  = Z.land (Z.shiftr 300000001 (ZBITS (P := default_params))) (YMASK (P := default_params)) /\
  Z.land e (ZMASK (P := default_params)) = Z.land 300000001 (ZMASK (P := default_params)) /\
  Z.lor (Z.shiftl (Z.shiftr 300000001 (YZBITS (P := default_params)))
                  (YZBITS (P := default_params)))
        (Z.land e (YZMASK (P := default_params))) = 300000001 /\
  Z.shiftr e (YZBITS (P := default_params))
  = 123456789 mod 2 ^ NONYZBITS (P := default_params).
Proof.
  apply (genU_record_fields (P := default_params) 123456789 300000001).
  - vm_compute. discriminate.
  - vm_compute. discriminate.
  - vm_compute. discriminate.
  - vm_compute. split; [discriminate|reflexivity].
Defined.

(** * The cycle finder: paths, their ends, and the edge that joins two trees *)

Section PathResults.
Context {P : BuildParams}.

(** X11: what [path] returns. From nil it returns [~0] (the count [nu-1]
    wraps) and writes nothing. From a node it returns the index [nu] of
    the last node of the path, below [MAXPATHLEN]; [us[0..nu]] holds the
    nodes met, each the table entry of the one before, none of them nil;
    the entry of the last is nil; and [us] is untouched above [nu]. *)
Theorem path_returns_walk (ck : gmap Z Z) (u : Z) (us : list Z) (nu : Z) (us' : list Z) :
  0 <= EDGEBITS <= 31 ->
  length us = Z.to_nat MAXPATHLEN ->
  path ck u us = Return (nu, us') ->
  (u = CUCKOO_NIL /\ nu = 2 ^ 32 - 1 /\ us' = us) \/
  (u <> CUCKOO_NIL /\ 0 <= nu < MAXPATHLEN /\
   node_at us' 0 = u /\
   (forall j, 0 <= j < nu -> node_at us' (j + 1) = cuckoo_at ck (node_at us' j)) /\
   (forall j, 0 <= j <= nu -> node_at us' j <> CUCKOO_NIL) /\
   cuckoo_at ck (node_at us' nu) = CUCKOO_NIL /\
   (forall i, nu < i -> us' !! Z.to_nat i = us !! Z.to_nat i) /\
   length us' = length us).
Proof.
  intros HE Hlen Hret. destruct (Z.eq_dec u CUCKOO_NIL) as [->|Hu].
  - left. unfold path in Hret. destruct (Z.to_nat MAXPATHLEN); cbn in Hret;
      injection Hret as <- <-; done.
  - right. destruct (path_return ck u us nu us' HE Hlen Hu Hret)
      as (Hnu & [Hend Hnodes] & _ & Hw & Hhigh & Hl).
    repeat split; try done; try lia.
    + by rewrite Hw by lia.
    + intros j Hj. rewrite !Hw by lia.
      replace (Z.to_nat (j + 1)) with (S (Z.to_nat j)) by lia. apply walk_S.
    + intros j Hj. rewrite Hw by lia. apply Hnodes. lia.
    + rewrite Hw by lia. by rewrite <- walk_S.
Qed.



End PathResults.

Lemma path_returns_walk_witness :
  let ck := example_chain in
  let us := replicate 32 7 in
  let us' := [0; 2; 4] ++ replicate 29 7 in
  (0 = CUCKOO_NIL /\ 2 = 2 ^ 32 - 1 /\ us' = us) \/
  (0 <> CUCKOO_NIL /\ 0 <= 2 < MAXPATHLEN (P := tiny_params) /\
   node_at us' 0 = 0 /\
   (forall j, 0 <= j < 2 -> node_at us' (j + 1) = cuckoo_at ck (node_at us' j)) /\
   (forall j, 0 <= j <= 2 -> node_at us' j <> CUCKOO_NIL) /\
   cuckoo_at ck (node_at us' 2) = CUCKOO_NIL /\
   (forall i, 2 < i -> us' !! Z.to_nat i = us !! Z.to_nat i) /\
   length us' = length us).
Proof.
  intros ck us us'.
  apply (path_returns_walk (P := tiny_params) ck 0 us 2 us').
  - vm_compute. split; discriminate.
  - reflexivity.
  - vm_compute. reflexivity.
Defined.


Section EdgeEndpoints.
Context {P : BuildParams}.

(** X13: the two endpoints [findcycles] makes of a word [e] of bucket
    [(ux,vx)]: [u0] is even and [v0] is odd, so a U node is never a V
    node; both are indices of the table of [CUCKOO_SIZE] entries and
    neither is [CUCKOO_NIL], so the guard [u0 != CUCKOO_NIL] never skips
    an edge; and the halves [u0/2] and [v0/2] are the bucket index with
    the high and the low [YZ2BITS] bits of the word. *)
Theorem edge_endpoints_in_table (ux vx e : Z) :
  0 <= XBITS <= 21 -> 0 <= ux < NX -> 0 <= vx < NX -> 0 <= e < NYZ2 * NYZ2 ->
  edge_u0 ux e mod 2 = 0 /\ edge_v0 vx e mod 2 = 1 /\
  0 <= edge_u0 ux e < CUCKOO_SIZE /\ 0 <= edge_v0 vx e < CUCKOO_SIZE /\
  edge_u0 ux e <> CUCKOO_NIL /\ edge_v0 vx e <> CUCKOO_NIL /\
  edge_u0 ux e / 2 = ux * NYZ2 + e / NYZ2 /\
  edge_v0 vx e / 2 = vx * NYZ2 + e mod NYZ2.
Proof.
  intros HX Hux Hvx He.
  assert (0 < NX <= 2 ^ 21) as HNX.
  { unfold NX. rewrite Z.shiftl_1_l.
    split; [apply Z.pow_pos_nonneg; lia|apply Z.pow_le_mono_r; lia]. }
  change NYZ2 with 512 in *. unfold CUCKOO_SIZE, CUCKOO_NIL. change NYZ2 with 512.
  assert (Z.lor (u32 (Z.shiftl ux YZ2BITS)) (Z.shiftr e YZ2BITS) = ux * 512 + e / 512) as Hu.
  { unfold YZ2BITS. rewrite Z.shiftl_mul_pow2, Z.shiftr_div_pow2 by lia.
    change (2 ^ 9) with 512. rewrite u32_small by lia.
    assert (0 <= e / 512 < 2 ^ 9) by (split; [apply Z.div_pos|apply Z.div_lt_upper_bound]; lia).
    rewrite <- Z.lxor_lor, <- Z.add_nocarry_lxor; try done;
      apply Z.bits_inj'; intros k Hk; rewrite Z.land_spec, Z.bits_0;
      (destruct (Z.ltb_spec k 9);
       [change 512 with (2 ^ 9); by rewrite Z.mul_pow2_bits_low by lia
       |rewrite (testbit_above (e / 512) 9 k) by lia; apply andb_false_r]). }
  assert (Z.lor (u32 (Z.shiftl vx YZ2BITS)) (Z.land e YZ2MASK) = vx * 512 + e mod 512) as Hv.
  { unfold YZ2BITS. rewrite Z.shiftl_mul_pow2 by lia.
    change (2 ^ 9) with 512. rewrite u32_small by lia.
    change YZ2MASK with (Z.ones 9). rewrite Z.land_ones by lia. change (2 ^ 9) with 512.
    pose proof (Z.mod_pos_bound e 512 ltac:(lia)).
    rewrite <- Z.lxor_lor, <- Z.add_nocarry_lxor; try done;
      apply Z.bits_inj'; intros k Hk; rewrite Z.land_spec, Z.bits_0;
      (destruct (Z.ltb_spec k 9);
       [change 512 with (2 ^ 9); by rewrite Z.mul_pow2_bits_low by lia
       |rewrite (testbit_above (e mod 512) 9 k) by lia; apply andb_false_r]). }
  assert (0 <= e / 512 < 512) by (split; [apply Z.div_pos|apply Z.div_lt_upper_bound]; lia).
  pose proof (Z.mod_pos_bound e 512 ltac:(lia)).
  assert (edge_u0 ux e = 2 * (ux * 512 + e / 512)) as ->.
  { unfold edge_u0. cbv zeta. rewrite Hu, Z.shiftl_mul_pow2 by lia.
    rewrite u32_small by lia. lia. }
  assert (edge_v0 vx e = 2 * (vx * 512 + e mod 512) + 1) as ->.
  { unfold edge_v0. cbv zeta. rewrite Hv, Z.shiftl_mul_pow2 by lia.
    rewrite u32_small by (change (2 ^ 1) with 2; lia).
    assert (Z.land ((vx * 512 + e mod 512) * 2 ^ 1) 1 = 0) as Hland.
    { apply Z.bits_inj'. intros k Hk. rewrite Z.land_spec, Z.bits_0.
      destruct (Z.eq_dec k 0) as [->|].
      - by rewrite Z.mul_pow2_bits_low by lia.
      - rewrite (testbit_above 1 1 k) by lia. apply andb_false_r. }
    rewrite <- Z.lxor_lor, <- Z.add_nocarry_lxor by done. change (2 ^ 1) with 2. lia. }
  repeat split; try lia; Z.div_mod_to_equations; lia.
Qed.
End EdgeEndpoints.

Lemma edge_endpoints_in_table_witness :
  edge_u0 100 (511 * 512 + 3) mod 2 = 0 /\
  edge_v0 127 (511 * 512 + 3) mod 2 = 1 /\
  0 <= edge_u0 100 (511 * 512 + 3) < CUCKOO_SIZE (P := default_params) /\
  0 <= edge_v0 127 (511 * 512 + 3) < CUCKOO_SIZE (P := default_params) /\
  edge_u0 100 (511 * 512 + 3) <> CUCKOO_NIL /\
  edge_v0 127 (511 * 512 + 3) <> CUCKOO_NIL /\
  edge_u0 100 (511 * 512 + 3) / 2
  = 100 * NYZ2 + (511 * 512 + 3) / NYZ2 /\
  edge_v0 127 (511 * 512 + 3) / 2
  = 127 * NYZ2 + (511 * 512 + 3) mod NYZ2.
Proof.
  apply (edge_endpoints_in_table (P := default_params) 100 127 (511 * 512 + 3)).
  - vm_compute. split; discriminate.
  - vm_compute. split; [discriminate|reflexivity].
  - vm_compute. split; [discriminate|reflexivity].
  - vm_compute. split; [discriminate|reflexivity].
Defined.

Section JoinTrees.
Context {P : BuildParams}.

(** The loop that reverses a path of distinct nodes: each node but the
    first now points to the one before it, and nothing else is written. *)
Lemma relink_spec (us : list Z) (n : nat) :
  forall ck : gmap Z Z,
  Z.of_nat n < 2 ^ 31 ->
  (forall i j : nat, (i <= n)%nat -> (j <= n)%nat ->
     node_at us (Z.of_nat i) = node_at us (Z.of_nat j) -> i = j) ->
  (forall i : nat, (i < n)%nat ->
     cuckoo_at (relink n us ck) (node_at us (Z.of_nat (S i))) = node_at us (Z.of_nat i)) /\
  (forall x, (forall i : nat, (1 <= i <= n)%nat -> x <> node_at us (Z.of_nat i)) ->
     cuckoo_at (relink n us ck) x = cuckoo_at ck x).
Proof.
  induction n as [|n IH]; intros ck Hn Hinj; cbn [relink].
  - split; [intros i Hi; lia|done].
  - rewrite u32_small by lia.
    replace (Z.of_nat n + 1) with (Z.of_nat (S n)) by lia.
    destruct (IH (<[node_at us (Z.of_nat (S n)) := node_at us (Z.of_nat n)]> ck))
      as [Hrev Hframe]; [lia|intros i j Hi Hj; apply Hinj; lia|].
    split.
    + intros i Hi. destruct (decide (i = n)) as [->|Hne]; [|apply Hrev; lia].
      rewrite Hframe.
      * unfold cuckoo_at. by rewrite lookup_insert_eq.
      * intros j Hj Heq. apply Hinj in Heq; lia.
    + intros x Hx. rewrite Hframe by (intros i Hi; apply Hx; lia).
      unfold cuckoo_at. rewrite lookup_insert_ne; [done|].
      intros Heq. by apply (Hx (S n) ltac:(lia)).
Qed.

(** Adding the edge [(a0, b0)] at the end of the path of [a0], the two
    paths ending at different roots. *)
Lemma link_paths (ck : gmap Z Z) (a0 b0 : Z) (pa : list Z) (na nb : nat) :
  Z.of_nat na < 2 ^ 31 ->
  ends_after ck (S na) a0 -> ends_after ck (S nb) b0 ->
  (forall i, (i <= na)%nat -> node_at pa (Z.of_nat i) = walk ck i a0) ->
  walk ck na a0 <> walk ck nb b0 ->
  joined ck (<[a0 := b0]> (relink na pa ck)) a0 b0 na nb.
Proof.
  intros Hna Ha Hb Hpa Hroots.
  assert (forall i j : nat, (i <= na)%nat -> (j <= na)%nat ->
            walk ck i a0 = walk ck j a0 -> i = j) as Hinj.
  { intros i j Hi Hj Hij.
    pose proof (ends_after_walk ck (S na) i a0 ltac:(lia) Ha) as E1.
    pose proof (ends_after_walk ck (S na) j a0 ltac:(lia) Ha) as E2.
    rewrite Hij in E1. pose proof (ends_after_unique _ _ _ _ E1 E2). lia. }
  assert (forall i j : nat, (i <= na)%nat -> (j <= nb)%nat ->
            walk ck i a0 <> walk ck j b0) as Hdisj.
  { intros i j Hi Hj Hij.
    pose proof (ends_after_walk ck (S na) i a0 ltac:(lia) Ha) as E1.
    pose proof (ends_after_walk ck (S nb) j b0 ltac:(lia) Hb) as E2.
    rewrite Hij in E1. pose proof (ends_after_unique _ _ _ _ E1 E2) as Heq.
    apply Hroots.
    replace na with (i + (na - i))%nat by lia. replace nb with (j + (nb - j))%nat by lia.
    rewrite !walk_add, Hij. f_equal. lia. }
  destruct (relink_spec pa na ck Hna) as [Hrev Hframe].
  { intros i j Hi Hj. rewrite !Hpa by lia. by apply Hinj. }
  set (ck' := <[a0 := b0]> (relink na pa ck)).
  assert (cuckoo_at ck' a0 = b0) as H1.
  { unfold cuckoo_at, ck'. by rewrite lookup_insert_eq. }
  assert (forall i, (i < na)%nat -> cuckoo_at ck' (walk ck (S i) a0) = walk ck i a0) as H2.
  { intros i Hi. unfold cuckoo_at, ck'. rewrite lookup_insert_ne.
    - fold (cuckoo_at (relink na pa ck) (walk ck (S i) a0)).
      rewrite <- !Hpa by lia. by apply Hrev.
    - intros Heq. change a0 with (walk ck 0 a0) in Heq at 1. apply Hinj in Heq; lia. }
  assert (forall x, (forall i, (i <= na)%nat -> x <> walk ck i a0) ->
            cuckoo_at ck' x = cuckoo_at ck x) as H3.
  { intros x Hx. unfold cuckoo_at at 1. unfold ck'. rewrite lookup_insert_ne.
    - fold (cuckoo_at (relink na pa ck) x). apply Hframe.
      intros i Hi. rewrite Hpa by lia. apply Hx. lia.
    - intros Heq. by apply (Hx 0%nat ltac:(lia)). }
  assert (forall j, (j <= S nb)%nat -> walk ck' j b0 = walk ck j b0) as Hb'.
  { induction j as [|j IHj]; intros Hj; [done|].
    rewrite !walk_S, IHj by lia. apply H3. intros i Hi Heq.
    by apply (Hdisj i j ltac:(lia) ltac:(lia)). }
  assert (forall j, (j <= S nb)%nat -> walk ck' (S j) a0 = walk ck j b0) as H4.
  { intros j Hj. cbn [walk]. rewrite H1. by apply Hb'. }
  repeat split; try done.
  - induction i as [|i IHi]; intros Hi; [done|].
    change (walk ck' (S i) (walk ck (S i) a0))
      with (walk ck' i (cuckoo_at ck' (walk ck (S i) a0))).
    rewrite H2 by lia. apply IHi. lia.
  - intros j Hj. apply H4. lia.
  - rewrite H4 by lia. apply Hb.
  - intros [|j] Hj.
    + cbn [walk]. destruct Ha as [_ Ha]. apply (Ha 0%nat). lia.
    + rewrite H4 by lia. destruct Hb as [_ Hb]. apply Hb. lia.
Qed.

(** X14: an edge whose two paths end at different roots joins the two
    trees. [findcycles] returns with the log of cycles and the solutions
    as they were; the table has the edge at the end of the shorter path
    (of the path of [v0] when they are as long), that path reversed, and
    no other entry changed: the nodes of the reversed path lead to its
    first node, and from there the path goes on along the other one to
    its root. *)
Theorem findcycles_edge_joins_trees
    (ux vx e : Z) (st : fc_state) (nu nv : Z) (us1 vs1 : list Z) :
  0 <= EDGEBITS <= 31 -> 0 <= XBITS <= 9 -> 0 <= vx < NX ->
  0 <= e < NYZ2 * NYZ2 ->
  length (us st) = Z.to_nat MAXPATHLEN -> length (vs st) = Z.to_nat MAXPATHLEN ->
  path (cuckoo (ctx st)) (edge_u0 ux e) (us st) = Return (nu, us1) ->
  path (cuckoo (ctx st)) (edge_v0 vx e) (vs st) = Return (nv, vs1) ->
  node_at us1 nu <> node_at vs1 nv ->
  exists st',
    findcycles_edge ux vx st e = Return st' /\
    us st' = us1 /\ vs st' = vs1 /\
    found (ctx st') = found (ctx st) /\ sols (ctx st') = sols (ctx st) /\
    (nu < nv ->
     joined (cuckoo (ctx st)) (cuckoo (ctx st')) (edge_u0 ux e) (edge_v0 vx e)
            (Z.to_nat nu) (Z.to_nat nv)) /\
    (nv <= nu ->
     joined (cuckoo (ctx st)) (cuckoo (ctx st')) (edge_v0 vx e) (edge_u0 ux e)
            (Z.to_nat nv) (Z.to_nat nu)).
Proof.
  intros HE HX Hvx He Hlu Hlv Hpu Hpv Hroot.
  pose proof (MAXPATHLEN_range HE) as HM.
  set (ck := cuckoo (ctx st)) in *.
  set (u0 := edge_u0 ux e) in *. set (v0 := edge_v0 vx e) in *.
  destruct (path_return ck u0 (us st) nu us1 HE Hlu (edge_u0_not_nil ux e) Hpu)
    as (Hnu & Hendu & _ & Hwu & _ & _).
  destruct (path_return ck v0 (vs st) nv vs1 HE Hlv (edge_v0_not_nil vx e HX Hvx) Hpv)
    as (Hnv & Hendv & _ & Hwv & _ & _).
  assert (walk ck (Z.to_nat nu) u0 <> walk ck (Z.to_nat nv) v0) as Hroots.
  { by rewrite <- Hwu, <- Hwv by lia. }
  assert (forall i, (i <= Z.to_nat nu)%nat -> node_at us1 (Z.of_nat i) = walk ck i u0) as Hpa.
  { intros i Hi. rewrite Hwu by lia. by rewrite Nat2Z.id. }
  assert (forall i, (i <= Z.to_nat nv)%nat -> node_at vs1 (Z.of_nat i) = walk ck i v0) as Hpb.
  { intros i Hi. rewrite Hwv by lia. by rewrite Nat2Z.id. }
  unfold findcycles_edge.
  change (u32 (NYZ2 * NYZ2)) with (NYZ2 * NYZ2).
  destruct (Z.ltb_spec e (NYZ2 * NYZ2)) as [_|?]; [|lia].
  cbn [assert mbind outcome_bind]. fold u0 v0 ck.
  destruct (Z.eqb_spec u0 CUCKOO_NIL) as [Habs|_]; [by destruct (edge_u0_not_nil ux e)|].
  rewrite Hpu. cbn [mbind outcome_bind]. rewrite Hpv. cbn [mbind outcome_bind].
  destruct (Z.eqb_spec (node_at us1 nu) (node_at vs1 nv)) as [?|_]; [done|].
  destruct (Z.ltb_spec nu nv) as [Hlt|Hge]; eexists; (split; [reflexivity|]);
    cbn [ctx us vs with_cuckoo cuckoo found sols];
    do 4 (split; [done|]); (split; intros Hcmp; [try lia|try lia]);
    apply link_paths; try done; try lia; intros Heq; by apply Hroots.
Qed.
End JoinTrees.

Lemma findcycles_edge_joins_trees_witness :
  let st := example_two_trees in
  let us1 := [4; 3; 2] ++ replicate 29 0 in
  let vs1 := [1; 0] ++ replicate 30 0 in
  exists st',
    findcycles_edge (P := tiny_params) 0 0 st 1024 = Return st' /\
    us st' = us1 /\ vs st' = vs1 /\
    found (ctx st') = found (ctx st) /\ sols (ctx st') = sols (ctx st) /\
    (2 < 1 ->
     joined (cuckoo (ctx st)) (cuckoo (ctx st')) (edge_u0 0 1024) (edge_v0 0 1024)
            (Z.to_nat 2) (Z.to_nat 1)) /\
    (1 <= 2 ->
     joined (cuckoo (ctx st)) (cuckoo (ctx st')) (edge_v0 0 1024) (edge_u0 0 1024)
            (Z.to_nat 1) (Z.to_nat 2)).
Proof.
  intros st us1 vs1.
  apply (findcycles_edge_joins_trees (P := tiny_params) 0 0 1024 st 2 1 us1 vs1).
  - vm_compute. split; discriminate.
  - vm_compute. split; discriminate.
  - vm_compute. split; [discriminate|reflexivity].
  - vm_compute. split; [discriminate|reflexivity].
  - reflexivity.
  - reflexivity.
  - vm_compute. reflexivity.
  - vm_compute. reflexivity.
  - vm_compute. discriminate.
Defined.

(** * The solution: the edges recorded, the order of the nonces, the result *)

(** [(k+1) & ~1] and [k | 1] are the even and the odd one of [k] and
    [k+1]. *)
Lemma even_of_pair (k : Z) :
  0 <= k < 2 ^ 31 -> Z.land (u32 (k + 1)) (2 ^ 32 - 2) = 2 * ((k + 1) / 2).
Proof.
  intros Hk. rewrite u32_small by lia. apply Z.bits_inj'. intros n Hn.
  rewrite Z.land_spec.
  destruct (Z.eq_dec n 0) as [->|Hn0].
  - rewrite Z.testbit_even_0. apply andb_false_r.
  - replace n with (Z.succ (n - 1)) at 3 by lia. rewrite Z.testbit_even_succ by lia.
    rewrite <- (Z.shiftr_div_pow2 _ 1), Z.shiftr_spec by lia.
    replace (n - 1 + 1) with n by lia.
    destruct (Z.ltb_spec n 32).
    + replace (2 ^ 32 - 2) with (Z.shiftl (Z.ones 31) 1) by done.
      rewrite Z.shiftl_spec, Z.testbit_ones_nonneg by lia.
      destruct (Z.ltb_spec (n - 1) 31); [|lia]. apply andb_true_r.
    + rewrite (testbit_above (k + 1) 32 n), (testbit_above (2 ^ 32 - 2) 32 n) by lia. done.
Qed.

Lemma odd_of_pair (k : Z) : 0 <= k -> Z.lor k 1 = 2 * (k / 2) + 1.
Proof.
  intros Hk. apply Z.bits_inj'. intros n Hn. rewrite Z.lor_spec.
  destruct (Z.eq_dec n 0) as [->|Hn0].
  - rewrite Z.testbit_odd_0. apply orb_true_r.
  - replace n with (Z.succ (n - 1)) at 3 by lia. rewrite Z.testbit_odd_succ by lia.
    rewrite <- (Z.shiftr_div_pow2 _ 1), Z.shiftr_spec by lia.
    replace (n - 1 + 1) with n by lia.
    by rewrite (testbit_above 1 1 n), orb_false_r by lia.
Qed.

Section RecordedEdges.
Context {P : BuildParams}.

Lemma node_at_insert_eq (l : list Z) (i x : Z) :
  0 <= i -> (Z.to_nat i < length l)%nat -> node_at (<[Z.to_nat i := x]> l) i = x.
Proof. intros Hi Hl. unfold node_at. by rewrite list_lookup_insert_eq. Qed.

Lemma node_at_insert_ne (l : list Z) (i j x : Z) :
  0 <= i -> 0 <= j -> i <> j -> node_at (<[Z.to_nat i := x]> l) j = node_at l j.
Proof. intros Hi Hj Hne. unfold node_at. rewrite list_lookup_insert_ne; [done|lia]. Qed.

Lemma recordedge_spec (uvn : list Z) (i a b : Z) :
  0 <= i < 2 ^ 30 -> (Z.to_nat (2 * i + 1) < length uvn)%nat ->
  length (recordedge uvn i a b) = length uvn /\
  node_at (recordedge uvn i a b) (2 * i) = a / 2 /\
  node_at (recordedge uvn i a b) (2 * i + 1) = b / 2 /\
  forall s, 0 <= s -> s <> 2 * i -> s <> 2 * i + 1 ->
            node_at (recordedge uvn i a b) s = node_at uvn s.
Proof.
  intros Hi Hl. unfold recordedge. rewrite !u32_small by lia.
  rewrite !length_insert. repeat split.
  - rewrite node_at_insert_ne, node_at_insert_eq by lia. done.
  - rewrite node_at_insert_eq; [done|lia|]. rewrite length_insert. lia.
  - intros s Hs H1 H2. by rewrite !node_at_insert_ne by lia.
Qed.

(** The loop over the path of [us]: turn [k] (counted down) records the
    edge between the nodes [k] and [k+1] of the path, the node at the
    even index first. *)
Lemma record_us_spec (us : list Z) (n : nat) :
  forall (ni : Z) (uvn : list Z),
  0 <= ni -> (Z.to_nat (2 * (ni + Z.of_nat n)) <= length uvn)%nat ->
  ni + Z.of_nat n < 2 ^ 30 ->
  exists uvn',
    record_us n us ni uvn = (ni + Z.of_nat n, uvn') /\
    length uvn' = length uvn /\
    (forall k, 0 <= k < Z.of_nat n ->
       node_at uvn' (2 * (ni + Z.of_nat n - 1 - k))
       = node_at us (2 * ((k + 1) / 2)) / 2 /\
       node_at uvn' (2 * (ni + Z.of_nat n - 1 - k) + 1)
       = node_at us (2 * (k / 2) + 1) / 2) /\
    (forall s, 0 <= s -> s < 2 * ni \/ 2 * (ni + Z.of_nat n) <= s ->
               node_at uvn' s = node_at uvn s).
Proof.
  induction n as [|n IH]; intros ni uvn Hni Hlen Hsmall; cbn [record_us].
  - exists uvn. rewrite Z.add_0_r. repeat split; try done; lia.
  - rewrite u32_small by lia.
    rewrite even_of_pair, odd_of_pair by lia.
    set (a := node_at us (2 * ((Z.of_nat n + 1) / 2))).
    set (b := node_at us (2 * (Z.of_nat n / 2) + 1)).
    destruct (recordedge_spec uvn ni a b) as (Hl & Ha & Hb & Hframe); [lia|lia|].
    destruct (IH (ni + 1) (recordedge uvn ni a b)) as (uvn' & -> & Hl' & Hk' & Hframe');
      [lia|rewrite Hl; lia|lia|].
    exists uvn'. repeat split.
    + f_equal. lia.
    + congruence.
    + destruct (Z.eq_dec k (Z.of_nat n)) as [->|Hne].
      * replace (ni + Z.of_nat (S n) - 1 - Z.of_nat n) with ni by lia.
        rewrite Hframe' by lia. done.
      * replace (ni + Z.of_nat (S n) - 1 - k) with (ni + 1 + Z.of_nat n - 1 - k) by lia.
        apply Hk'. lia.
    + destruct (Z.eq_dec k (Z.of_nat n)) as [->|Hne].
      * replace (ni + Z.of_nat (S n) - 1 - Z.of_nat n) with ni by lia.
        rewrite Hframe' by lia. done.
      * replace (ni + Z.of_nat (S n) - 1 - k) with (ni + 1 + Z.of_nat n - 1 - k) by lia.
        apply Hk'. lia.
    + intros s Hs Hout. rewrite Hframe' by lia. apply Hframe; lia.
Qed.

(** The loop over the path of [vs]: the node at the odd index first. *)
Lemma record_vs_spec (vs : list Z) (n : nat) :
  forall (ni : Z) (uvn : list Z),
  0 <= ni -> (Z.to_nat (2 * (ni + Z.of_nat n)) <= length uvn)%nat ->
  ni + Z.of_nat n < 2 ^ 30 ->
  exists uvn',
    record_vs n vs ni uvn = (ni + Z.of_nat n, uvn') /\
    length uvn' = length uvn /\
    (forall k, 0 <= k < Z.of_nat n ->
       node_at uvn' (2 * (ni + Z.of_nat n - 1 - k))
       = node_at vs (2 * (k / 2) + 1) / 2 /\
       node_at uvn' (2 * (ni + Z.of_nat n - 1 - k) + 1)
       = node_at vs (2 * ((k + 1) / 2)) / 2) /\
    (forall s, 0 <= s -> s < 2 * ni \/ 2 * (ni + Z.of_nat n) <= s ->
               node_at uvn' s = node_at uvn s).
Proof.
  induction n as [|n IH]; intros ni uvn Hni Hlen Hsmall; cbn [record_vs].
  - exists uvn. rewrite Z.add_0_r. repeat split; try done; lia.
  - rewrite u32_small by lia.
    rewrite even_of_pair, odd_of_pair by lia.
    set (a := node_at vs (2 * (Z.of_nat n / 2) + 1)).
    set (b := node_at vs (2 * ((Z.of_nat n + 1) / 2))).
    destruct (recordedge_spec uvn ni a b) as (Hl & Ha & Hb & Hframe); [lia|lia|].
    destruct (IH (ni + 1) (recordedge uvn ni a b)) as (uvn' & -> & Hl' & Hk' & Hframe');
      [lia|rewrite Hl; lia|lia|].
    exists uvn'. repeat split.
    + f_equal. lia.
    + congruence.
    + destruct (Z.eq_dec k (Z.of_nat n)) as [->|Hne].
      * replace (ni + Z.of_nat (S n) - 1 - Z.of_nat n) with ni by lia.
        rewrite Hframe' by lia. done.
      * replace (ni + Z.of_nat (S n) - 1 - k) with (ni + 1 + Z.of_nat n - 1 - k) by lia.
        apply Hk'. lia.
    + destruct (Z.eq_dec k (Z.of_nat n)) as [->|Hne].
      * replace (ni + Z.of_nat (S n) - 1 - Z.of_nat n) with ni by lia.
        rewrite Hframe' by lia. done.
      * replace (ni + Z.of_nat (S n) - 1 - k) with (ni + 1 + Z.of_nat n - 1 - k) by lia.
        apply Hk'. lia.
    + intros s Hs Hout. rewrite Hframe' by lia. apply Hframe; lia.
Qed.

(** X15: when [solution] returns, the two paths have [nu + nv + 1 = 42]
    edges between them (the assertion), and the host array [uvnodes]
    holds them as pairs (U node, V node) of halved node numbers: pair 0 is
    the closing edge [(us[0], vs[0])]; pair [nu - k] is the edge between
    the nodes [k] and [k+1] of the path of [us], the one at the even
    index first; pair [nu + nv - k] is the edge between the nodes [k] and
    [k+1] of the path of [vs], the one at the odd index first. *)
Theorem solution_records_cycle
    (c c' : solver_ctx) (us : list Z) (nu : Z) (vs : list Z) (nv : Z) :
  0 <= nu -> 0 <= nv -> nu + nv + 1 <= PROOFSIZE ->
  length (uvnodes c) = Z.to_nat (2 * PROOFSIZE) ->
  solution c us nu vs nv = Return c' ->
  nu + nv + 1 = PROOFSIZE /\
  length (uvnodes c') = length (uvnodes c) /\
  node_at (uvnodes c') 0 = node_at us 0 / 2 /\
  node_at (uvnodes c') 1 = node_at vs 0 / 2 /\
  (forall k, 0 <= k < nu ->
     node_at (uvnodes c') (2 * (nu - k)) = node_at us (2 * ((k + 1) / 2)) / 2 /\
     node_at (uvnodes c') (2 * (nu - k) + 1) = node_at us (2 * (k / 2) + 1) / 2) /\
  (forall k, 0 <= k < nv ->
     node_at (uvnodes c') (2 * (nu + nv - k)) = node_at vs (2 * (k / 2) + 1) / 2 /\
     node_at (uvnodes c') (2 * (nu + nv - k) + 1) = node_at vs (2 * ((k + 1) / 2)) / 2).
Proof.
  intros Hnu Hnv Hsum Hlen Hret. unfold PROOFSIZE in *. unfold solution in Hret.
  destruct (recordedge_spec (uvnodes c) 0 (node_at us 0) (node_at vs 0))
    as (Hl0 & Ha0 & Hb0 & Hf0); [lia|lia|].
  destruct (record_us_spec us (Z.to_nat nu) 1
              (recordedge (uvnodes c) 0 (node_at us 0) (node_at vs 0)))
    as (uvn1 & Hrun1 & Hl1 & Hk1 & Hf1); [lia|rewrite Hl0; lia|lia|].
  rewrite Hrun1 in Hret.
  destruct (record_vs_spec vs (Z.to_nat nv) (1 + Z.of_nat (Z.to_nat nu)) uvn1)
    as (uvn2 & Hrun2 & Hl2 & Hk2 & Hf2); [lia|rewrite Hl1, Hl0; lia|lia|].
  rewrite Hrun2 in Hret.
  destruct (Z.eqb_spec (1 + Z.of_nat (Z.to_nat nu) + Z.of_nat (Z.to_nat nv)) PROOFSIZE)
    as [Hni|Hni]; cbn [assert mbind outcome_bind] in Hret; [|done].
  destruct (foldlM _ _ _) as [duv| |]; cbn [mbind outcome_bind] in Hret; try done.
  injection Hret as <-. cbn [uvnodes]. unfold PROOFSIZE in Hni.
  split; [lia|]. split; [congruence|].
  split; [by rewrite Hf2, Hf1 by lia|]. split; [by rewrite Hf2, Hf1 by lia|].
  split.
  - intros k Hk. destruct (Hk1 k ltac:(lia)) as [Ha Hb].
    replace (1 + Z.of_nat (Z.to_nat nu) - 1 - k) with (nu - k) in Ha, Hb by lia.
    by rewrite !Hf2 by lia.
  - intros k Hk. destruct (Hk2 k ltac:(lia)) as [Ha Hb].
    replace (1 + Z.of_nat (Z.to_nat nu) + Z.of_nat (Z.to_nat nv) - 1 - k)
      with (nu + nv - k) in Ha, Hb by lia.
    done.
Qed.
End RecordedEdges.

Section RecordedEdgesRun.
#[local] Existing Instance toy_params.

(** The theorem at the call of [solution] on the 42-cycle of the toy
    graph, the paths having 4 and 37 edges. *)
Lemma solution_records_cycle_witness :
  let us := toy_path_u.2 in
  let vs := toy_path_v.2 in
  let nu := toy_trimmed.1 in
  let nv := toy_trimmed.2 in
  nu + nv + 1 = PROOFSIZE /\
  length (uvnodes toy_reported) = length (uvnodes toy_reporting) /\
  node_at (uvnodes toy_reported) 0 = node_at us 0 / 2 /\
  node_at (uvnodes toy_reported) 1 = node_at vs 0 / 2 /\
  (forall k, 0 <= k < nu ->
     node_at (uvnodes toy_reported) (2 * (nu - k)) = node_at us (2 * ((k + 1) / 2)) / 2 /\
     node_at (uvnodes toy_reported) (2 * (nu - k) + 1) = node_at us (2 * (k / 2) + 1) / 2) /\
  (forall k, 0 <= k < nv ->
     node_at (uvnodes toy_reported) (2 * (nu + nv - k))
     = node_at vs (2 * (k / 2) + 1) / 2 /\
     node_at (uvnodes toy_reported) (2 * (nu + nv - k) + 1)
     = node_at vs (2 * ((k + 1) / 2)) / 2).
Proof.
  intros us vs nu nv.
  apply (solution_records_cycle toy_reporting toy_reported us nu vs nv).
  - vm_compute. discriminate.
  - vm_compute. discriminate.
  - vm_compute. discriminate.
  - vm_compute. reflexivity.
  - unfold toy_reported. apply outcome_returned. vm_compute. reflexivity.
Defined.
End RecordedEdgesRun.

(** X16: [nonce_cmp] returns the difference of the two [u32] as an [int].
    It is the true difference, and so orders the two nonces, as long as
    they are less than [2^31] apart; further apart the difference wraps
    and the sign is the wrong one. *)
Theorem nonce_cmp_difference (a b : Z) :
  0 <= a < 2 ^ 32 -> 0 <= b < 2 ^ 32 ->
  (- 2 ^ 31 <= a - b < 2 ^ 31 -> nonce_cmp a b = a - b) /\
  (2 ^ 31 <= a - b -> nonce_cmp a b = a - b - 2 ^ 32 /\ nonce_cmp a b < 0) /\
  (a - b < - 2 ^ 31 -> nonce_cmp a b = a - b + 2 ^ 32 /\ 0 < nonce_cmp a b).
Proof.
  intros Ha Hb. unfold nonce_cmp, to_int, u32.
  split; [intros Hd|split; intros Hd].
  - destruct (Z.le_gt_cases 0 (a - b)).
    + rewrite Z.mod_small by lia. destruct (Z.ltb_spec (a - b) (2 ^ 31)); lia.
    + replace ((a - b) mod 2 ^ 32) with (a - b + 2 ^ 32).
      * destruct (Z.ltb_spec (a - b + 2 ^ 32) (2 ^ 31)); lia.
      * replace (a - b) with (a - b + 2 ^ 32 + (-1) * 2 ^ 32) at 2 by lia.
        by rewrite Z.mod_add, Z.mod_small by lia.
  - rewrite Z.mod_small by lia. destruct (Z.ltb_spec (a - b) (2 ^ 31)); lia.
  - replace ((a - b) mod 2 ^ 32) with (a - b + 2 ^ 32).
    + destruct (Z.ltb_spec (a - b + 2 ^ 32) (2 ^ 31)); lia.
    + replace (a - b) with (a - b + 2 ^ 32 + (-1) * 2 ^ 32) at 2 by lia.
      by rewrite Z.mod_add, Z.mod_small by lia.
Qed.

Lemma nonce_cmp_difference_witness :
  (- 2 ^ 31 <= 2 ^ 31 + 5 - 3 < 2 ^ 31 -> nonce_cmp (2 ^ 31 + 5) 3 = 2 ^ 31 + 5 - 3) /\
  (2 ^ 31 <= 2 ^ 31 + 5 - 3 ->
   nonce_cmp (2 ^ 31 + 5) 3 = 2 ^ 31 + 5 - 3 - 2 ^ 32 /\ nonce_cmp (2 ^ 31 + 5) 3 < 0) /\
  (2 ^ 31 + 5 - 3 < - 2 ^ 31 ->
   nonce_cmp (2 ^ 31 + 5) 3 = 2 ^ 31 + 5 - 3 + 2 ^ 32 /\ 0 < nonce_cmp (2 ^ 31 + 5) 3).
Proof. apply (nonce_cmp_difference (2 ^ 31 + 5) 3); lia. Defined.

(** * [cuckoo_call] without a solution, and the header nonce *)

Section CallWithoutSolution.
Context {P : BuildParams}.

End CallWithoutSolution.

Section HeaderNonceFacts.
Context {P : BuildParams}.

(** X18: [setheadernonce] stores the nonce, low byte first, in the last
    whole 32-bit word of the first [len] bytes of the header and touches
    no other byte; the word ends at byte [len] ("at end") exactly when
    [len] is a multiple of 4, and up to 3 bytes earlier otherwise. The
    keys are then set from these [len] bytes and the solutions of the
    context are cleared. *)
Theorem setheadernonce_places_nonce
    (ext : externals) (headernonce : list Z) (len nonce : Z) (c : solver_ctx) :
  4 <= len -> (Z.to_nat len <= length headernonce)%nat ->
  let h := fst (setheadernonce ext headernonce len nonce c) in
  let c' := snd (setheadernonce ext headernonce len nonce c) in
  let off := nonce_offset len in
  length h = length headernonce /\
  len - 8 < off <= len - 4 /\ (off = len - 4 <-> len mod 4 = 0) /\
  readbig 4 (drop (Z.to_nat off) h) = nonce mod 2 ^ 32 /\
  (forall i : nat, (i < Z.to_nat off)%nat \/ (Z.to_nat off + 4 <= i)%nat ->
                   h !! i = headernonce !! i) /\
  sip_keys (trimmer c') = setheader ext (take (Z.to_nat len) h) /\
  sols c' = [].
Proof.
  intros Hlen Hbuf h c' off. unfold h, c', setheadernonce. cbn [fst snd].
  fold off.
  assert (len - 8 < off <= len - 4 /\ (off = len - 4 <-> len mod 4 = 0)) as [Hoff Hend].
  { unfold off, nonce_offset. Z.div_mod_to_equations. lia. }
  rewrite length_inserts. repeat split; try lia; try tauto.
  - unfold readbig.
    assert (take (Z.to_nat 4) (drop (Z.to_nat off)
              (list_inserts (Z.to_nat off) (le_bytes 4 (u32 nonce)) headernonce))
            = le_bytes 4 (u32 nonce)) as ->.
    { apply list_eq. intros i. destruct (decide (i < 4)%nat) as [Hi|Hi].
      - rewrite lookup_take_lt, lookup_drop by lia.
        rewrite list_lookup_inserts by (rewrite ?le_bytes_length; lia).
        f_equal. lia.
      - rewrite lookup_take_ge by lia. symmetry. apply lookup_ge_None.
        rewrite le_bytes_length. lia. }
    rewrite le_value_le_bytes. unfold u32. change (256 ^ Z.of_nat 4) with (2 ^ 32).
    apply Z.mod_mod. lia.
  - intros i [Hi|Hi].
    + by apply list_lookup_inserts_lt.
    + apply list_lookup_inserts_ge. rewrite le_bytes_length. lia.
Qed.
End HeaderNonceFacts.

Lemma setheadernonce_places_nonce_witness :
  let ext := toy_externals (fun _ _ => 0) in
  let header := replicate 10 7 in
  let h := fst (setheadernonce ext header 10 (2 ^ 24 + 258) toy_ctx) in
  let c' := snd (setheadernonce ext header 10 (2 ^ 24 + 258) toy_ctx) in
  let off := nonce_offset 10 in
  length h = length header /\
  10 - 8 < off <= 10 - 4 /\ (off = 10 - 4 <-> 10 mod 4 = 0) /\
  readbig 4 (drop (Z.to_nat off) h) = (2 ^ 24 + 258) mod 2 ^ 32 /\
  (forall i : nat, (i < Z.to_nat off)%nat \/ (Z.to_nat off + 4 <= i)%nat ->
                   h !! i = header !! i) /\
  sip_keys (trimmer c') = setheader ext (take (Z.to_nat 10) h) /\
  sols c' = [].
Proof.
  intros ext header h c' off.
  apply (setheadernonce_places_nonce ext header 10 (2 ^ 24 + 258) toy_ctx).
  - lia.
  - vm_compute. lia.
Defined.

(** With a length of 10 the nonce lands in the bytes 4 to 7, two bytes
    before the end. *)
Example setheadernonce_unaligned :
  fst (setheadernonce (toy_externals (fun _ _ => 0)) (replicate 10 7) 10 (2 ^ 24 + 258) toy_ctx)
  = [7; 7; 7; 7; 2; 1; 0; 1; 7; 7].
Proof. vm_compute. reflexivity. Qed.

(** * Runs of the queue interface *)

Lemma run_calls_snoc (cs : list api_call) (c : api_call) :
  forall s, snd (run_calls s (cs ++ [c])) = run_call (snd (run_calls s cs)) c.
Proof.
  induction cs as [|c' cs IH]; intros s; [done|].
  cbn [app run_calls]. specialize (IH (run_call s c')).
  destruct (run_calls (run_call s c') (cs ++ [c])) as [rs s1].
  destruct (run_calls (run_call s c') cs) as [rs' s2]. done.
Qed.

Lemma run_calls_cons (s : plugin) (c : api_call) (cs : list api_call) :
  run_calls s (c :: cs)
  = (call_result s c :: fst (run_calls (run_call s c) cs), snd (run_calls (run_call s c) cs)).
Proof. cbn [run_calls]. by destruct (run_calls (run_call s c) cs). Qed.

(** What one call does to the two queues. *)
Lemma run_call_queues (s : plugin) (c : api_call) :
  (length (INPUT_QUEUE s) <= 20 -> length (INPUT_QUEUE (run_call s c)) <= 20)%nat /\
  (length (OUTPUT_QUEUE (run_call s c)) <= length (OUTPUT_QUEUE s))%nat.
Proof.
  destruct c as [|id data len nonce| | |created detach| | | | |]; cbn [run_call];
    try (split; [done|lia]).
  - unfold cuckoo_push_to_input_queue. destruct (should_quit s); [split; [done|cbn; lia]|].
    destruct (MAX_DATA_LENGTH <? len); [split; [done|cbn; lia]|].
    unfold size_approx, MAX_QUEUE_SIZE.
    destruct (Z.leb_spec 20 (Z.of_nat (length (INPUT_QUEUE s)))); cbn [snd];
      [split; [done|lia]|].
    cbn [with_input INPUT_QUEUE OUTPUT_QUEUE]. unfold enqueue. rewrite length_app. cbn. lia.
  - unfold cuckoo_read_from_output_queue. destruct (should_quit s); [split; [done|cbn; lia]|].
    destruct (OUTPUT_QUEUE s) as [|o q] eqn:Hq; cbn; rewrite ?Hq; cbn; lia.
  - destruct (clear_queues_bounded s) as (_ & -> & -> & _). rewrite !length_drop. lia.
  - cbn. lia.
  - cbn. lia.
  - cbn. lia.
  - cbn. rewrite try_dequeue_drop, length_drop. lia.
  - unfold cuckoo_process_exit. cbn [INPUT_QUEUE OUTPUT_QUEUE].
    destruct (clear_queues_bounded s) as (_ & -> & -> & _). rewrite !length_drop. lia.
Qed.

(** X19: no run of interface calls and worker steps makes the input
    queue longer than [MAX_QUEUE_SIZE = 20] items, and none makes the
    output queue longer than it was: the functions of the header only
    take results out. *)
Theorem queue_bound_is_kept (s : plugin) (calls : list api_call) :
  (length (INPUT_QUEUE s) <= 20)%nat ->
  (length (INPUT_QUEUE (snd (run_calls s calls))) <= 20)%nat /\
  (length (OUTPUT_QUEUE (snd (run_calls s calls))) <= length (OUTPUT_QUEUE s))%nat.
Proof.
  revert s. induction calls as [|c cs IH]; intros s Hs; [cbn; lia|].
  rewrite run_calls_cons. cbn [snd].
  destruct (run_call_queues s c) as [Hin Hout].
  destruct (IH (run_call s c) (Hin Hs)) as [Hin' Hout']. lia.
Qed.

Lemma queue_bound_is_kept_witness :
  let calls := replicate 25 (CallPush 1 [9; 9] 2 (replicate 8 0)) ++ [CallRead; WorkerDequeue] in
  (length (INPUT_QUEUE (snd (run_calls plugin_init calls))) <= 20)%nat /\
  (length (OUTPUT_QUEUE (snd (run_calls plugin_init calls)))
   <= length (OUTPUT_QUEUE plugin_init))%nat.
Proof.
  intros calls. apply (queue_bound_is_kept plugin_init calls). cbn. lia.
Defined.

(** In that run the first 20 pushes are taken and the last 5 refused. *)
Example queue_bound_run :
  fst (run_calls plugin_init
         (replicate 25 (CallPush 1 [9; 9] 2 (replicate 8 0)) ++ [CallRead; WorkerDequeue]))
  = replicate 20 0 ++ replicate 5 1 ++ [0; 1].
Proof. vm_compute. reflexivity. Qed.

Lemma replicate_S_end {A} (n : nat) (x : A) : replicate (S n) x = replicate n x ++ [x].
Proof. induction n as [|n IH]; [done|]. cbn [replicate app]. by rewrite <- IH. Qed.

(** X20: requests pushed while the queue has room are queued in the order
    of the calls, each call returning 0, behind what was queued before and
    with the output queue untouched; the worker's dequeue attempts then
    take the items oldest first. *)
Theorem pushes_queue_in_order (s : plugin) (reqs : list push_request) :
  should_quit s = false ->
  Forall (fun r => r.1.2 <= MAX_DATA_LENGTH) reqs ->
  (length (INPUT_QUEUE s) + length reqs <= 20)%nat ->
  let s' := snd (run_calls s (push_call <$> reqs)) in
  fst (run_calls s (push_call <$> reqs)) = replicate (length reqs) 0 /\
  INPUT_QUEUE s' = INPUT_QUEUE s ++ (request_item <$> reqs) /\
  OUTPUT_QUEUE s' = OUTPUT_QUEUE s /\
  (forall k, INPUT_QUEUE (snd (run_calls s' (replicate k WorkerDequeue)))
             = drop k (INPUT_QUEUE s')).
Proof.
  intros Hquit Hlen Hroom s'. unfold s'. clear s'.
  assert (fst (run_calls s (push_call <$> reqs)) = replicate (length reqs) 0 /\
          INPUT_QUEUE (snd (run_calls s (push_call <$> reqs)))
          = INPUT_QUEUE s ++ (request_item <$> reqs) /\
          OUTPUT_QUEUE (snd (run_calls s (push_call <$> reqs))) = OUTPUT_QUEUE s)
    as (Hres & Hin & Hout).
  { revert s Hquit Hroom. induction Hlen as [|r reqs Hr _ IH]; intros s Hquit Hroom.
    - cbn. by rewrite app_nil_r.
    - cbn [fmap list_fmap]. rewrite run_calls_cons. cbn [fst snd length replicate].
      assert (cuckoo_push_to_input_queue r.1.1.1 r.1.1.2 r.1.2 r.2 s
              = (0, with_input s (INPUT_QUEUE s ++ [request_item r]))) as Hpush.
      { unfold cuckoo_push_to_input_queue. rewrite Hquit.
        destruct (Z.ltb_spec MAX_DATA_LENGTH r.1.2); [lia|].
        unfold size_approx, MAX_QUEUE_SIZE.
        destruct (Z.leb_spec 20 (Z.of_nat (length (INPUT_QUEUE s)))); [cbn in Hroom; lia|].
        done. }
      assert (run_call s (push_call r)
              = with_input s (INPUT_QUEUE s ++ [request_item r])) as ->.
      { unfold push_call. cbn [run_call]. by rewrite Hpush. }
      assert (call_result s (push_call r) = 0) as ->.
      { unfold push_call. cbn [call_result]. by rewrite Hpush. }
      destruct (IH (with_input s (INPUT_QUEUE s ++ [request_item r]))) as (-> & -> & ->).
      + done.
      + cbn [with_input INPUT_QUEUE]. rewrite length_app. cbn in *. lia.
      + cbn [with_input INPUT_QUEUE OUTPUT_QUEUE]. by rewrite <- app_assoc. }
  repeat split; try done.
  intros k. induction k as [|k IH]; [done|].
  rewrite replicate_S_end, run_calls_snoc. cbn [run_call with_input INPUT_QUEUE].
  rewrite try_dequeue_drop, IH, drop_drop. f_equal. lia.
Qed.

Lemma pushes_queue_in_order_witness :
  let reqs : list push_request := [(1, [5; 6; 7], 2, replicate 8 1); (2, [8], 1, replicate 8 2)] in
  let s' := snd (run_calls plugin_init (push_call <$> reqs)) in
  fst (run_calls plugin_init (push_call <$> reqs)) = replicate (length reqs) 0 /\
  INPUT_QUEUE s' = INPUT_QUEUE plugin_init ++ (request_item <$> reqs) /\
  OUTPUT_QUEUE s' = OUTPUT_QUEUE plugin_init /\
  (forall k, INPUT_QUEUE (snd (run_calls s' (replicate k WorkerDequeue)))
             = drop k (INPUT_QUEUE s')).
Proof.
  intros reqs.
  apply (pushes_queue_in_order plugin_init reqs).
  - reflexivity.
  - repeat constructor; cbn; unfold MAX_DATA_LENGTH; lia.
  - cbn. lia.
Defined.




(** One call of the interface that makes no worker. *)
Lemma run_call_no_worker (s : plugin) (c : api_call) :
  processing_finished s = false -> makes_worker c || by_worker c = false ->
  processing_finished (run_call s c) = false /\ workers (run_call s c) = workers s.
Proof.
  intros Hp Hc.
  destruct c as [|id data len nonce| | |created detach| | | | |]; cbn [run_call]; try done.
  - unfold cuckoo_push_to_input_queue.
    destruct (should_quit s); [done|]. destruct (_ <? _); [done|]. by destruct (_ <=? _).
  - unfold cuckoo_read_from_output_queue. destruct (should_quit s); [done|].
    by destruct (try_dequeue (OUTPUT_QUEUE s)) as [[o|] q].
  - destruct (clear_loop_spec (Z.to_nat MAX_QUEUE_SIZE) s) as (_ & _ & _ & _ & Hpf).
    unfold cuckoo_clear_queues, cuckoo_clear_queues_attempts. rewrite Hpf. split; [done|].
    generalize (Z.to_nat MAX_QUEUE_SIZE). intros n. clear Hp Hpf. revert s.
    induction n as [|n IH]; intros s; [done|].
    cbn [clear_loop]. unfold clear_step.
    destruct (try_dequeue (INPUT_QUEUE s)) as [i qin].
    destruct (try_dequeue (OUTPUT_QUEUE s)) as [o qout].
    specialize (IH (with_output (with_input s qin) qout)).
    destruct (clear_loop n (with_output (with_input s qin) qout)) as [rs s''].
    cbn [snd] in *. by rewrite IH.
  - by destruct created.
Qed.

(** X22: when [pthread_create] fails with no worker thread running,
    [cuckoo_start_processing] still returns 0, the value of a successful
    start, having cleared [processing_finished]. As only a worker thread
    sets that flag again, [cuckoo_has_processing_stopped] then answers 0
    after every run of interface calls in which no start makes a thread. *)
Theorem failed_start_is_silent (detach_failed : bool) (s : plugin) (calls : list api_call) :
  workers s = 0%nat ->
  Forall (fun c => makes_worker c || by_worker c = false) calls ->
  let s1 := snd (cuckoo_start_processing false detach_failed s) in
  fst (cuckoo_start_processing false detach_failed s) = 0 /\
  workers (snd (run_calls s1 calls)) = 0%nat /\
  cuckoo_has_processing_stopped (snd (run_calls s1 calls)) = 0.
Proof.
  intros Hw0 Hcalls s1.
  assert (processing_finished s1 = false /\ workers s1 = 0%nat) as [Hp Hw] by done.
  split; [done|]. rewrite <- Hw. clear Hw Hw0.
  revert Hp. generalize s1. clear s1.
  induction Hcalls as [|c cs Hc _ IH]; intros s1 Hp.
  - cbn. unfold cuckoo_has_processing_stopped. by rewrite Hp.
  - rewrite run_calls_cons. cbn [snd].
    destruct (run_call_no_worker s1 c Hp Hc) as [Hp' Hw'].
    destruct (IH (run_call s1 c) Hp') as [-> ->]. done.
Qed.

Lemma failed_start_is_silent_witness :
  let calls := [CallStop; CallHasStopped; CallReset; CallStart false false; CallClear] in
  let s1 := snd (cuckoo_start_processing false true plugin_init) in
  fst (cuckoo_start_processing false true plugin_init) = 0 /\
  workers (snd (run_calls s1 calls)) = 0%nat /\
  cuckoo_has_processing_stopped (snd (run_calls s1 calls)) = 0.
Proof.
  intros calls.
  apply (failed_start_is_silent true plugin_init calls); [reflexivity|]. repeat constructor.
Defined.

(** * Plugin properties *)

Section PluginPropertyFacts.
Import PluginProperties.

Lemma int_small (x : Z) : - 2 ^ 31 <= x < 2 ^ 31 -> int x = x.
Proof. intros H. unfold int. rewrite Z.mod_small; lia. Qed.

Lemma drop_inserts_ge {A} (k l : list A) (i n : nat) :
  (i + length k <= n)%nat -> drop n (list_inserts i k l) = drop n l.
Proof.
  revert i. induction k as [|y k IH]; intros i Hn; [done|].
  cbn [list_inserts]. cbn [length] in Hn.
  rewrite drop_insert_lt by lia. apply IH. lia.
Qed.

Lemma snprintf_fits (mem : list Z) (pos size : Z) (text : list Z) :
  Z.of_nat (length text) < size < 2 ^ 31 ->
  snprintf mem pos size text
  = (Z.of_nat (length text), list_inserts (Z.to_nat pos) (text ++ [0]) mem).
Proof.
  intros Hs. unfold snprintf. rewrite int_small by lia.
  rewrite (Z.mod_small size) by lia.
  destruct (Z.eqb_spec size 0); [lia|].
  by rewrite take_ge by lia.
Qed.

Lemma snprintf_bound (mem : list Z) (pos size : Z) (text : list Z) :
  0 <= pos -> 0 < size < 2 ^ 31 ->
  length (snd (snprintf mem pos size text)) = length mem /\
  drop (Z.to_nat (pos + size)) (snd (snprintf mem pos size text))
  = drop (Z.to_nat (pos + size)) mem.
Proof.
  intros Hp Hs. unfold snprintf. cbn [snd].
  rewrite (Z.mod_small size) by lia.
  destruct (Z.eqb_spec size 0); [lia|].
  split; [apply length_inserts|].
  apply drop_inserts_ge. rewrite length_app, length_take. cbn [length]. lia.
Qed.

Lemma property_json_length (p : PLUGIN_PROPERTY) :
  (2 <= length (property_json p))%nat.
Proof. unfold property_json. rewrite !length_app. cbn. lia. Qed.

Lemma json_chars_cons (p : PLUGIN_PROPERTY) (props : list PLUGIN_PROPERTY) :
  json_chars (p :: props) = Z.of_nat (length (property_json p)) + json_chars props.
Proof. done. Qed.

Lemma json_chars_nonneg (props : list PLUGIN_PROPERTY) : 0 <= json_chars props.
Proof. induction props as [|p props IH]; [done|]. rewrite json_chars_cons. lia. Qed.

Lemma joined_json_cons (p q : PLUGIN_PROPERTY) (rest : list PLUGIN_PROPERTY) :
  joined_json (p :: q :: rest) = property_json p ++ 44 :: joined_json (q :: rest).
Proof. done. Qed.

Lemma joined_json_length (p : PLUGIN_PROPERTY) (props : list PLUGIN_PROPERTY) :
  Z.of_nat (length (joined_json (p :: props)))
  = json_chars (p :: props) + Z.of_nat (length props).
Proof.
  revert p. induction props as [|q rest IH]; intros p.
  - cbn. lia.
  - rewrite joined_json_cons, length_app, json_chars_cons. cbn [length].
    rewrite Nat2Z.inj_add, !Nat2Z.inj_succ, IH. lia.
Qed.

Lemma json_loop_cons (p : PLUGIN_PROPERTY) (rest : list PLUGIN_PROPERTY) (st : json_state) :
  json_loop (p :: rest) st
  = let '(last_written, mem) :=
      snprintf (prop_string st) (last_write_pos st) (remaining st) (property_json p) in
    let remaining := int (remaining st - last_written) in
    let last_write_pos := int (last_write_pos st + last_written) in
    if remaining <? 2 then
      (false, {| prop_string := mem; remaining := remaining;
                 last_write_pos := last_write_pos |})
    else
      match rest with
      | [] => (true, {| prop_string := mem; remaining := remaining;
                        last_write_pos := last_write_pos |})
      | _ :: _ =>
          json_loop rest
            {| prop_string := <[Z.to_nat last_write_pos := 44]> mem;
               remaining := remaining;
               last_write_pos := int (last_write_pos + 1) |}
      end.
Proof. done. Qed.

(** The loop when every text fits with two bytes to spare. *)
Lemma json_loop_fits (p : PLUGIN_PROPERTY) (rest : list PLUGIN_PROPERTY) (st : json_state) :
  0 <= last_write_pos st ->
  json_chars (p :: rest) + 2 <= remaining st < 2 ^ 31 ->
  last_write_pos st + json_chars (p :: rest) + Z.of_nat (length rest) < 2 ^ 31 ->
  json_loop (p :: rest) st
  = (true, {| prop_string := list_inserts (Z.to_nat (last_write_pos st))
                               (joined_json (p :: rest) ++ [0]) (prop_string st);
              remaining := remaining st - json_chars (p :: rest);
              last_write_pos := last_write_pos st
                                + Z.of_nat (length (joined_json (p :: rest))) |}).
Proof.
  revert p st. induction rest as [|q rest IH]; intros p st Hpos Hrem Hmax.
  - rewrite json_loop_cons. rewrite json_chars_cons in *.
    cbn [json_chars foldr] in *. rewrite snprintf_fits by lia.
    rewrite !int_small by lia.
    destruct (Z.ltb_spec (remaining st - Z.of_nat (length (property_json p))) 2); [lia|].
    cbn [joined_json]. do 2 f_equal.
  - rewrite json_loop_cons. rewrite (json_chars_cons p) in *.
    pose proof (json_chars_nonneg (q :: rest)) as Hnn'.
    cbn [length] in Hmax.
    rewrite snprintf_fits by lia. cbv zeta. rewrite !int_small by lia.
    destruct (Z.ltb_spec (remaining st - Z.of_nat (length (property_json p))) 2); [lia|].
    rewrite IH; cbn [prop_string remaining last_write_pos]; try lia.
    f_equal. f_equal; [|lia|].
    + rewrite joined_json_cons.
      replace ((property_json p ++ 44 :: joined_json (q :: rest)) ++ [0])
        with ((property_json p ++ [44]) ++ (joined_json (q :: rest) ++ [0]))
        by (by rewrite <- !app_assoc).
      rewrite (list_inserts_app_l (property_json p ++ [44])).
      rewrite length_app. cbn [length].
      replace (Z.to_nat (last_write_pos st + Z.of_nat (length (property_json p)) + 1))
        with (length (property_json p) + 1 + Z.to_nat (last_write_pos st))%nat by lia.
      f_equal.
      rewrite !list_inserts_app_l. cbn [list_inserts].
      replace (Z.to_nat (last_write_pos st + Z.of_nat (length (property_json p))))
        with (length (property_json p) + Z.to_nat (last_write_pos st))%nat by lia.
      by rewrite list_insert_insert_eq.
    + rewrite joined_json_cons, length_app. cbn [length]. lia.
Qed.

(** The loop in general: it succeeds only when the texts fit, and it
    leaves the memory from [last_write_pos + remaining], moved up by one
    for each comma, as it was. *)
Lemma json_loop_bound (props : list PLUGIN_PROPERTY) (st : json_state) :
  0 <= last_write_pos st -> 2 <= remaining st ->
  last_write_pos st + remaining st + Z.of_nat (length props) <= 2 ^ 31 ->
  Forall (fun p => Z.of_nat (length (property_json p)) < 2 ^ 31) props ->
  let r := json_loop props st in
  length (prop_string (snd r)) = length (prop_string st) /\
  drop (Z.to_nat (last_write_pos st + remaining st + Z.max 0 (Z.of_nat (length props) - 1)))
       (prop_string (snd r))
  = drop (Z.to_nat (last_write_pos st + remaining st
                    + Z.max 0 (Z.of_nat (length props) - 1)))
         (prop_string st) /\
  (fst r = true -> json_chars props + 2 <= remaining st).
Proof.
  intros Hpos Hrem Hmax Hlen. revert st Hpos Hrem Hmax.
  induction Hlen as [|p rest Hp _ IH]; intros st Hpos Hrem Hmax; [cbn; split_and!; try done; lia|].
  cbv zeta. rewrite json_loop_cons, json_chars_cons.
  cbn [length] in Hmax.
  destruct (snprintf_bound (prop_string st) (last_write_pos st) (remaining st)
              (property_json p)) as [Hl Hd]; [lia|lia|].
  assert (fst (snprintf (prop_string st) (last_write_pos st) (remaining st) (property_json p))
          = Z.of_nat (length (property_json p))) as Hret.
  { unfold snprintf. cbn [fst]. apply int_small. lia. }
  destruct (snprintf (prop_string st) (last_write_pos st) (remaining st) (property_json p))
    as [last_written mem]. cbn [fst snd] in *. subst last_written.
  pose proof (json_chars_nonneg rest) as Hnn.
  assert (forall n, (Z.to_nat (last_write_pos st + remaining st) <= n)%nat ->
                    drop n mem = drop n (prop_string st)) as Hd'.
  { intros n Hn. replace n with (Z.to_nat (last_write_pos st + remaining st)
                                 + (n - Z.to_nat (last_write_pos st + remaining st)))%nat by lia.
    by rewrite <- !drop_drop, Hd. }
  rewrite (int_small (remaining st - _)) by lia.
  destruct (Z.ltb_spec (remaining st - Z.of_nat (length (property_json p))) 2) as [Hlt|Hge].
  { cbn [fst snd prop_string]. split_and!; [done| |done]. apply Hd'. lia. }
  rewrite (int_small (last_write_pos st + _)) by lia.
  destruct rest as [|q rest].
  { cbn [fst snd prop_string json_chars foldr]. split_and!; [done| |lia]. apply Hd'. cbn. lia. }
  cbn [length] in *.
  rewrite int_small by lia.
  match goal with |- context [json_loop ?l ?s] =>
    specialize (IH s); destruct (json_loop l s) as [ok st'] end.
  cbn [fst snd prop_string remaining last_write_pos] in *.
  destruct IH as (IH1 & IH2 & IH3); [lia|lia|lia|].
  rewrite length_insert in IH1.
  split_and!; [congruence| |intros Hok; specialize (IH3 Hok); lia].
  replace (Z.to_nat (last_write_pos st + remaining st
                     + Z.max 0 (Z.of_nat (S (S (length rest))) - 1)))
    with (Z.to_nat (last_write_pos st + Z.of_nat (length (property_json p)) + 1
                    + (remaining st - Z.of_nat (length (property_json p)))
                    + Z.max 0 (Z.of_nat (S (length rest)) - 1))) by lia.
  rewrite IH2, drop_insert_lt by lia. apply Hd'. lia.
Qed.

Lemma insert_at_length (l1 l2 : list Z) (x y : Z) :
  <[length l1 := x]> (l1 ++ y :: l2) = l1 ++ x :: l2.
Proof. rewrite <- (Nat.add_0_r (length l1)). by rewrite insert_app_r. Qed.

(** The closing bracket and the NUL stored behind a text and its NUL. *)
Lemma store_json (t mem : list Z) :
  (length t + 1 < length mem)%nat ->
  <[S (length t) := 0]> (<[length t := 93]> (list_inserts 0 (t ++ [0]) mem))
  = t ++ 93 :: 0 :: drop (length t + 2) mem.
Proof.
  intros Hmem. rewrite <- (take_drop (length t + 1) mem) at 1.
  rewrite list_inserts_0_r by (rewrite length_app, length_take; cbn [length]; lia).
  destruct (drop (length t + 1) mem) as [|d dm] eqn:Hdrop.
  { apply (f_equal length) in Hdrop. rewrite length_drop in Hdrop. cbn in Hdrop. lia. }
  assert (drop (length t + 2) mem = dm) as ->.
  { replace (length t + 2)%nat with (length t + 1 + 1)%nat by lia.
    by rewrite <- drop_drop, Hdrop. }
  rewrite <- app_assoc. cbn [app]. rewrite insert_at_length.
  replace (t ++ 93 :: d :: dm) with ((t ++ [93]) ++ d :: dm) by (by rewrite <- app_assoc).
  replace (S (length t)) with (length (t ++ [93])) by (rewrite length_app; cbn; lia).
  rewrite insert_at_length. by rewrite <- app_assoc.
Qed.

(** The call when one property or more is stored and the texts fit. *)
Lemma get_json_fits (p : PLUGIN_PROPERTY) (rest : list PLUGIN_PROPERTY)
    (mem : list Z) (len : Z) :
  4 <= len -> json_chars (p :: rest) + 2 <= len ->
  len + Z.of_nat (S (length rest)) < 2 ^ 31 ->
  get_properties_as_json (p :: rest) mem len
  = (PROPERTY_RETURN_OK,
     <[S (S (length (joined_json (p :: rest)))) := 0]>
       (<[S (length (joined_json (p :: rest))) := 93]>
          (list_inserts 1 (joined_json (p :: rest) ++ [0]) (<[0%nat := 91]> mem))),
     2 + Z.of_nat (length (joined_json (p :: rest)))).
Proof.
  intros Hbig Hfit Hmax. unfold get_properties_as_json.
  destruct (Z.leb_spec len 3) as [Hsmall|_]; [lia|].
  set (st0 := {| prop_string := <[0%nat:=91]> mem; remaining := len; last_write_pos := 1 |}).
  pose proof (json_chars_nonneg (p :: rest)) as Hnn.
  rewrite (json_loop_fits p rest st0) by (cbn [st0 remaining last_write_pos]; lia).
  cbn [negb st0 remaining last_write_pos prop_string].
  destruct (Z.ltb_spec (len - json_chars (p :: rest)) 2); [lia|].
  pose proof (joined_json_length p rest) as Hj.
  pose proof (property_json_length p) as Hp2.
  pose proof (json_chars_nonneg rest) as Hnn'.
  pose proof (json_chars_cons p rest) as Hcons.
  rewrite int_small by lia.
  destruct (Z.eqb_spec (1 + Z.of_nat (length (joined_json (p :: rest))) + 1) 3); [lia|].
  change (Z.to_nat 1) with 1%nat.
  replace (Z.to_nat (1 + Z.of_nat (length (joined_json (p :: rest)))))
    with (S (length (joined_json (p :: rest)))) by lia.
  replace (Z.to_nat (1 + Z.of_nat (length (joined_json (p :: rest))) + 1))
    with (S (S (length (joined_json (p :: rest))))) by lia.
  unfold PROPERTY_RETURN_OK. f_equal. lia.
Qed.

(** X23: [add_plugin_property] stores the properties in the order given
    as long as fewer than [MAX_NUM_PROPERTIES = 32] are stored, and drops
    every further one without a sign: after any number of calls the
    table holds the first 32 of what was stored and offered. *)
Theorem add_plugin_property_caps (PROPS news : list PLUGIN_PROPERTY) :
  (length PROPS <= 32)%nat ->
  foldl (fun props p => add_plugin_property p props) PROPS news
  = take 32 (PROPS ++ news).
Proof.
  revert PROPS. induction news as [|p news IH]; intros PROPS Hlen.
  - cbn [foldl]. rewrite app_nil_r, take_ge; [done|lia].
  - cbn [foldl]. unfold add_plugin_property at 2. unfold MAX_NUM_PROPERTIES.
    destruct (Z.ltb_spec (32 - 1) (Z.of_nat (length PROPS))) as [Hfull|Hroom].
    + rewrite IH by done. rewrite !take_app_le by lia. done.
    + rewrite IH by (rewrite length_app; cbn; lia). by rewrite <- app_assoc.
Qed.

Lemma add_plugin_property_caps_witness :
  let news := example_property <$> seqZ 0 40 in
  foldl (fun props p => add_plugin_property p props) [example_property 99] news
  = take 32 ([example_property 99] ++ news).
Proof.
  intros news. apply (add_plugin_property_caps [example_property 99] news). cbn. lia.
Defined.

(** X24: [get_properties_as_json] returns [PROPERTY_RETURN_OK] exactly
    when [*length] is at least 4 and at least two more than the number of
    characters of the property texts; commas are not counted. It then
    leaves the JSON array of the properties and a NUL from the start of
    the memory and the length of the array in [*length]. In every other
    case it returns [PROPERTY_RETURN_BUFFER_TOO_SMALL] with [*length] as
    it was. *)
Theorem get_properties_as_json_result (PROPS : list PLUGIN_PROPERTY)
    (mem : list Z) (len : Z) :
  0 <= len -> len + Z.of_nat (length PROPS) < 2 ^ 31 ->
  Forall (fun p => Z.of_nat (length (property_json p)) < 2 ^ 31) PROPS ->
  let '(ret, mem', len') := get_properties_as_json PROPS mem len in
  (ret = PROPERTY_RETURN_OK <-> 4 <= len /\ json_chars PROPS + 2 <= len) /\
  (ret = PROPERTY_RETURN_OK ->
   len' = Z.of_nat (length (json_text PROPS)) /\
   ((length (json_text PROPS) < length mem)%nat ->
    mem' = json_text PROPS ++ 0 :: drop (S (length (json_text PROPS))) mem)) /\
  (ret <> PROPERTY_RETURN_OK ->
   ret = PROPERTY_RETURN_BUFFER_TOO_SMALL /\ len' = len).
Proof.
  intros Hlen Hmax Htexts.
  destruct (decide (4 <= len /\ json_chars PROPS + 2 <= len)) as [[Hbig Hfit]|Hnofit].
  - destruct PROPS as [|p rest].
    + unfold get_properties_as_json.
      unfold PROPERTY_RETURN_OK, PROPERTY_RETURN_BUFFER_TOO_SMALL.
      destruct (Z.leb_spec len 3) as [Hsmall|_]; [lia|].
      cbn [json_loop negb remaining last_write_pos prop_string].
      destruct (Z.ltb_spec len 2); [lia|]. cbn.
      split_and!; [split; [lia|done]| |done].
      intros _. split; [done|]. intros Hmem.
      destruct mem as [|a [|b [|c mem]]]; cbn in Hmem; try lia. done.
    + rewrite get_json_fits by done. unfold PROPERTY_RETURN_OK.
      split_and!; [done| |done].
      intros _. unfold json_text. cbn [length]. rewrite length_app. cbn [length].
      split; [lia|]. intros Hmem.
      destruct mem as [|a mem]; [cbn in Hmem; lia|]. cbn [length] in Hmem.
      cbn [insert list_insert]. rewrite list_inserts_cons.
      cbn [insert list_insert]. cbn [app]. f_equal.
      rewrite store_json by lia. rewrite <- app_assoc. cbn [app drop].
      do 4 f_equal. lia.
  - unfold get_properties_as_json.
    unfold PROPERTY_RETURN_OK, PROPERTY_RETURN_BUFFER_TOO_SMALL.
    destruct (Z.leb_spec len 3) as [Hsmall|Hbig]; [split_and!; try done; lia|].
    set (st0 := {| prop_string := <[0%nat:=91]> mem; remaining := len;
                   last_write_pos := 1 |}).
    destruct (json_loop_bound PROPS st0) as (_ & _ & Hok);
      [cbn; lia|cbn; lia|cbn [st0 remaining last_write_pos]; lia|done|].
    destruct (json_loop PROPS st0) as [[|] st]; cbn [fst snd negb] in *.
    + cbn [st0 remaining] in Hok. specialize (Hok eq_refl). lia.
    + split_and!; try done; lia.
Qed.

Lemma get_properties_as_json_result_witness :
  let PROPS := [example_property 80; example_property 7] in
  let mem := replicate 200 1 in
  let '(ret, mem', len') := get_properties_as_json PROPS mem 190 in
  (ret = PROPERTY_RETURN_OK <-> 4 <= 190 /\ json_chars PROPS + 2 <= 190) /\
  (ret = PROPERTY_RETURN_OK ->
   len' = Z.of_nat (length (json_text PROPS)) /\
   ((length (json_text PROPS) < length mem)%nat ->
    mem' = json_text PROPS ++ 0 :: drop (S (length (json_text PROPS))) mem)) /\
  (ret <> PROPERTY_RETURN_OK ->
   ret = PROPERTY_RETURN_BUFFER_TOO_SMALL /\ len' = 190).
Proof.
  intros PROPS mem.
  apply (get_properties_as_json_result PROPS mem 190); [lia|cbn; lia|].
  repeat constructor.
Defined.

(** X25: no call of [get_properties_as_json] stores a byte at index
    [*length + allocated_properties] or beyond, but the bytes before
    that index are not safe: when [*length] is exactly two more than the
    characters of the property texts, the call returns
    [PROPERTY_RETURN_OK] and has stored the closing NUL at index
    [*length + allocated_properties - 1], outside the [*length] bytes
    announced. *)
Theorem get_properties_as_json_write_bound (PROPS : list PLUGIN_PROPERTY)
    (mem : list Z) (len : Z) :
  0 <= len -> len + Z.of_nat (length PROPS) < 2 ^ 31 ->
  Forall (fun p => Z.of_nat (length (property_json p)) < 2 ^ 31) PROPS ->
  let '(ret, mem', len') := get_properties_as_json PROPS mem len in
  length mem' = length mem /\
  drop (Z.to_nat len + length PROPS) mem' = drop (Z.to_nat len + length PROPS) mem /\
  (PROPS <> [] -> len = json_chars PROPS + 2 ->
   (Z.to_nat len + length PROPS <= length mem)%nat ->
   ret = PROPERTY_RETURN_OK /\
   mem' !! (Z.to_nat len + length PROPS - 1)%nat = Some 0).
Proof.
  intros Hlen Hmax Htexts.
  destruct (decide (4 <= len /\ json_chars PROPS + 2 <= len)) as [[Hbig Hfit]|Hnofit].
  - destruct PROPS as [|p rest].
    + unfold get_properties_as_json.
      destruct (Z.leb_spec len 3) as [Hsmall|_]; [lia|].
      cbn [json_loop negb remaining last_write_pos prop_string].
      destruct (Z.ltb_spec len 2); [lia|].
      split_and!; [by rewrite !length_insert| |done].
      rewrite !drop_insert_lt by (cbn; lia). done.
    + rewrite get_json_fits by done.
      pose proof (joined_json_length p rest) as Hj.
      pose proof (json_chars_nonneg (p :: rest)) as Hnn.
      cbn [length] in *.
      split_and!.
      * by rewrite !length_insert, length_inserts, length_insert.
      * rewrite !drop_insert_lt by lia.
        rewrite drop_inserts_ge by (rewrite length_app; cbn [length]; lia).
        by rewrite drop_insert_lt by lia.
      * intros _ Hlen' Hmem. split; [done|].
        replace (Z.to_nat len + S (length rest) - 1)%nat
          with (S (S (length (joined_json (p :: rest))))) by lia.
        apply list_lookup_insert_eq.
        rewrite length_insert, length_inserts, length_insert. lia.
  - unfold get_properties_as_json.
    destruct (Z.leb_spec len 3) as [Hsmall|Hbig].
    { split_and!; try done. intros Hne Hlen' _. destruct PROPS as [|p rest]; [done|].
      pose proof (property_json_length p). pose proof (json_chars_nonneg rest).
      rewrite json_chars_cons in Hlen'. lia. }
    set (st0 := {| prop_string := <[0%nat:=91]> mem; remaining := len;
                   last_write_pos := 1 |}).
    destruct (json_loop_bound PROPS st0) as (Hl & Hd & Hok);
      [cbn; lia|cbn; lia|cbn [st0 remaining last_write_pos]; lia|done|].
    destruct (json_loop PROPS st0) as [[|] st]; cbn [fst snd negb] in *.
    { cbn [st0 remaining] in Hok. specialize (Hok eq_refl). lia. }
    cbn [st0 prop_string remaining last_write_pos] in Hl, Hd.
    rewrite length_insert in Hl.
    destruct PROPS as [|p rest]; [cbn in Hnofit; lia|]. cbn [length] in *.
    replace (Z.to_nat (1 + len + Z.max 0 (Z.of_nat (S (length rest)) - 1)))
      with (Z.to_nat len + S (length rest))%nat in Hd by lia.
    rewrite drop_insert_lt in Hd by lia.
    split_and!; [done|done|]. intros _ Hlen' _. lia.
Qed.

Lemma get_properties_as_json_write_bound_witness :
  let PROPS := [example_property 80; example_property 7] in
  let mem := replicate 200 1 in
  let '(ret, mem', len') := get_properties_as_json PROPS mem 183 in
  length mem' = length mem /\
  drop (Z.to_nat 183 + length PROPS) mem' = drop (Z.to_nat 183 + length PROPS) mem /\
  (PROPS <> [] -> 183 = json_chars PROPS + 2 ->
   (Z.to_nat 183 + length PROPS <= length mem)%nat ->
   ret = PROPERTY_RETURN_OK /\
   mem' !! (Z.to_nat 183 + length PROPS - 1)%nat = Some 0).
Proof.
  intros PROPS mem.
  apply (get_properties_as_json_write_bound PROPS mem 183); [lia|cbn; lia|].
  repeat constructor.
Defined.

(** With 183 bytes announced for two properties of 181 characters, the
    call returns [PROPERTY_RETURN_OK] and has stored the bracket and the
    NUL in the two bytes behind them. *)
Example get_properties_as_json_past_length :
  let '(ret, mem', len') :=
    get_properties_as_json [example_property 80; example_property 7]
      (replicate 200 1) 183 in
  ret = PROPERTY_RETURN_OK /\ len' = 184 /\ drop 181 (take 185 mem') = [48; 125; 93; 0].
Proof. vm_compute. done. Qed.
End PluginPropertyFacts.

(** * The matrix miner's call and the simple miner *)

Lemma copy_loop_prefix (prf out : list Z) (n : nat) :
  (n <= length prf)%nat -> (n <= length out)%nat ->
  foldl (fun out i => <[Z.to_nat i := default 0 (prf !! Z.to_nat i)]> out)
        out (seqZ 0 (Z.of_nat n))
  = take n prf ++ drop n out.
Proof.
  induction n as [|n IH]; intros Hp Ho; [done|].
  rewrite seqZ_S, foldl_app, IH by lia. cbn [foldl]. rewrite Z.add_0_l, Nat2Z.id.
  destruct (lookup_lt_is_Some_2 prf n) as [x Hx]; [lia|]. rewrite Hx. cbn [default].
  rewrite (take_S_r prf n x Hx).
  replace n with (length (take n prf) + 0)%nat at 1 by (rewrite length_take; lia).
  rewrite insert_app_r.
  destruct (drop n out) as [|y rest] eqn:Hd.
  { apply (f_equal length) in Hd. rewrite length_drop in Hd. cbn in Hd. lia. }
  cbn [insert list_insert]. rewrite <- app_assoc. cbn [app]. do 2 f_equal.
  replace (S n) with (n + 1)%nat by lia. by rewrite <- drop_drop, Hd.
Qed.

(** X26: the matrix miner's [cuckoo_call] adds one to
    [hashes_processed_count] whether or not the solver finds a solution.
    Without a solution it returns 0 and leaves the caller's array as it
    was; with one or more it returns 1 and has put the first solution in
    the first [PROOFSIZE] entries, the others being ignored. *)
Theorem matrix_cuckoo_call_first_solution (solve : list Z -> Z * list (list Z))
    (header_data sol_nonces : list Z) (hashes_processed_count : Z) :
  let '(ret, out, count) :=
    MatrixMiner.cuckoo_call solve header_data sol_nonces hashes_processed_count in
  count = hashes_processed_count + 1 /\
  (fst (solve header_data) = 0 -> ret = 0 /\ out = sol_nonces) /\
  (forall prf, 0 < fst (solve header_data) ->
     snd (solve header_data) !! 0%nat = Some prf ->
     length prf = Z.to_nat PROOFSIZE -> (Z.to_nat PROOFSIZE <= length sol_nonces)%nat ->
     ret = 1 /\ out = prf ++ drop (Z.to_nat PROOFSIZE) sol_nonces).
Proof.
  unfold MatrixMiner.cuckoo_call.
  destruct (solve header_data) as [nsols sols]. cbn [fst snd] in *.
  destruct (Z.ltb_spec 0 nsols) as [Hpos|Hzero].
  - split_and!; [done|lia|]. intros prf _ Hprf Hlen Hout. split; [done|].
    rewrite Hprf. change (default [] (Some prf)) with prf.
    replace (seqZ 0 PROOFSIZE) with (seqZ 0 (Z.of_nat (Z.to_nat PROOFSIZE)))
      by (f_equal; unfold PROOFSIZE; lia).
    rewrite copy_loop_prefix by lia. by rewrite <- Hlen, firstn_all.
  - split_and!; [done|done|]. intros prf Hpos. lia.
Qed.

(** Two solutions found: the first is returned. *)
Example matrix_cuckoo_call_run :
  MatrixMiner.cuckoo_call (fun _ => (2, [seqZ 100 42; seqZ 200 42])) [1; 2] (replicate 44 7) 5
  = (1, seqZ 100 42 ++ [7; 7], 6).
Proof. vm_compute. reflexivity. Qed.

Section SimpleMinerFacts.
Import SimpleMiner.
Variable sipnode : Z -> Z -> Z.
Variable easiness : Z.

Lemma StronglySorted_seqZ (m n : Z) : StronglySorted Z.lt (seqZ m n).
Proof.
  destruct (Z.le_gt_cases n 0) as [Hn|Hn]; [rewrite seqZ_nil by lia; constructor|].
  rewrite <- (Z2Nat.id n) by lia. generalize (Z.to_nat n). clear. intros k. revert m.
  induction k as [|k IH]; intros m; [rewrite seqZ_nil by lia; constructor|].
  rewrite seqZ_cons by lia. constructor.
  - replace (Z.pred (Z.of_nat (S k))) with (Z.of_nat k) by lia. apply IH.
  - apply Forall_seqZ. lia.
Qed.

(** The loop of [solution] over ascending nonces. *)
Lemma solution_loop (l : list Z) :
  StronglySorted Z.lt l ->
  forall (cyc : gset (Z * Z)) (pr : list Z),
  exists ks,
    snd (foldl (fun '(cycle, printed) nonce =>
                  let e := (sipnode nonce 0, sipnode nonce 1) in
                  if decide (e ∈ cycle) then (cycle ∖ {[ e ]}, printed ++ [nonce])
                  else (cycle, printed))
               (cyc, pr) l) = pr ++ ks /\
    StronglySorted Z.lt ks /\
    forall n, n ∈ ks <->
              n ∈ l /\ (sipnode n 0, sipnode n 1) ∈ cyc /\
              forall m, m ∈ l -> m < n ->
                        (sipnode m 0, sipnode m 1) <> (sipnode n 0, sipnode n 1).
Proof.
  set (f := fun '(cycle, printed) nonce => _).
  assert (forall (cyc : gset (Z * Z)) (pr : list Z) a,
            f (cyc, pr) a
            = if decide ((sipnode a 0, sipnode a 1) ∈ cyc)
              then (cyc ∖ {[ (sipnode a 0, sipnode a 1) ]}, pr ++ [a])
              else (cyc, pr)) as Hf by done.
  clearbody f.
  induction 1 as [|a l Hsorted IH Ha]; intros cyc pr.
  { exists []. cbn. rewrite app_nil_r. split_and!; [done|constructor|].
    intros n. split; [by intros ?%elem_of_nil|by intros [?%elem_of_nil _]]. }
  rewrite Forall_forall in Ha. cbn [foldl]. rewrite Hf.
  destruct (decide ((sipnode a 0, sipnode a 1) ∈ cyc)) as [Hin|Hout].
  - destruct (IH (cyc ∖ {[(sipnode a 0, sipnode a 1)]}) (pr ++ [a])) as (ks & -> & Hks & Hiff).
    exists (a :: ks). split_and!.
    + by rewrite <- app_assoc.
    + constructor; [done|]. apply Forall_forall. intros n Hn.
      apply Ha. by apply Hiff in Hn as [? _].
    + intros n. rewrite !elem_of_cons, Hiff. split.
      * intros [->|(Hn & Hcyc & Hfirst)].
        -- split_and!; [by left|done|]. intros m [->|Hm]%elem_of_cons Hlt; [lia|].
           specialize (Ha m Hm). lia.
        -- apply elem_of_difference in Hcyc as [Hcyc Hne].
           rewrite elem_of_singleton in Hne.
           split_and!; [by right|done|].
           intros m [->|Hm]%elem_of_cons Hlt; [congruence|by apply Hfirst].
      * intros ([->|Hn] & Hcyc & Hfirst); [by left|right].
        split_and!; [done| |intros m Hm; apply Hfirst; by right].
        assert ((sipnode a 0, sipnode a 1) <> (sipnode n 0, sipnode n 1))
          by (apply Hfirst; [by left|by apply Ha]).
        apply elem_of_difference. split; [done|].
        rewrite elem_of_singleton. congruence.
  - destruct (IH cyc pr) as (ks & -> & Hks & Hiff).
    exists ks. split_and!; [done|done|].
    intros n. rewrite elem_of_cons, Hiff. split.
    + intros (Hn & Hcyc & Hfirst). split_and!; [by right|done|].
      intros m [->|Hm]%elem_of_cons Hlt; [congruence|by apply Hfirst].
    + intros ([->|Hn] & Hcyc & Hfirst); [done|].
      split_and!; [done|done|]. intros m Hm. apply Hfirst. by right.
Qed.

(** X27: [solution] of the simple miner prints the nonces in ascending
    order, and it prints a nonce below [easiness] exactly when its edge
    is in the set collected from the two paths and no smaller nonce has
    the same edge: each edge of the set is printed once, by its smallest
    nonce. *)
Theorem simple_solution_smallest_nonces (us : list Z) (nu : Z) (vs : list Z) (nv : Z) :
  let cycle :=
    cycle_vs (Z.to_nat nv) vs
      (cycle_us (Z.to_nat nu) us {[ (node_at us 0, node_at vs 0) ]}) in
  let printed := solution sipnode easiness us nu vs nv in
  StronglySorted Z.lt printed /\
  forall n, n ∈ printed <->
            0 <= n < easiness /\ (sipnode n 0, sipnode n 1) ∈ cycle /\
            forall m, 0 <= m < n ->
                      (sipnode m 0, sipnode m 1) <> (sipnode n 0, sipnode n 1).
Proof.
  intros cycle printed.
  destruct (solution_loop (seqZ 0 easiness) (StronglySorted_seqZ 0 easiness) cycle [])
    as (ks & Heq & Hks & Hiff).
  assert (printed = ks) as -> by exact Heq.
  split; [done|]. intros n. rewrite Hiff, elem_of_seqZ. split.
  - intros (Hn & Hcyc & Hfirst). split; [lia|]. split; [exact Hcyc|].
    intros m Hm. apply Hfirst; [apply elem_of_seqZ|]; lia.
  - intros (Hn & Hcyc & Hfirst). split; [lia|]. split; [exact Hcyc|].
    intros m Hm%elem_of_seqZ Hlt. apply Hfirst. lia.
Qed.

(** The loop of [path] along a chain that ends after [k] nodes. *)
Lemma simple_path_loop_chain (ck : gmap Z Z) (k : nat) :
  forall (room : nat) (u nu : Z) (us : list Z),
  (k <= room)%nat -> 0 <= nu -> walk ck k u = 0 ->
  (forall j, (j < k)%nat -> walk ck j u <> 0) ->
  path_loop room ck u nu us
  = Return (nu + Z.of_nat k,
            list_inserts (S (Z.to_nat nu)) ((fun j => walk ck j u) <$> seq 0 k) us).
Proof.
  induction k as [|k IH]; intros room u nu us Hroom Hnu Hend Hnodes.
  - cbn [walk] in Hend. subst u. destruct room; cbn; by rewrite Z.add_0_r.
  - destruct room as [|room]; [lia|]. cbn [path_loop].
    pose proof (Hnodes 0%nat ltac:(lia)) as Hu. cbn [walk] in Hu.
    destruct (Z.eqb_spec u 0) as [|_]; [done|].
    rewrite (IH room (cuckoo_at ck u) (nu + 1)); [|lia|lia|done|].
    + f_equal. f_equal; [lia|].
      cbn [seq fmap list_fmap list_inserts walk]. rewrite <- fmap_S_seq, <- list_fmap_compose.
      replace (Z.to_nat (nu + 1)) with (S (Z.to_nat nu)) by lia.
      by rewrite list_insert_inserts_lt by lia.
    + intros j Hj. apply (Hnodes (S j)). lia.
Qed.

(** X28: when the chain of table entries from [u] reaches nil after [k]
    nodes, [k] below [MAXPATHLEN = 8192], [path] of the simple miner
    returns [k] with the nodes stored in [us[1..k]] in the order met and
    the rest of [us], entry 0 included, as it was. *)
Theorem simple_path_returns_chain (ck : gmap Z Z) (u : Z) (us : list Z) (k : nat) :
  (Z.of_nat k < MAXPATHLEN)%Z -> walk ck k u = 0 ->
  (forall j, (j < k)%nat -> walk ck j u <> 0) ->
  path ck u us
  = Return (Z.of_nat k, list_inserts 1 ((fun j => walk ck j u) <$> seq 0 k) us).
Proof.
  intros Hk Hend Hnodes. unfold path.
  rewrite (simple_path_loop_chain ck k); try done.
  unfold MAXPATHLEN in *. lia.
Qed.
End SimpleMinerFacts.

Lemma simple_path_returns_chain_witness :
  let ck : gmap Z Z := <[6 := 9]> (<[5 := 6]> ∅) in
  SimpleMiner.path ck 5 (replicate 8 0)
  = SimpleMiner.Return
      (Z.of_nat 3,
       list_inserts 1 ((fun j => SimpleMiner.walk ck j 5) <$> seq 0 3) (replicate 8 0)).
Proof.
  intros ck. apply (simple_path_returns_chain ck 5 (replicate 8 0) 3).
  - unfold SimpleMiner.MAXPATHLEN. lia.
  - vm_compute. reflexivity.
  - intros [|[|[|j]]] Hj; [vm_compute; discriminate ..|lia].
Defined.
